(** * sx_core: queues, configuration store, unified bus and async runtime

    A shallow embedding of the core of [sx_core] (queue family, the
    configuration store, the data plane and the control plane of the
    unified bus, the lifecycle of the asynchronous runtime) together with
    the properties its specification states about them.

    Every C++ member function becomes a function on an explicit state
    record; a function that writes through a reference parameter returns
    the new value of that parameter next to its result. *)

From Stdlib Require Import ZArith Lia Permutation Ascii String.
From Stdlib Require Import Floats.SpecFloat.
From Stdlib Require OrderedTypeEx Sorted.
From stdpp Require Import gmap strings list fin_maps.

Set Warnings "-register-all".
Open Scope Z_scope.

(** ** Results of calls that may not return *)

(** A call either returns, dereferences a null pointer (undefined
    behaviour in the source), or is still looping / suspended when the
    model's fuel runs out. *)
Inductive run (A : Type) : Type :=
  | Returns (a : A)
  | NullDeref
  | Pending.
Arguments Returns {A} a.
Arguments NullDeref {A}.
Arguments Pending {A}.

(** ** Queue family: [sx/utils/mpmc_queue.h], [sx/utils/overwrite_queue.h] *)

(** The calls of [IQueue<T>] that take an item out of a queue. *)
Inductive pop_call : Type :=
  | TryPopRef      (* bool try_pop(T& item) *)
  | TryPopPtr      (* std::shared_ptr<T> try_pop() *)
  | WaitPopRef     (* void wait_and_pop(T& item) *)
  | WaitPopPtr.    (* std::shared_ptr<T> wait_and_pop() *)

Module MPMCQueue.
Section WithElement.
Context {T : Type}.

(** [std::queue<T> queue_]: the head of the list is [front()], [push]
    appends at the back.  The mutex and the condition variable carry no
    data. *)
Record t : Type := Build { queue_ : list T }.

(** [MPMCQueue() = default] *)
Definition create : t := {| queue_ := [] |}.

Definition push (q : t) (item : T) : t :=
  {| queue_ := queue_ q ++ [item] |}.

Definition empty (q : t) : bool :=
  match queue_ q with [] => true | _ :: _ => false end.

(** [bool try_pop(T& item)]: the result, the queue afterwards and the
    caller's variable afterwards. *)
Definition try_pop (q : t) (item : T) : bool * t * T :=
  match queue_ q with
  | [] => (false, q, item)
  | front :: rest => (true, {| queue_ := rest |}, front)
  end.

(** [std::shared_ptr<T> try_pop()]: [None] is [nullptr]. *)
Definition try_pop_ptr (q : t) : option T * t :=
  match queue_ q with
  | [] => (None, q)
  | front :: rest => (Some front, {| queue_ := rest |})
  end.

(** [void wait_and_pop(T& item)]: [cv_.wait] returns only once the queue
    is not empty; with no other producer an empty queue keeps the caller
    suspended. *)
Definition wait_and_pop (q : t) (item : T) : run (t * T) :=
  match queue_ q with
  | [] => Pending
  | front :: rest => Returns ({| queue_ := rest |}, front)
  end.

Definition wait_and_pop_ptr (q : t) : run (option T * t) :=
  match queue_ q with
  | [] => Pending
  | front :: rest => Returns (Some front, {| queue_ := rest |})
  end.

(** One pop through any of the four entry points: the value handed to
    the caller when the call returns with one, and the queue afterwards. *)
Definition pop (c : pop_call) (q : t) (item : T) : option (T * t) :=
  match c with
  | TryPopRef =>
      match try_pop q item with
      | (true, q', v) => Some (v, q')
      | (false, _, _) => None
      end
  | TryPopPtr =>
      match try_pop_ptr q with
      | (Some v, q') => Some (v, q')
      | (None, _) => None
      end
  | WaitPopRef =>
      match wait_and_pop q item with
      | Returns (q', v) => Some (v, q')
      | _ => None
      end
  | WaitPopPtr =>
      match wait_and_pop_ptr q with
      | Returns (Some v, q') => Some (v, q')
      | _ => None
      end
  end.

(** A run of pops, each writing into the same caller variable [item]. *)
Fixpoint pops (cs : list pop_call) (q : t) (item : T) : option (list T * t) :=
  match cs with
  | [] => Some ([], q)
  | c :: cs' =>
      match pop c q item with
      | None => None
      | Some (v, q') =>
          match pops cs' q' v with
          | None => None
          | Some (vs, q'') => Some (v :: vs, q'')
          end
      end
  end.

Definition pushes (q : t) (xs : list T) : t := fold_left push xs q.
End WithElement.
Arguments t : clear implicits.
End MPMCQueue.

Module OverwriteQueue.
Section WithElement.
Context {T : Type}.

(** [std::shared_ptr<T> data_] ([None] is the null pointer it starts as)
    and [bool has_data_]. *)
Record t : Type := Build { data_ : option T; has_data_ : bool }.

(** [explicit OverwriteQueue(size_t capacity = 1) {}] *)
Definition create (capacity : N) : t :=
  {| data_ := None; has_data_ := false |}.

Definition push (q : t) (item : T) : t :=
  {| data_ := Some item; has_data_ := true |}.

Definition empty (q : t) : bool := negb (has_data_ q).

(** [bool try_pop(T& item)]: [item = *data_] reads through [data_]. *)
Definition try_pop (q : t) (item : T) : run (bool * t * T) :=
  if negb (has_data_ q) then Returns (false, q, item)
  else match data_ q with
       | None => NullDeref
       | Some d => Returns (true, {| data_ := data_ q; has_data_ := false |}, d)
       end.

Definition try_pop_ptr (q : t) : run (option T * t) :=
  if negb (has_data_ q) then Returns (None, q)
  else match data_ q with
       | None => NullDeref
       | Some d => Returns (Some d, {| data_ := data_ q; has_data_ := false |})
       end.

(** [while (true) { if (try_pop(item)) return; yield(); }]: one unit of
    fuel per iteration. *)
Fixpoint wait_and_pop (fuel : nat) (q : t) (item : T) : run (t * T) :=
  match fuel with
  | O => Pending
  | S fuel' =>
      match try_pop q item with
      | Returns (true, q', v) => Returns (q', v)
      | Returns (false, q', item') => wait_and_pop fuel' q' item'
      | NullDeref => NullDeref
      | Pending => Pending
      end
  end.

Fixpoint wait_and_pop_ptr (fuel : nat) (q : t) : run (option T * t) :=
  match fuel with
  | O => Pending
  | S fuel' =>
      match try_pop_ptr q with
      | Returns (Some v, q') => Returns (Some v, q')
      | Returns (None, q') => wait_and_pop_ptr fuel' q'
      | NullDeref => NullDeref
      | Pending => Pending
      end
  end.

Definition pop (fuel : nat) (c : pop_call) (q : t) (item : T) : run (option (T * t)) :=
  match c with
  | TryPopRef =>
      match try_pop q item with
      | Returns (true, q', v) => Returns (Some (v, q'))
      | Returns (false, _, _) => Returns None
      | NullDeref => NullDeref
      | Pending => Pending
      end
  | TryPopPtr =>
      match try_pop_ptr q with
      | Returns (Some v, q') => Returns (Some (v, q'))
      | Returns (None, _) => Returns None
      | NullDeref => NullDeref
      | Pending => Pending
      end
  | WaitPopRef =>
      match wait_and_pop fuel q item with
      | Returns (q', v) => Returns (Some (v, q'))
      | NullDeref => NullDeref
      | Pending => Pending
      end
  | WaitPopPtr =>
      match wait_and_pop_ptr fuel q with
      | Returns (Some v, q') => Returns (Some (v, q'))
      | Returns (None, _) => Returns None
      | NullDeref => NullDeref
      | Pending => Pending
      end
  end.

Definition pushes (q : t) (xs : list T) : t := fold_left push xs q.
End WithElement.
Arguments t : clear implicits.
End OverwriteQueue.

(** ** Configuration store: [infra/src/config_manager.cpp] *)

Module Config.

(** [nlohmann::json::number_float_t] is [double] and [float] is binary32;
    both are IEEE 754 values of the Standard Library's [spec_float]. *)
Definition double : Type := spec_float.
Definition float : Type := spec_float.

(** [std::numeric_limits<int>::min()], [max()] and
    [std::numeric_limits<std::size_t>::max()] (LP64). *)
Definition int_min : Z := - 2 ^ 31.
Definition int_max : Z := 2 ^ 31 - 1.
Definition size_t_max : Z := 2 ^ 64 - 1.

(** A value of [nlohmann::json] as the parser builds it from text:
    [number_integer_t] is [int64_t], [number_unsigned_t] is [uint64_t], an
    object is a [std::map] from key to value. *)
Inductive json : Type :=
  | Jnull
  | Jboolean (b : bool)
  | Jnumber_integer (v : Z)
  | Jnumber_unsigned (v : Z)
  | Jnumber_float (v : double)
  | Jstring (s : string)
  | Jarray (elems : list json)
  | Jobject (members : gmap string json).

Definition is_null (j : json) : bool :=
  match j with Jnull => true | _ => false end.
Definition is_boolean (j : json) : bool :=
  match j with Jboolean _ => true | _ => false end.
Definition is_number_unsigned (j : json) : bool :=
  match j with Jnumber_unsigned _ => true | _ => false end.
(** [is_number_integer()] is true of signed and of unsigned integers. *)
Definition is_number_integer (j : json) : bool :=
  match j with Jnumber_integer _ | Jnumber_unsigned _ => true | _ => false end.
Definition is_number_float (j : json) : bool :=
  match j with Jnumber_float _ => true | _ => false end.
Definition is_number (j : json) : bool :=
  is_number_integer j || is_number_float j.
Definition is_string (j : json) : bool :=
  match j with Jstring _ => true | _ => false end.
Definition is_array (j : json) : bool :=
  match j with Jarray _ => true | _ => false end.
Definition is_object (j : json) : bool :=
  match j with Jobject _ => true | _ => false end.

(** [static_cast<int64_t>] of a [uint64_t]: reduction modulo [2^64]. *)
Definition int64_of_uint64 (u : Z) : Z :=
  if u <? 2 ^ 63 then u else u - 2 ^ 64.

(** [static_cast<double>] of a 64-bit integer, round to nearest even. *)
Definition double_of_Z (v : Z) : double := binary_normalize 53 1024 v 0 false.

(** [static_cast<float>] of a [double]. *)
Definition float_of_double (d : double) : float :=
  match d with
  | S754_finite s m e => binary_normalize 24 128 (cond_Zopp s (Z.pos m)) e s
  | _ => d
  end.

(** [node.get<number_integer_t>()] on a node that holds a number. *)
Definition get_number_integer (node : json) : option Z :=
  match node with
  | Jnumber_integer v => Some v
  | Jnumber_unsigned u => Some (int64_of_uint64 u)
  | _ => None
  end.

(** [node.get<number_float_t>()] on a node that holds a number. *)
Definition get_number_float (node : json) : option double :=
  match node with
  | Jnumber_integer v => Some (double_of_Z v)
  | Jnumber_unsigned u => Some (double_of_Z u)
  | Jnumber_float d => Some d
  | _ => None
  end.

(** *** Index tokens *)

Definition isdigit (ch : ascii) : bool :=
  (48 <=? Z.of_N (N_of_ascii ch)) && (Z.of_N (N_of_ascii ch) <=? 57).

Definition IsUnsignedIntegerToken (s : string) : bool :=
  match s with
  | EmptyString => false
  | _ => forallb isdigit (list_ascii_of_string s)
  end.

(** The body of the [for] loop of [ParseSizeTNoExcept]; [size_t]
    arithmetic is modulo [2^64]. *)
Fixpoint ParseSizeT_loop (chars : list ascii) (value : Z) : option Z :=
  match chars with
  | [] => Some value
  | ch :: chars' =>
      let digit := (Z.of_N (N_of_ascii ch) - 48) mod 2 ^ 64 in
      if value >? ((size_t_max - digit) mod 2 ^ 64) / 10 then None
      else ParseSizeT_loop chars' ((value * 10 + digit) mod 2 ^ 64)
  end.

Definition ParseSizeTNoExcept (s : string) : option Z :=
  if negb (IsUnsignedIntegerToken s) then None
  else ParseSizeT_loop (list_ascii_of_string s) 0.

(** *** Conversions of a node *)

Definition JsonToIntNoExcept (node : json) : option Z :=
  if negb (is_number_integer node || is_number_unsigned node) then None
  else match get_number_integer node with
       | None => None
       | Some v =>
           if v <? int_min then None
           else if v >? int_max then None
           else Some v
       end.

Definition JsonToFloatNoExcept (node : json) : option float :=
  if negb (is_number node) then None
  else option_map float_of_double (get_number_float node).

Definition JsonToDoubleNoExcept (node : json) : option double :=
  if negb (is_number node) then None else get_number_float node.

Definition JsonToBoolNoExcept (node : json) : option bool :=
  match node with Jboolean b => Some b | _ => None end.

Definition JsonToStringNoExcept (node : json) : option string :=
  match node with Jstring s => Some s | _ => None end.

(** The [for] loop of [JsonArrayToVectorNoExcept]: [v] is the vector
    built so far. *)
Fixpoint vector_loop {E : Type} (conv : json → option E)
    (elems : list json) (v : list E) : option (list E) :=
  match elems with
  | [] => Some v
  | el :: elems' =>
      match conv el with
      | None => None
      | Some item => vector_loop conv elems' (v ++ [item])
      end
  end.

Definition JsonArrayToVectorNoExcept {E : Type} (conv : json → option E)
    (node : json) : option (list E) :=
  match node with
  | Jarray elems => vector_loop conv elems []
  | _ => None
  end.

(** The types [ConfigManager::get<T>] is instantiated at. *)
Inductive target : Type :=
  | Tint | Tfloat | Tdouble | Tbool | Tstring
  | Tvector_int | Tvector_float | Tvector_string.

Definition value (T : target) : Type :=
  match T with
  | Tint => Z
  | Tfloat => float
  | Tdouble => double
  | Tbool => bool
  | Tstring => string
  | Tvector_int => list Z
  | Tvector_float => list float
  | Tvector_string => list string
  end.

Definition JsonToValueNoExcept (T : target) (node : json) : option (value T) :=
  match T with
  | Tint => JsonToIntNoExcept node
  | Tfloat => JsonToFloatNoExcept node
  | Tdouble => JsonToDoubleNoExcept node
  | Tbool => JsonToBoolNoExcept node
  | Tstring => JsonToStringNoExcept node
  | Tvector_int => JsonArrayToVectorNoExcept JsonToIntNoExcept node
  | Tvector_float => JsonArrayToVectorNoExcept JsonToFloatNoExcept node
  | Tvector_string => JsonArrayToVectorNoExcept JsonToStringNoExcept node
  end.

(** *** Path traversal *)

(** [std::istringstream]: the characters not read yet and the state bits
    [std::getline] looks at. *)
Record istringstream : Type :=
  { rdbuf : string; eofbit : bool; failbit : bool }.

Definition istringstream_of (s : string) : istringstream :=
  {| rdbuf := s; eofbit := false; failbit := false |}.

(** Characters up to the next ['.'] (which is taken out of the stream and
    dropped) or up to the end of the input: the token, what is left, and
    whether the end was hit. *)
Fixpoint extract_token (s : string) : string * string * bool :=
  match s with
  | EmptyString => (EmptyString, EmptyString, true)
  | String c s' =>
      if Ascii.eqb c "."%char then (EmptyString, s', false)
      else let '(token, rest, eof) := extract_token s' in
           (String c token, rest, eof)
  end.

(** [std::getline(tokenStream, token, '.')]: fails on a stream that is not
    good, and fails (setting [failbit]) when not a single character, the
    delimiter included, could be extracted. *)
Definition getline (ss : istringstream) : istringstream * option string :=
  if eofbit ss || failbit ss then
    ({| rdbuf := rdbuf ss; eofbit := eofbit ss; failbit := true |}, None)
  else
    match rdbuf ss with
    | EmptyString =>
        ({| rdbuf := EmptyString; eofbit := true; failbit := true |}, None)
    | _ =>
        let '(token, rest, eof) := extract_token (rdbuf ss) in
        ({| rdbuf := rest; eofbit := eof; failbit := false |}, Some token)
    end.

(** One iteration of the [while] loop of [traverse]: [None] is
    [return nullptr], [Some next] is [curr = next; continue]. *)
Definition traverse_step (curr : json) (token : string) : option json :=
  match token with
  | EmptyString => None
  | _ =>
      match (match curr with Jobject members => members !! token | _ => None end) with
      | Some child => Some child
      | None =>
          match curr with
          | Jarray elems =>
              match ParseSizeTNoExcept token with
              | None => None
              | Some idx =>
                  if idx >=? Z.of_nat (length elems) then None
                  else elems !! Z.to_nat idx
              end
          | _ => None
          end
      end
  end.

Fixpoint traverse_loop (fuel : nat) (tokenStream : istringstream) (curr : json)
    : run (option json) :=
  match fuel with
  | O => Pending
  | S fuel' =>
      match getline tokenStream with
      | (_, None) => Returns (Some curr)
      | (tokenStream', Some token) =>
          match traverse_step curr token with
          | None => Returns None
          | Some next => traverse_loop fuel' tokenStream' next
          end
      end
  end.

(** [Impl::traverse]: [None] is the null pointer.  Every successful
    [getline] consumes input, so the loop body runs at most once per
    character of [path], plus the call that fails. *)
Definition traverse (root : json) (path : string) : run (option json) :=
  traverse_loop (S (String.length path)) (istringstream_of path) root.

(** *** The store *)

(** [std::function<void()>]: empty, or a callable known by its identity. *)
Inductive UpdateCallback : Type :=
  | EmptyFn
  | Fn (id : nat).

(** [std::error_code] values the store returns. *)
Inductive error_code : Type :=
  | ok
  | no_such_file_or_directory
  | illegal_byte_sequence
  | invalid_argument.

(** [listeners] is a [std::map]: its entries are kept in increasing key
    order, which is the order a range-[for] visits them in. *)
Record Impl : Type :=
  { root : json;
    config_path : string;
    listeners : list (string * list UpdateCallback) }.

(** [ConfigManager::ConfigManager()]: a default [json] is [null]. *)
Definition create : Impl :=
  {| root := Jnull; config_path := EmptyString; listeners := [] |}.

(** [listeners[key_path].push_back(cb)] on the ordered map. *)
Fixpoint map_push_back (key_path : string) (cb : UpdateCallback)
    (m : list (string * list UpdateCallback)) : list (string * list UpdateCallback) :=
  match m with
  | [] => [(key_path, [cb])]
  | (k, cbs) :: m' =>
      match String.compare key_path k with
      | Eq => (k, cbs ++ [cb]) :: m'
      | Lt => (key_path, [cb]) :: (k, cbs) :: m'
      | Gt => (k, cbs) :: map_push_back key_path cb m'
      end
  end.

Definition register_listener (st : Impl) (key_path : string) (cb : UpdateCallback) : Impl :=
  match cb with
  | EmptyFn => st
  | Fn _ =>
      {| root := root st; config_path := config_path st;
         listeners := map_push_back key_path cb (listeners st) |}
  end.

(** The snapshot [reload] takes of every bucket, in map order. *)
Definition snapshot (m : list (string * list UpdateCallback)) : list UpdateCallback :=
  concat (map snd m).

(** [for (auto& cb : callbacks) if (cb) cb();]: the identities called, in
    order, each with no argument. *)
Fixpoint invoke_all (callbacks : list UpdateCallback) : list nat :=
  match callbacks with
  | [] => []
  | EmptyFn :: rest => invoke_all rest
  | Fn id :: rest => id :: invoke_all rest
  end.

Section WithEnvironment.
(** What lies outside the store: the files that can be opened and read
    at the time of a call, and [nlohmann::json::parse] with exceptions
    off ([None] is a discarded result). *)
Variable parse : string → option json.

Definition filesystem : Type := string → option string.

Definition ReadFileToString (fs : filesystem) (path : string) : option string :=
  fs path.

Definition ParseJsonNoExcept (text : string) : option json := parse text.

Definition load (fs : filesystem) (st : Impl) (path : string) : error_code * Impl :=
  match ReadFileToString fs path with
  | None => (no_such_file_or_directory, st)
  | Some text =>
      match ParseJsonNoExcept text with
      | None => (illegal_byte_sequence, st)
      | Some new_root =>
          (ok, {| root := new_root; config_path := path; listeners := listeners st |})
      end
  end.

(** [reload]: the error code, the store afterwards and the callbacks
    called, in order. *)
Definition reload (fs : filesystem) (st : Impl) : error_code * Impl * list nat :=
  let path := config_path st in
  match path with
  | EmptyString => (invalid_argument, st, [])
  | _ =>
      match ReadFileToString fs path with
      | None => (no_such_file_or_directory, st, [])
      | Some text =>
          match ParseJsonNoExcept text with
          | None => (illegal_byte_sequence, st, [])
          | Some new_root =>
              let st' := {| root := new_root; config_path := config_path st;
                            listeners := listeners st |} in
              let callbacks := snapshot (listeners st') in
              (ok, st', invoke_all callbacks)
          end
      end
  end.

(** The calls a client makes on the store, each at the file system of
    its moment. *)
Inductive call : Type :=
  | Load (fs : filesystem) (path : string)
  | Reload (fs : filesystem)
  | RegisterListener (key_path : string) (cb : UpdateCallback).

Definition exec (st : Impl) (c : call) : Impl :=
  match c with
  | Load fs path => snd (load fs st path)
  | Reload fs => snd (fst (reload fs st))
  | RegisterListener key_path cb => register_listener st key_path cb
  end.

Definition exec_all (st : Impl) (cs : list call) : Impl := fold_left exec cs st.

(** Whether a call is a [load] that returns no error in state [st]. *)
Definition is_successful_load (st : Impl) (c : call) : bool :=
  match c with
  | Load fs path => match fst (load fs st path) with ok => true | _ => false end
  | _ => false
  end.

(** No [load] of the history returns success. *)
Fixpoint no_successful_load (st : Impl) (cs : list call) : bool :=
  match cs with
  | [] => true
  | c :: cs' => negb (is_successful_load st c) && no_successful_load (exec st c) cs'
  end.

(** The non-empty callbacks a history registers, as identities. *)
Fixpoint registered (cs : list call) : list nat :=
  match cs with
  | [] => []
  | RegisterListener _ (Fn id) :: cs' => id :: registered cs'
  | _ :: cs' => registered cs'
  end.

(** The path given to the last [load] of a history that returned
    success, starting from state [st]; [acc] when there is none. *)
Fixpoint last_loaded (st : Impl) (cs : list call) (acc : string) : string :=
  match cs with
  | [] => acc
  | c :: cs' =>
      last_loaded (exec st c) cs'
        match c with
        | Load _ path => if is_successful_load st c then path else acc
        | _ => acc
        end
  end.
End WithEnvironment.

(** [ConfigManager::get<T>]. *)
Definition get (T : target) (st : Impl) (key_path : string) (default_val : value T)
    : run (value T) :=
  match traverse (root st) key_path with
  | Returns None => Returns default_val
  | Returns (Some node) =>
      if is_null node then Returns default_val
      else match JsonToValueNoExcept T node with
           | None => Returns default_val
           | Some out => Returns out
           end
  | NullDeref => NullDeref
  | Pending => Pending
  end.

(** *** Paths as token lists *)

(** The path cut at every ['.']: what a dot-separated path is made of.
    [split_dots "a.b" = ["a"; "b"]], [split_dots "a." = ["a"; ""]] and
    [split_dots "" = [""]]. *)
Fixpoint split_dots (s : string) : list string :=
  match s with
  | EmptyString => [EmptyString]
  | String c s' =>
      if Ascii.eqb c "."%char then EmptyString :: split_dots s'
      else match split_dots s' with
           | [] => [String c EmptyString]
           | t :: ts => String c t :: ts
           end
  end.

(** A token list without its last token when that one is empty. *)
Fixpoint strip_trailing_empty (ts : list string) : list string :=
  match ts with
  | [] => []
  | [t] => match t with EmptyString => [] | _ => [t] end
  | t :: ts' => t :: strip_trailing_empty ts'
  end.

(** Tokens resolved one after the other from a node. *)
Fixpoint resolve (curr : json) (tokens : list string) : option json :=
  match tokens with
  | [] => Some curr
  | t :: ts =>
      match traverse_step curr t with
      | None => None
      | Some next => resolve next ts
      end
  end.

(** The decimal value of a digit string. *)
Definition decimal_value (s : string) : Z :=
  fold_left (λ v ch, v * 10 + (Z.of_N (N_of_ascii ch) - 48)) (list_ascii_of_string s) 0.

End Config.

(** ** Unified bus: [infra/src/unified_bus.cpp], [sx/infra/unified_bus.h] *)

Module Bus.

(** [std::shared_ptr<void>]: the address of the object it shares, [0] for
    the null pointer.  Two references are the same reference when they
    hold the same address. *)
Definition shared_ptr_void : Type := N.

(** [enum class StreamMode : uint8_t]: any value of the underlying byte. *)
Definition StreamMode : Type := N.
Definition kReliableFifo : StreamMode := 0%N.
Definition kRealTimeLatest : StreamMode := 1%N.

(** An [IQueue<std::shared_ptr<void>>] object: one of the two queue
    classes behind the common interface. *)
Inductive IQueue : Type :=
  | Reliable (q : MPMCQueue.t shared_ptr_void)
  | Latest (q : OverwriteQueue.t shared_ptr_void).

Definition IQueue_push (q : IQueue) (item : shared_ptr_void) : IQueue :=
  match q with
  | Reliable q => Reliable (MPMCQueue.push q item)
  | Latest q => Latest (OverwriteQueue.push q item)
  end.

Definition IQueue_empty (q : IQueue) : bool :=
  match q with
  | Reliable q => MPMCQueue.empty q
  | Latest q => OverwriteQueue.empty q
  end.

Definition IQueue_try_pop (q : IQueue) (item : shared_ptr_void)
    : run (bool * IQueue * shared_ptr_void) :=
  match q with
  | Reliable q =>
      let '(b, q', v) := MPMCQueue.try_pop q item in Returns (b, Reliable q', v)
  | Latest q =>
      match OverwriteQueue.try_pop q item with
      | Returns (b, q', v) => Returns (b, Latest q', v)
      | NullDeref => NullDeref
      | Pending => Pending
      end
  end.

(** [struct StreamTopic]: the subscriber queues in subscription order,
    each a shared pointer, here the index of the queue object in the
    store of queue objects. *)
Record StreamTopic : Type := { queues : list nat }.

(** The control plane talks to ZeroMQ; what the library holds is part of
    the model: the sockets that are open, each with its type and the
    endpoint it is bound or connected to, and the messages sent. *)
Inductive socket_type : Type := ZMQ_PUB | ZMQ_SUB.

#[global] Instance socket_type_eq_dec : EqDecision socket_type.
Proof. solve_decision. Defined.

Record zmq_socket_t : Type :=
  { sock_type : socket_type;
    sock_endpoint : option string;
    sock_linger : option Z;
    sock_rcvtimeo : option Z;
    sock_subscribed : bool }.

(** [struct SubWorker]: [socket] is the handle of a ZeroMQ socket,
    [thread] the identity of the [std::thread] it owns. *)
Record SubWorker : Type :=
  { socket : option nat;
    thread : nat;
    stop : bool;
    endpoint : string }.

(** A thread started by the bus: the worker loop it runs is that of the
    endpoint [thr_endpoint]. *)
Record worker_thread : Type :=
  { thr_endpoint : string; thr_joined : bool }.

(** [std::error_code]: success, or an [errno] in the ZeroMQ category. *)
Inductive error_code : Type :=
  | ok
  | zmq_error (errno : Z).

(** What ZeroMQ answers to the calls one bus operation makes. *)
Record zmq_answers : Type :=
  { ctx_new_ok : bool;
    socket_ok : bool;
    bind_ok : bool;
    connect_ok : bool;
    send_ok : bool;
    errno : Z }.

Record Impl : Type :=
  { control_topics_ : gmap string (list nat);
    zmq_context_ : option nat;
    pub_sockets_ : gmap string (option nat);
    sub_workers_ : gmap string SubWorker;
    stream_topics_ : gmap string StreamTopic;
    (* objects the bus shares with others or with a library *)
    queue_objects : list IQueue;
    zmq_next : nat;
    zmq_sockets : gmap nat zmq_socket_t;
    zmq_sent : list (nat * string);
    threads : list worker_thread }.

Definition create : Impl :=
  {| control_topics_ := ∅; zmq_context_ := None; pub_sockets_ := ∅;
     sub_workers_ := ∅; stream_topics_ := ∅; queue_objects := [];
     zmq_next := 1; zmq_sockets := ∅; zmq_sent := []; threads := [] |}.

(** *** Data plane *)

Definition set_stream (st : Impl) (topics : gmap string StreamTopic)
    (objs : list IQueue) : Impl :=
  {| control_topics_ := control_topics_ st; zmq_context_ := zmq_context_ st;
     pub_sockets_ := pub_sockets_ st; sub_workers_ := sub_workers_ st;
     stream_topics_ := topics; queue_objects := objs;
     zmq_next := zmq_next st; zmq_sockets := zmq_sockets st;
     zmq_sent := zmq_sent st; threads := threads st |}.

(** [for (auto& queue : topic_ptr->queues) queue->push(data);] *)
Fixpoint fan_out (qs : list nat) (data : shared_ptr_void) (objs : list IQueue)
    : list IQueue :=
  match qs with
  | [] => objs
  | queue :: qs' =>
      fan_out qs' data (alter (λ q, IQueue_push q data) queue objs)
  end.

Definition publish_stream (st : Impl) (topic : string) (data : shared_ptr_void) : Impl :=
  match stream_topics_ st !! topic with
  | None => st
  | Some topic_ptr =>
      set_stream st (stream_topics_ st) (fan_out (queues topic_ptr) data (queue_objects st))
  end.

(** [subscribe_stream]: the bus afterwards and the pointer returned,
    [None] for [nullptr]. *)
Definition subscribe_stream (st : Impl) (topic : string) (mode : StreamMode)
    : Impl * option nat :=
  let topics :=
    match stream_topics_ st !! topic with
    | None => <[topic := {| queues := [] |}]> (stream_topics_ st)
    | Some _ => stream_topics_ st
    end in
  let topic_ptr := default {| queues := [] |} (topics !! topic) in
  let make (new_queue : IQueue) :=
    let handle := length (queue_objects st) in
    (set_stream st
       (<[topic := {| queues := queues topic_ptr ++ [handle] |}]> topics)
       (queue_objects st ++ [new_queue]),
     Some handle) in
  if (mode =? kReliableFifo)%N then make (Reliable MPMCQueue.create)
  else if (mode =? kRealTimeLatest)%N then make (Latest (OverwriteQueue.create 1))
  else (set_stream st topics (queue_objects st), None).

(** [TypedQueueAdapter<T>] around the pointer [subscribe_stream] returned:
    the casts keep the address. *)
Definition adapter_try_pop (st : Impl) (impl_ : option nat) (item : shared_ptr_void)
    : run (bool * Impl * shared_ptr_void) :=
  match impl_ with
  | None => NullDeref
  | Some handle =>
      match queue_objects st !! handle with
      | None => NullDeref
      | Some q =>
          match IQueue_try_pop q item with
          | Returns (b, q', v) =>
              Returns (b, set_stream st (stream_topics_ st)
                            (<[handle := q']> (queue_objects st)), v)
          | NullDeref => NullDeref
          | Pending => Pending
          end
      end
  end.

Definition adapter_empty (st : Impl) (impl_ : option nat) : run bool :=
  match impl_ with
  | None => NullDeref
  | Some handle =>
      match queue_objects st !! handle with
      | None => NullDeref
      | Some q => Returns (IQueue_empty q)
      end
  end.

(** *** Control plane *)

Definition set_zmq (st : Impl) (ctx : option nat) (pubs : gmap string (option nat))
    (workers : gmap string SubWorker) (next : nat) (socks : gmap nat zmq_socket_t)
    (sent : list (nat * string)) (thrs : list worker_thread) : Impl :=
  {| control_topics_ := control_topics_ st; zmq_context_ := ctx;
     pub_sockets_ := pubs; sub_workers_ := workers;
     stream_topics_ := stream_topics_ st; queue_objects := queue_objects st;
     zmq_next := next; zmq_sockets := socks; zmq_sent := sent; threads := thrs |}.

(** [ensure_zmq_context_locked] *)
Definition ensure_zmq_context_locked (a : zmq_answers) (st : Impl) : error_code * Impl :=
  match zmq_context_ st with
  | Some _ => (ok, st)
  | None =>
      if ctx_new_ok a then
        (ok, set_zmq st (Some (zmq_next st)) (pub_sockets_ st) (sub_workers_ st)
               (S (zmq_next st)) (zmq_sockets st) (zmq_sent st) (threads st))
      else (zmq_error (errno a), st)
  end.

Definition publish_control (a : zmq_answers) (st : Impl) (endpoint : string)
    (message : string) : error_code * Impl :=
  match ensure_zmq_context_locked a st with
  | (zmq_error e, st1) => (zmq_error e, st1)
  | (ok, st1) =>
      (* void*& pub = pub_sockets_[endpoint]; *)
      let pubs := match pub_sockets_ st1 !! endpoint with
                  | None => <[endpoint := None]> (pub_sockets_ st1)
                  | Some _ => pub_sockets_ st1
                  end in
      let send (pub : nat) (st2 : Impl) : error_code * Impl :=
        if send_ok a then
          (ok, set_zmq st2 (zmq_context_ st2) (pub_sockets_ st2) (sub_workers_ st2)
                 (zmq_next st2) (zmq_sockets st2) (zmq_sent st2 ++ [(pub, message)])
                 (threads st2))
        else (zmq_error (errno a), st2) in
      match default None (pubs !! endpoint) with
      | Some pub =>
          send pub (set_zmq st1 (zmq_context_ st1) pubs (sub_workers_ st1)
                      (zmq_next st1) (zmq_sockets st1) (zmq_sent st1) (threads st1))
      | None =>
          if negb (socket_ok a) then
            (zmq_error (errno a),
             set_zmq st1 (zmq_context_ st1) pubs (sub_workers_ st1)
               (zmq_next st1) (zmq_sockets st1) (zmq_sent st1) (threads st1))
          else
            let pub := zmq_next st1 in
            if negb (bind_ok a) then
              (* zmq_close(pub); pub = nullptr; *)
              (zmq_error (errno a),
               set_zmq st1 (zmq_context_ st1) pubs (sub_workers_ st1)
                 (S pub) (zmq_sockets st1) (zmq_sent st1) (threads st1))
            else
              let sock := {| sock_type := ZMQ_PUB; sock_endpoint := Some endpoint;
                             sock_linger := Some 0; sock_rcvtimeo := None;
                             sock_subscribed := false |} in
              send pub (set_zmq st1 (zmq_context_ st1) (<[endpoint := Some pub]> pubs)
                          (sub_workers_ st1) (S pub) (<[pub := sock]> (zmq_sockets st1))
                          (zmq_sent st1) (threads st1))
      end
  end.

Definition push_callback (st : Impl) (endpoint : string) (callback : nat) : Impl :=
  {| control_topics_ :=
       <[endpoint := default [] (control_topics_ st !! endpoint) ++ [callback]]>
         (control_topics_ st);
     zmq_context_ := zmq_context_ st; pub_sockets_ := pub_sockets_ st;
     sub_workers_ := sub_workers_ st; stream_topics_ := stream_topics_ st;
     queue_objects := queue_objects st; zmq_next := zmq_next st;
     zmq_sockets := zmq_sockets st; zmq_sent := zmq_sent st; threads := threads st |}.

Definition subscribe_control (a : zmq_answers) (st : Impl) (endpoint : string)
    (callback : nat) : error_code * Impl :=
  match ensure_zmq_context_locked a st with
  | (zmq_error e, st1) => (zmq_error e, st1)
  | (ok, st1) =>
      match sub_workers_ st1 !! endpoint with
      | Some _ => (ok, push_callback st1 endpoint callback)
      | None =>
          if negb (socket_ok a) then (zmq_error (errno a), st1)
          else
            let sock := zmq_next st1 in
            if negb (connect_ok a) then
              (* zmq_close(worker->socket); *)
              (zmq_error (errno a),
               set_zmq st1 (zmq_context_ st1) (pub_sockets_ st1) (sub_workers_ st1)
                 (S sock) (zmq_sockets st1) (zmq_sent st1) (threads st1))
            else
              let s := {| sock_type := ZMQ_SUB; sock_endpoint := Some endpoint;
                          sock_linger := Some 0; sock_rcvtimeo := Some 100;
                          sock_subscribed := true |} in
              let worker := {| socket := Some sock; thread := length (threads st1);
                               stop := false; endpoint := endpoint |} in
              let st2 :=
                set_zmq st1 (zmq_context_ st1) (pub_sockets_ st1)
                  (<[endpoint := worker]> (sub_workers_ st1)) (S sock)
                  (<[sock := s]> (zmq_sockets st1)) (zmq_sent st1)
                  (threads st1 ++ [{| thr_endpoint := endpoint; thr_joined := false |}]) in
              (ok, push_callback st2 endpoint callback)
      end
  end.

(** The calls of a client of the bus; a control-plane call comes with the
    answers ZeroMQ gives during it. *)
Inductive call : Type :=
  | Publish (a : zmq_answers) (endpoint : string) (message : string)
  | Subscribe (a : zmq_answers) (endpoint : string) (callback : nat)
  | PublishStream (topic : string) (data : shared_ptr_void)
  | SubscribeStream (topic : string) (mode : StreamMode).

Definition exec (st : Impl) (c : call) : Impl :=
  match c with
  | Publish a endpoint message => snd (publish_control a st endpoint message)
  | Subscribe a endpoint callback => snd (subscribe_control a st endpoint callback)
  | PublishStream topic data => publish_stream st topic data
  | SubscribeStream topic mode => fst (subscribe_stream st topic mode)
  end.

Definition exec_all (st : Impl) (cs : list call) : Impl := fold_left exec cs st.

(** What ties the control-plane tables to the sockets ZeroMQ has open and
    to the threads started: every open socket and every thread is the one
    its endpoint's table entry names, and every table entry names an open
    socket of its endpoint. *)
Record control_inv (st : Impl) : Prop :=
  { inv_fresh : ∀ h s, zmq_sockets st !! h = Some s → (h < zmq_next st)%nat;
    inv_pub_socket : ∀ h s,
      zmq_sockets st !! h = Some s → sock_type s = ZMQ_PUB →
      ∃ e, sock_endpoint s = Some e ∧ pub_sockets_ st !! e = Some (Some h);
    inv_sub_socket : ∀ h s,
      zmq_sockets st !! h = Some s → sock_type s = ZMQ_SUB →
      ∃ e w, sock_endpoint s = Some e ∧ sub_workers_ st !! e = Some w
             ∧ socket w = Some h;
    inv_thread : ∀ i t,
      threads st !! i = Some t →
      thr_joined t = false
      ∧ ∃ w, sub_workers_ st !! thr_endpoint t = Some w ∧ thread w = i;
    inv_pub_entry : ∀ e h,
      pub_sockets_ st !! e = Some (Some h) →
      ∃ s, zmq_sockets st !! h = Some s ∧ sock_type s = ZMQ_PUB
           ∧ sock_endpoint s = Some e;
    inv_sub_entry : ∀ e w,
      sub_workers_ st !! e = Some w →
      endpoint w = e ∧ stop w = false
      ∧ threads st !! thread w = Some {| thr_endpoint := e; thr_joined := false |}
      ∧ ∃ h s, socket w = Some h ∧ zmq_sockets st !! h = Some s
               ∧ sock_type s = ZMQ_SUB ∧ sock_endpoint s = Some e }.

(** What a consumer will be handed by the pops to come, oldest first. *)
Definition IQueue_contents (q : IQueue) : list shared_ptr_void :=
  match q with
  | Reliable q => MPMCQueue.queue_ q
  | Latest q =>
      if OverwriteQueue.has_data_ q then option_list (OverwriteQueue.data_ q) else []
  end.

(** Every queue pointer a topic holds points to a queue object, and no
    topic holds a pointer twice. *)
Definition stream_wf (st : Impl) : Prop :=
  ∀ topic tp, stream_topics_ st !! topic = Some tp →
    NoDup (queues tp) ∧ ∀ h, h ∈ queues tp → (h < length (queue_objects st))%nat.

End Bus.

(** ** Asynchronous runtime: [infra/src/async_runtime.cpp] *)

Module Runtime.

(** [IThreadScheduler::ThreadClass] and [sx::types::ThreadPolicy]. *)
Inductive ThreadClass : Type := kIo | kCpu | kCritical.

Record ThreadPolicy : Type :=
  { cpu_id : Z; realtime_priority : Z; realtime : bool }.

(** A [std::thread] the runtime owns, by what its body captured: a pool
    worker its class and index [i], a critical loop its policy and
    function.  Threads in the three vectors are never detached or moved
    from, so they stay joinable until [stop] joins them. *)
Inductive thread : Type :=
  | PoolWorker (cls : ThreadClass) (i : nat)
  | CriticalLoop (policy : ThreadPolicy) (fn : option nat).

(** An [asio::io_context]: whether it is stopped, and the handlers
    posted to it. *)
Record io_context : Type := { stopped : bool; posted : list nat }.

Definition io_context_stop (c : io_context) : io_context :=
  {| stopped := true; posted := posted c |}.
Definition io_context_restart (c : io_context) : io_context :=
  {| stopped := false; posted := posted c |}.
Definition io_context_post (c : io_context) (f : nat) : io_context :=
  {| stopped := stopped c; posted := posted c ++ [f] |}.

(** An [asio::executor_work_guard] holds no data of its own. *)
Definition executor_work_guard : Type := unit.

Record Impl : Type :=
  { started_ : bool;
    io_ctx_ : io_context;
    cpu_ctx_ : io_context;
    io_work_ : option executor_work_guard;
    cpu_work_ : option executor_work_guard;
    io_threads_ : list thread;
    cpu_threads_ : list thread;
    critical_threads_ : list thread;
    stop_ : bool;
    scheduler_ : option nat }.

(** [AsyncRuntime::AsyncRuntime()] *)
Definition create : Impl :=
  {| started_ := false;
     io_ctx_ := {| stopped := false; posted := [] |};
     cpu_ctx_ := {| stopped := false; posted := [] |};
     io_work_ := None; cpu_work_ := None;
     io_threads_ := []; cpu_threads_ := []; critical_threads_ := [];
     stop_ := false; scheduler_ := None |}.

(** [for (i = 0; i < n; ++i) threads.emplace_back(...)] *)
Definition emplace_workers (cls : ThreadClass) (n : nat) (threads : list thread)
    : list thread :=
  fold_left (λ ts i, ts ++ [PoolWorker cls i]) (seq 0 n) threads.

Definition start_threads_locked (st : Impl) (io_n cpu_n : nat) : Impl :=
  {| started_ := started_ st; io_ctx_ := io_ctx_ st; cpu_ctx_ := cpu_ctx_ st;
     io_work_ := io_work_ st; cpu_work_ := cpu_work_ st;
     io_threads_ := emplace_workers kIo io_n (io_threads_ st);
     cpu_threads_ := emplace_workers kCpu cpu_n (cpu_threads_ st);
     critical_threads_ := critical_threads_ st;
     stop_ := stop_ st; scheduler_ := scheduler_ st |}.

(** [stop_and_join_locked]: the runtime afterwards and the threads
    joined, in the order they were joined in. *)
Definition stop_and_join_locked (st : Impl) : Impl * list thread :=
  let joined := io_threads_ st ++ cpu_threads_ st ++ critical_threads_ st in
  ({| started_ := false;
      io_ctx_ := io_context_restart (io_context_stop (io_ctx_ st));
      cpu_ctx_ := io_context_restart (io_context_stop (cpu_ctx_ st));
      io_work_ := None; cpu_work_ := None;
      io_threads_ := []; cpu_threads_ := []; critical_threads_ := [];
      stop_ := true; scheduler_ := scheduler_ st |},
   joined).

Section WithPlatform.
(** [std::thread::hardware_concurrency()], which may be [0]. *)
Variable hardware_concurrency : nat.

Definition init (st : Impl) (scheduler : option nat) (io_n cpu_n : nat) : Impl :=
  let io_n := if (io_n =? 0)%nat then 1%nat else io_n in
  let cpu_n := if (cpu_n =? 0)%nat then Nat.max 1 hardware_concurrency else cpu_n in
  if started_ st then st
  else
    let st1 :=
      {| started_ := started_ st; io_ctx_ := io_ctx_ st; cpu_ctx_ := cpu_ctx_ st;
         io_work_ := Some tt; cpu_work_ := Some tt;
         io_threads_ := io_threads_ st; cpu_threads_ := cpu_threads_ st;
         critical_threads_ := critical_threads_ st;
         stop_ := false; scheduler_ := scheduler |} in
    let st2 := start_threads_locked st1 io_n cpu_n in
    {| started_ := true; io_ctx_ := io_ctx_ st2; cpu_ctx_ := cpu_ctx_ st2;
       io_work_ := io_work_ st2; cpu_work_ := cpu_work_ st2;
       io_threads_ := io_threads_ st2; cpu_threads_ := cpu_threads_ st2;
       critical_threads_ := critical_threads_ st2;
       stop_ := stop_ st2; scheduler_ := scheduler_ st2 |}.

Definition stop (st : Impl) : Impl * list thread :=
  if negb (started_ st) then (st, []) else stop_and_join_locked st.

Definition post_io_impl (st : Impl) (f : nat) : Impl :=
  if negb (started_ st) then st
  else {| started_ := started_ st; io_ctx_ := io_context_post (io_ctx_ st) f;
          cpu_ctx_ := cpu_ctx_ st; io_work_ := io_work_ st; cpu_work_ := cpu_work_ st;
          io_threads_ := io_threads_ st; cpu_threads_ := cpu_threads_ st;
          critical_threads_ := critical_threads_ st;
          stop_ := stop_ st; scheduler_ := scheduler_ st |}.

Definition post_cpu_impl (st : Impl) (f : nat) : Impl :=
  if negb (started_ st) then st
  else {| started_ := started_ st; io_ctx_ := io_ctx_ st;
          cpu_ctx_ := io_context_post (cpu_ctx_ st) f;
          io_work_ := io_work_ st; cpu_work_ := cpu_work_ st;
          io_threads_ := io_threads_ st; cpu_threads_ := cpu_threads_ st;
          critical_threads_ := critical_threads_ st;
          stop_ := stop_ st; scheduler_ := scheduler_ st |}.

Definition spawn_critical_loop_impl (st : Impl) (policy : ThreadPolicy)
    (f : option nat) : Impl :=
  if negb (started_ st) then st
  else {| started_ := started_ st; io_ctx_ := io_ctx_ st; cpu_ctx_ := cpu_ctx_ st;
          io_work_ := io_work_ st; cpu_work_ := cpu_work_ st;
          io_threads_ := io_threads_ st; cpu_threads_ := cpu_threads_ st;
          critical_threads_ := critical_threads_ st ++ [CriticalLoop policy f];
          stop_ := stop_ st; scheduler_ := scheduler_ st |}.

(** The calls of a client of the runtime. *)
Inductive call : Type :=
  | Init (scheduler : option nat) (io_n cpu_n : nat)
  | Stop
  | PostIo (f : nat)
  | PostCpu (f : nat)
  | SpawnCriticalLoop (policy : ThreadPolicy) (f : option nat).

Definition exec (st : Impl) (c : call) : Impl :=
  match c with
  | Init scheduler io_n cpu_n => init st scheduler io_n cpu_n
  | Stop => fst (stop st)
  | PostIo f => post_io_impl st f
  | PostCpu f => post_cpu_impl st f
  | SpawnCriticalLoop policy f => spawn_critical_loop_impl st policy f
  end.

Definition exec_all (st : Impl) (cs : list call) : Impl := fold_left exec cs st.

(** The thread counts [init] starts the pools with. *)
Definition io_count (io_n : nat) : nat :=
  if (io_n =? 0)%nat then 1%nat else io_n.
Definition cpu_count (cpu_n : nat) : nat :=
  if (cpu_n =? 0)%nat then Nat.max 1 hardware_concurrency else cpu_n.
End WithPlatform.

(** The worker threads a pool of [n] threads is started with. *)
Definition workers (cls : ThreadClass) (n : nat) : list thread :=
  map (PoolWorker cls) (seq 0 n).

(** What holds of every runtime between calls: the two contexts are not
    stopped, and a runtime that is not started owns no thread and no
    work guard. *)
Definition idle_inv (st : Impl) : Prop :=
  stopped (io_ctx_ st) = false ∧ stopped (cpu_ctx_ st) = false
  ∧ (started_ st = false →
     io_threads_ st = [] ∧ cpu_threads_ st = [] ∧ critical_threads_ st = []
     ∧ io_work_ st = None ∧ cpu_work_ st = None).

End Runtime.

(** ** Runs of queue calls *)

(** One client's calls on a queue, in program order. *)
Inductive queue_op (T : Type) : Type :=
  | Push (x : T)
  | Pop (c : pop_call).
Arguments Push {T} x.
Arguments Pop {T} c.

(** The values a run of calls pushes, in order. *)
Fixpoint pushed {T : Type} (ops : list (queue_op T)) : list T :=
  match ops with
  | [] => []
  | Push x :: ops' => x :: pushed ops'
  | Pop _ :: ops' => pushed ops'
  end.

Definition is_wait (c : pop_call) : bool :=
  match c with
  | WaitPopRef | WaitPopPtr => true
  | TryPopRef | TryPopPtr => false
  end.

Module MPMCRun.
Section WithElement.
Context {T : Type}.

(** The calls run one after the other on a queue no other thread uses:
    the values the pops hand back, in order, and the queue at the end.
    A [try_pop] that fails hands back nothing and the run goes on; a
    [wait_and_pop] on an empty queue never returns, and neither does the
    run ([None]). *)
Fixpoint run_ops (ops : list (queue_op T)) (q : MPMCQueue.t T) (item : T)
    : option (list T * MPMCQueue.t T) :=
  match ops with
  | [] => Some ([], q)
  | Push x :: ops' => run_ops ops' (MPMCQueue.push q x) item
  | Pop c :: ops' =>
      match MPMCQueue.pop c q item with
      | Some (v, q') =>
          match run_ops ops' q' v with
          | Some (vs, q'') => Some (v :: vs, q'')
          | None => None
          end
      | None => if is_wait c then None else run_ops ops' q item
      end
  end.
End WithElement.
End MPMCRun.

Module OverwriteRun.
Section WithElement.
Context {T : Type}.

(** The same for a Latest-overwrite queue; every [wait_and_pop] polls at
    most [fuel] times. *)
Fixpoint run_ops (fuel : nat) (ops : list (queue_op T)) (q : OverwriteQueue.t T)
    (item : T) : run (list T * OverwriteQueue.t T) :=
  match ops with
  | [] => Returns ([], q)
  | Push x :: ops' => run_ops fuel ops' (OverwriteQueue.push q x) item
  | Pop c :: ops' =>
      match OverwriteQueue.pop fuel c q item with
      | Returns (Some (v, q')) =>
          match run_ops fuel ops' q' v with
          | Returns (vs, q'') => Returns (v :: vs, q'')
          | NullDeref => NullDeref
          | Pending => Pending
          end
      | Returns None => run_ops fuel ops' q item
      | NullDeref => NullDeref
      | Pending => Pending
      end
  end.

(** [has_data_] is only set together with [data_]. *)
Definition data_ok (q : OverwriteQueue.t T) : Prop :=
  OverwriteQueue.has_data_ q = true → is_Some (OverwriteQueue.data_ q).
End WithElement.
End OverwriteRun.

(** ** Configuration store: what a history registers under one key *)

(** The non-empty callbacks a history registers under [key], in order. *)
Fixpoint registered_at (key : string) (cs : list Config.call) : list nat :=
  match cs with
  | [] => []
  | Config.RegisterListener k (Config.Fn id) :: cs' =>
      if String.eqb k key then id :: registered_at key cs' else registered_at key cs'
  | _ :: cs' => registered_at key cs'
  end.

(** The bucket of [key] in the ordered listener map, [operator[]] without
    the insertion. *)
Fixpoint bucket (m : list (string * list Config.UpdateCallback)) (key : string)
    : list Config.UpdateCallback :=
  match m with
  | [] => []
  | (k, cbs) :: m' => if String.eqb k key then cbs else bucket m' key
  end.

(** ** Unified bus: teardown, the receive loop and the typed handle *)

Module BusTeardown.
Import Bus.

Definition join (t : worker_thread) : worker_thread :=
  {| thr_endpoint := thr_endpoint t; thr_joined := true |}.

Definition set_stop (w : SubWorker) : SubWorker :=
  {| socket := socket w; thread := thread w; stop := true; endpoint := endpoint w |}.

(** [zmq_close] on each socket of a list. *)
Definition close_all (handles : list nat) (socks : gmap nat zmq_socket_t)
    : gmap nat zmq_socket_t :=
  foldr delete socks handles.

(** [shutdown_zmq]: every worker's stop flag is set, every worker's
    thread is joined (a worker loop leaves once it sees its flag, the
    receive timing out every 100 ms), every publisher socket and every
    worker socket that is not null is closed, both tables are cleared
    and the context is terminated.  The workers leave the model with
    their table, so the flags set in the first step are not kept. *)
Definition shutdown_zmq (st : Impl) : Impl :=
  let workers := (set_stop <$> (map_to_list (sub_workers_ st)).*2) in
  let thrs := foldr (λ w ths, alter join (thread w) ths) (threads st) workers in
  let socks :=
    close_all (omap socket workers)
      (close_all (omap id (map_to_list (pub_sockets_ st)).*2) (zmq_sockets st)) in
  set_zmq st None ∅ ∅ (zmq_next st) socks (zmq_sent st) thrs.

Definition shutdown (st : Impl) : Impl :=
  let st1 := shutdown_zmq st in
  {| control_topics_ := ∅; zmq_context_ := zmq_context_ st1;
     pub_sockets_ := pub_sockets_ st1; sub_workers_ := sub_workers_ st1;
     stream_topics_ := ∅; queue_objects := queue_objects st1;
     zmq_next := zmq_next st1; zmq_sockets := zmq_sockets st1;
     zmq_sent := zmq_sent st1; threads := threads st1 |}.
End BusTeardown.

Module BusWorker.
Import Bus.

(** What [zmq_msg_recv] gives one iteration of the worker loop. *)
Inductive recv_result : Type :=
  | recv_failed (errno : Z)
  | recv_message (payload : string).

(** One iteration of [sub_worker_loop] past the test of the stop flag:
    the callbacks called, in order, each with its argument. *)
Definition sub_worker_iteration (st : Impl) (w : SubWorker) (r : recv_result)
    : list (nat * string) :=
  match r with
  | recv_failed _ => []
  | recv_message recv_msg =>
      let callbacks := default [] (control_topics_ st !! endpoint w) in
      map (λ cb, (cb, recv_msg)) callbacks
  end.

(** The callbacks of the [subscribe] calls of a history on endpoint [e]
    that returned success, in order. *)
Fixpoint subscribed_ok (st : Impl) (cs : list call) (e : string) : list nat :=
  match cs with
  | [] => []
  | c :: cs' =>
      match c with
      | Subscribe a e' cb =>
          if decide (e' = e) then
            match (subscribe_control a st e' cb).1 with
            | ok => [cb]
            | zmq_error _ => []
            end
          else []
      | _ => []
      end ++ subscribed_ok (exec st c) cs' e
  end.
End BusWorker.

Module TypedQueueAdapter.
Import Bus.

(** [TypedQueueAdapter<T>]: the pointer to the untyped queue it wraps. *)
Record t : Type := Build { impl_ : option nat }.

(** [UnifiedBus::subscribe_stream<T>]: the adapter is made around any
    pointer [subscribe_stream_impl] returns, the null one too. *)
Definition subscribe_stream (st : Impl) (topic : string) (mode : StreamMode)
    : Impl * t :=
  let '(st', void_queue) := Bus.subscribe_stream st topic mode in
  (st', {| impl_ := void_queue |}).

Definition with_queue {A : Type} (st : Impl) (a : t)
    (f : nat → IQueue → run A) : run A :=
  match impl_ a with
  | None => NullDeref
  | Some handle =>
      match queue_objects st !! handle with
      | None => NullDeref
      | Some q => f handle q
      end
  end.

Definition store (st : Impl) (handle : nat) (q : IQueue) : Impl :=
  set_stream st (stream_topics_ st) (<[handle := q]> (queue_objects st)).

Definition push (st : Impl) (a : t) (item : shared_ptr_void) : run Impl :=
  with_queue st a (λ handle q, Returns (store st handle (IQueue_push q item))).

Definition try_pop (st : Impl) (a : t) (item : shared_ptr_void)
    : run (bool * Impl * shared_ptr_void) :=
  adapter_try_pop st (impl_ a) item.

(** [std::shared_ptr<std::shared_ptr<T>> try_pop()] *)
Definition try_pop_ptr (st : Impl) (a : t) : run (option shared_ptr_void * Impl) :=
  with_queue st a (λ handle q,
    match q with
    | Reliable q =>
        let '(r, q') := MPMCQueue.try_pop_ptr q in
        Returns (r, store st handle (Reliable q'))
    | Latest q =>
        match OverwriteQueue.try_pop_ptr q with
        | Returns (r, q') => Returns (r, store st handle (Latest q'))
        | NullDeref => NullDeref
        | Pending => Pending
        end
    end).

Definition empty (st : Impl) (a : t) : run bool := adapter_empty st (impl_ a).
End TypedQueueAdapter.

(** The payloads a history publishes on one data-plane topic, in order. *)
Fixpoint published_to (topic : string) (cs : list Bus.call) : list Bus.shared_ptr_void :=
  match cs with
  | [] => []
  | Bus.PublishStream t data :: cs' =>
      if decide (t = topic) then data :: published_to topic cs'
      else published_to topic cs'
  | _ :: cs' => published_to topic cs'
  end.

(** No queue pointer is held by two topics. *)
Definition stream_owned (st : Bus.Impl) : Prop :=
  ∀ t1 t2 tp1 tp2 h,
    Bus.stream_topics_ st !! t1 = Some tp1 → Bus.stream_topics_ st !! t2 = Some tp2 →
    h ∈ Bus.queues tp1 → h ∈ Bus.queues tp2 → t1 = t2.

(** ** Asynchronous runtime: what a history spawns *)

(** The critical loops a history asks for, in order. *)
Fixpoint spawned (cs : list Runtime.call) : list Runtime.thread :=
  match cs with
  | [] => []
  | Runtime.SpawnCriticalLoop policy f :: cs' => Runtime.CriticalLoop policy f :: spawned cs'
  | _ :: cs' => spawned cs'
  end.

Definition is_init (c : Runtime.call) : bool :=
  match c with Runtime.Init _ _ _ => true | _ => false end.

Definition is_stop (c : Runtime.call) : bool :=
  match c with Runtime.Stop => true | _ => false end.

(** ** Logging: [infra/src/logging.cpp], [sx/infra/logging.h] *)

Module Logging.

Inductive LogLevel : Type :=
  | kTrace | kDebug | kInfo | kWarn | kError | kCritical | kOff.

(** [spdlog::level::level_enum], in increasing order. *)
Inductive level_enum : Type :=
  | trace | debug | info | warn | err | critical | off.

Definition ToSpdLevel (lvl : LogLevel) : level_enum :=
  match lvl with
  | kTrace => trace
  | kDebug => debug
  | kInfo => info
  | kWarn => warn
  | kError => err
  | kCritical => critical
  | kOff => off
  end.

Definition level_rank (l : level_enum) : nat :=
  match l with
  | trace => 0 | debug => 1 | info => 2 | warn => 3
  | err => 4 | critical => 5 | off => 6
  end.

Record LoggingConfig : Type :=
  { log_dir : string;
    file_name : string;
    max_size_bytes : N;
    max_files : N;
    default_level : LogLevel;
    pattern : string }.

(** A default-constructed [LoggingConfig]. *)
Definition defaults : LoggingConfig :=
  {| log_dir := "/tmp"; file_name := "sx.log";
     max_size_bytes := 10 * 1024 * 1024; max_files := 3;
     default_level := kInfo; pattern := "" |}.

(** A [spdlog::sinks::rotating_file_sink_mt]: the file is [file_name]
    inside [log_dir]. *)
Record rotating_file_sink : Type :=
  { sink_dir : string; sink_file : string; sink_max_size : N; sink_max_files : N }.

(** A [spdlog::logger]: its name, the sink it shares, its level, the
    level from which it flushes, and its pattern if one was set. *)
Record logger : Type :=
  { lg_name : string;
    lg_sink : option nat;
    lg_level : level_enum;
    lg_flush_level : level_enum;
    lg_pattern : option string }.

(** A line a logger handed to a sink. *)
Record log_line : Type :=
  { line_sink : option nat; line_logger : string;
    line_level : level_enum; line_msg : string }.

Inductive error_code : Type :=
  | ok
  | filesystem_error (errno : Z)
  | io_error.

(** What the file system and the sink constructor answer during [init]. *)
Record init_answers : Type :=
  { create_directories_error : option Z; sink_throws : bool }.

(** A call returns, or locks the manager's [std::mutex] while the calling
    thread already owns it, which has no defined behaviour (the thread
    waits for itself). *)
Inductive outcome (A : Type) : Type :=
  | Done (a : A)
  | Relock.
Arguments Done {A} a.
Arguments Relock {A}.

(** [LogManager::Impl], with the objects it shares with the handles it
    gave out: sinks and loggers live as long as somebody points to them. *)
Record Impl : Type :=
  { mutex_owned : bool;
    inited : bool;
    cfg : LoggingConfig;
    sink : option nat;
    loggers : gmap string nat;
    levels : gmap string LogLevel;
    sink_objects : list rotating_file_sink;
    logger_objects : list logger;
    written : list log_line }.

(** [LogManager::LogManager()] *)
Definition create : Impl :=
  {| mutex_owned := false; inited := false; cfg := defaults; sink := None;
     loggers := ∅; levels := ∅; sink_objects := []; logger_objects := [];
     written := [] |}.

Definition set_mutex (st : Impl) (b : bool) : Impl :=
  {| mutex_owned := b; inited := inited st; cfg := cfg st; sink := sink st;
     loggers := loggers st; levels := levels st; sink_objects := sink_objects st;
     logger_objects := logger_objects st; written := written st |}.

(** [std::lock_guard<std::mutex> lock(pImpl_->mutex)] around a body. *)
Definition lock_guard {A : Type} (st : Impl) (body : Impl → outcome (A * Impl))
    : outcome (A * Impl) :=
  if mutex_owned st then Relock
  else match body (set_mutex st true) with
       | Done (a, st') => Done (a, set_mutex st' false)
       | Relock => Relock
       end.

Definition set_cfg (st : Impl) (c : LoggingConfig) : Impl :=
  {| mutex_owned := mutex_owned st; inited := inited st; cfg := c; sink := sink st;
     loggers := loggers st; levels := levels st; sink_objects := sink_objects st;
     logger_objects := logger_objects st; written := written st |}.

Definition init (env : init_answers) (st : Impl) (c : LoggingConfig)
    : outcome (error_code * Impl) :=
  lock_guard st (λ st,
    if inited st then Done (ok, st)
    else
      let st1 := set_cfg st c in
      match create_directories_error env with
      | Some errno => Done (filesystem_error errno, st1)
      | None =>
          if sink_throws env then Done (io_error, st1)
          else
            let new_sink :=
              {| sink_dir := log_dir (cfg st1); sink_file := file_name (cfg st1);
                 sink_max_size := max_size_bytes (cfg st1);
                 sink_max_files := max_files (cfg st1) |} in
            Done (ok,
                  {| mutex_owned := mutex_owned st1; inited := true; cfg := cfg st1;
                     sink := Some (length (sink_objects st1));
                     loggers := loggers st1; levels := levels st1;
                     sink_objects := sink_objects st1 ++ [new_sink];
                     logger_objects := logger_objects st1; written := written st1 |})
      end).

Definition new_logger (st : Impl) (name : string) : logger :=
  let level :=
    match levels st !! name with
    | Some lvl => ToSpdLevel lvl
    | None => ToSpdLevel (default_level (cfg st))
    end in
  {| lg_name := name; lg_sink := sink st; lg_level := level; lg_flush_level := err;
     lg_pattern := match pattern (cfg st) with
                   | EmptyString => None
                   | p => Some p
                   end |}.

(** [get_or_create_logger_locked]: the pointer to the logger, which is
    made and cached when the name is new. *)
Definition get_or_create_logger_locked (st : Impl) (name : string) : nat * Impl :=
  match loggers st !! name with
  | Some lg => (lg, st)
  | None =>
      let lg := length (logger_objects st) in
      (lg,
       {| mutex_owned := mutex_owned st; inited := inited st; cfg := cfg st;
          sink := sink st; loggers := <[name := lg]> (loggers st); levels := levels st;
          sink_objects := sink_objects st;
          logger_objects := logger_objects st ++ [new_logger st name];
          written := written st |})
  end.

(** [get_logger]: the [SpdLogger] handed out is known by the logger it
    wraps.  The lazy [init] is called with the mutex already locked. *)
Definition get_logger (env : init_answers) (st : Impl) (name : string)
    : outcome (nat * Impl) :=
  lock_guard st (λ st,
    let lazy :=
      if negb (inited st) then
        match init env st defaults with
        | Done (_, st') => Done st'
        | Relock => Relock
        end
      else Done st in
    match lazy with
    | Done st1 => Done (get_or_create_logger_locked st1 name)
    | Relock => Relock
    end).

Definition set_logger_level (lvl : level_enum) (lg : logger) : logger :=
  {| lg_name := lg_name lg; lg_sink := lg_sink lg; lg_level := lvl;
     lg_flush_level := lg_flush_level lg; lg_pattern := lg_pattern lg |}.

Definition set_level (st : Impl) (logger_name : string) (level : LogLevel)
    : outcome (unit * Impl) :=
  lock_guard st (λ st,
    Done (tt,
          {| mutex_owned := mutex_owned st; inited := inited st; cfg := cfg st;
             sink := sink st; loggers := loggers st;
             levels := <[logger_name := level]> (levels st);
             sink_objects := sink_objects st;
             logger_objects :=
               match loggers st !! logger_name with
               | Some lg => alter (set_logger_level (ToSpdLevel level)) lg (logger_objects st)
               | None => logger_objects st
               end;
             written := written st |})).

Definition set_default_level (st : Impl) (level : LogLevel) : outcome (unit * Impl) :=
  lock_guard st (λ st,
    Done (tt,
          set_cfg st {| log_dir := log_dir (cfg st); file_name := file_name (cfg st);
                        max_size_bytes := max_size_bytes (cfg st);
                        max_files := max_files (cfg st); default_level := level;
                        pattern := pattern (cfg st) |})).

Definition shutdown (st : Impl) : outcome (unit * Impl) :=
  lock_guard st (λ st,
    if negb (inited st) then Done (tt, st)
    else Done (tt,
               {| mutex_owned := mutex_owned st; inited := false; cfg := cfg st;
                  sink := None; loggers := ∅; levels := ∅;
                  sink_objects := sink_objects st;
                  logger_objects := logger_objects st; written := written st |})).

(** [SpdLogger::log] through a handle: [spdlog::logger::log] hands the
    message to the sink when its level is not below the logger's. *)
Definition log (st : Impl) (impl_ : option nat) (level : LogLevel) (msg : string) : Impl :=
  match impl_ with
  | None => st
  | Some h =>
      match logger_objects st !! h with
      | None => st
      | Some lg =>
          if (level_rank (lg_level lg) <=? level_rank (ToSpdLevel level))%nat then
            {| mutex_owned := mutex_owned st; inited := inited st; cfg := cfg st;
               sink := sink st; loggers := loggers st; levels := levels st;
               sink_objects := sink_objects st; logger_objects := logger_objects st;
               written :=
                 written st ++ [{| line_sink := lg_sink lg; line_logger := lg_name lg;
                                   line_level := ToSpdLevel level; line_msg := msg |}] |}
          else st
      end
  end.

(** The calls of a client of the manager. *)
Inductive call : Type :=
  | Init (env : init_answers) (c : LoggingConfig)
  | GetLogger (env : init_answers) (name : string)
  | SetLevel (logger_name : string) (level : LogLevel)
  | SetDefaultLevel (level : LogLevel)
  | Shutdown
  | Log (impl_ : option nat) (level : LogLevel) (msg : string).

Definition exec (st : Impl) (c : call) : outcome Impl :=
  match c with
  | Init env c =>
      match init env st c with Done (_, st') => Done st' | Relock => Relock end
  | GetLogger env name =>
      match get_logger env st name with Done (_, st') => Done st' | Relock => Relock end
  | SetLevel n l =>
      match set_level st n l with Done (_, st') => Done st' | Relock => Relock end
  | SetDefaultLevel l =>
      match set_default_level st l with Done (_, st') => Done st' | Relock => Relock end
  | Shutdown =>
      match shutdown st with Done (_, st') => Done st' | Relock => Relock end
  | Log h l m => Done (log st h l m)
  end.

Fixpoint exec_all (st : Impl) (cs : list call) : outcome Impl :=
  match cs with
  | [] => Done st
  | c :: cs' =>
      match exec st c with
      | Done st' => exec_all st' cs'
      | Relock => Relock
      end
  end.

(** Between calls the mutex is free; every cached logger exists and bears
    the name it is cached under, two names never share a logger; a manager
    that is not initialised caches nothing, an initialised one has its sink. *)
Record wf (st : Impl) : Prop :=
  { wf_mutex : mutex_owned st = false;
    wf_loggers : ∀ name h,
      loggers st !! name = Some h →
      ∃ lg, logger_objects st !! h = Some lg ∧ lg_name lg = name;
    wf_distinct : ∀ n1 n2 h,
      loggers st !! n1 = Some h → loggers st !! n2 = Some h → n1 = n2;
    wf_uninit : inited st = false → loggers st = ∅;
    wf_sink : inited st = true →
      ∃ s, sink st = Some s ∧ is_Some (sink_objects st !! s) }.

(** The level a logger made now for [name] starts with. *)
Definition start_level (st : Impl) (name : string) : level_enum :=
  ToSpdLevel (default (default_level (cfg st)) (levels st !! name)).

(** What [log] adds for a logger whose level is [lg_lvl]. *)
Definition passes (lg_lvl : level_enum) (level : LogLevel) : bool :=
  (level_rank lg_lvl <=? level_rank (ToSpdLevel level))%nat.

Definition init_ok : init_answers :=
  {| create_directories_error := None; sink_throws := false |}.

Definition sink_of (c : LoggingConfig) : rotating_file_sink :=
  {| sink_dir := log_dir c; sink_file := file_name c;
     sink_max_size := max_size_bytes c; sink_max_files := max_files c |}.

End Logging.

(** ** InfraManager: [infra/src/infra_manager.cpp], [sx/infra/infra_manager.h] *)

Module InfraManager.

Record InfraConfig : Type :=
  { enable_logging : bool;
    logging : Logging.LoggingConfig;
    config_path : string;
    io_threads : nat;
    cpu_threads : nat;
    scheduler : option nat }.

(** A default-constructed [InfraConfig]. *)
Definition default_config : InfraConfig :=
  {| enable_logging := false; logging := Logging.defaults; config_path := "";
     io_threads := 2; cpu_threads := 0; scheduler := None |}.

(** The [std::error_code] of [init_all] is the one of the step that
    failed. *)
Inductive error_code : Type :=
  | ok
  | logging_error (e : Logging.error_code)
  | config_error (e : Config.error_code).

(** The process-wide objects [init_all] and [shutdown_all] work on: the
    static flag [InfraStarted()] and the singletons behind
    [LogManager::instance()], [AsyncRuntime::instance()],
    [ConfigManager::instance()] and [UnifiedBus::get_instance()], the last
    one constructed on first use.  Both functions hold [InfraMutex()],
    which nothing else locks. *)
Record process : Type :=
  { InfraStarted : bool;
    LogManager_instance : Logging.Impl;
    AsyncRuntime_instance : Runtime.Impl;
    ConfigManager_instance : Config.Impl;
    UnifiedBus_instance : option Bus.Impl }.

Definition fresh : process :=
  {| InfraStarted := false; LogManager_instance := Logging.create;
     AsyncRuntime_instance := Runtime.create; ConfigManager_instance := Config.create;
     UnifiedBus_instance := None |}.

(** What the platform answers during [init_all]. *)
Record platform : Type :=
  { hardware_concurrency : nat;
    parse : string → option Config.json;
    files : Config.filesystem;
    log_answers : Logging.init_answers }.

Definition get_instance (bus : option Bus.Impl) : option Bus.Impl :=
  match bus with
  | Some b => Some b
  | None => Some Bus.create
  end.

Definition init_all (env : platform) (w : process) (cfg : InfraConfig)
    : Logging.outcome (error_code * process) :=
  if InfraStarted w then Logging.Done (ok, w)
  else
    let logging_step :=
      if enable_logging cfg then
        Logging.init (log_answers env) (LogManager_instance w) (logging cfg)
      else Logging.Done (Logging.ok, LogManager_instance w) in
    match logging_step with
    | Logging.Relock => Logging.Relock
    | Logging.Done (Logging.ok, lm) =>
        let rt :=
          Runtime.init (hardware_concurrency env) (AsyncRuntime_instance w)
            (scheduler cfg) (io_threads cfg) (cpu_threads cfg) in
        let load_step :=
          match config_path cfg with
          | EmptyString => (Config.ok, ConfigManager_instance w)
          | path => Config.load (parse env) (files env) (ConfigManager_instance w) path
          end in
        match load_step with
        | (Config.ok, cm) =>
            Logging.Done (ok,
              {| InfraStarted := true; LogManager_instance := lm;
                 AsyncRuntime_instance := rt; ConfigManager_instance := cm;
                 UnifiedBus_instance := get_instance (UnifiedBus_instance w) |})
        | (ec, cm) =>
            Logging.Done (config_error ec,
              {| InfraStarted := false; LogManager_instance := lm;
                 AsyncRuntime_instance := rt; ConfigManager_instance := cm;
                 UnifiedBus_instance := UnifiedBus_instance w |})
        end
    | Logging.Done (ec, lm) =>
        Logging.Done (logging_error ec,
          {| InfraStarted := false; LogManager_instance := lm;
             AsyncRuntime_instance := AsyncRuntime_instance w;
             ConfigManager_instance := ConfigManager_instance w;
             UnifiedBus_instance := UnifiedBus_instance w |})
    end.

Definition shutdown_all (w : process) : Logging.outcome process :=
  if negb (InfraStarted w) then Logging.Done w
  else
    let rt := fst (Runtime.stop (AsyncRuntime_instance w)) in
    match Logging.shutdown (LogManager_instance w) with
    | Logging.Relock => Logging.Relock
    | Logging.Done (_, lm) =>
        Logging.Done
          {| InfraStarted := false; LogManager_instance := lm;
             AsyncRuntime_instance := rt;
             ConfigManager_instance := ConfigManager_instance w;
             UnifiedBus_instance := UnifiedBus_instance w |}
    end.

(** The threads the runtime owns. *)
Definition runtime_threads (w : process) : list Runtime.thread :=
  Runtime.io_threads_ (AsyncRuntime_instance w)
  ++ Runtime.cpu_threads_ (AsyncRuntime_instance w)
  ++ Runtime.critical_threads_ (AsyncRuntime_instance w).

End InfraManager.

(** ** More small environments *)

Definition zmq_no_connect : Bus.zmq_answers :=
  {| Bus.ctx_new_ok := true; Bus.socket_ok := true; Bus.bind_ok := true;
     Bus.connect_ok := false; Bus.send_ok := true; Bus.errno := 111 |}.


Definition zmq_no_bind : Bus.zmq_answers :=
  {| Bus.ctx_new_ok := true; Bus.socket_ok := true; Bus.bind_ok := false;
     Bus.connect_ok := true; Bus.send_ok := true; Bus.errno := 98 |}.
(** ** Small environments the properties are tried on *)

Definition toy_parse (text : string) : option Config.json :=
  if String.eqb text "1" then Some (Config.Jnumber_unsigned 1) else None.

Definition toy_fs : Config.filesystem :=
  λ path, if String.eqb path "a.json" then Some "1"%string else None.

Definition zmq_all_ok : Bus.zmq_answers :=
  {| Bus.ctx_new_ok := true; Bus.socket_ok := true; Bus.bind_ok := true;
     Bus.connect_ok := true; Bus.send_ok := true; Bus.errno := 0 |}.

Definition toy_policy : Runtime.ThreadPolicy :=
  {| Runtime.cpu_id := 2; Runtime.realtime_priority := 50; Runtime.realtime := true |}.

(** The document of the store's unit test. *)
Definition scenario_doc : Config.json :=
  Config.Jobject (list_to_map
    [("ai"%string,
      Config.Jobject (list_to_map
        [("yolo"%string,
          Config.Jobject (list_to_map
            [("threshold"%string,
              Config.Jnumber_float (S754_finite false 6305039478318694 (-53)));
             ("enabled"%string, Config.Jboolean true);
             ("name"%string, Config.Jstring "v8")]))]));
     ("port"%string, Config.Jnumber_unsigned 5555);
     ("cameras"%string,
      Config.Jarray
        [Config.Jobject (list_to_map [("ip"%string, Config.Jstring "10.0.0.1")]);
         Config.Jobject (list_to_map [("ip"%string, Config.Jstring "10.0.0.2")])]);
     ("numbers"%string,
      Config.Jarray [Config.Jnumber_unsigned 1; Config.Jnumber_unsigned 2;
                     Config.Jnumber_unsigned 3])]).

Definition scenario_store : Config.Impl :=
  {| Config.root := scenario_doc; Config.config_path := "/tmp/sx_cfg_basic.json";
     Config.listeners := [] |}.

(** * Properties *)

(** ** Queue family *)

Section MPMCQueueFacts.
Context {T : Type}.
Implicit Types (q : MPMCQueue.t T) (xs : list T).

Lemma mpmc_pushes_queue q xs :
  MPMCQueue.queue_ (MPMCQueue.pushes q xs) = MPMCQueue.queue_ q ++ xs.
Proof.
  unfold MPMCQueue.pushes. revert q.
  induction xs as [|x xs IH]; intros q; simpl.
  - by rewrite app_nil_r.
  - rewrite IH. simpl. by rewrite <- app_assoc.
Qed.

Lemma mpmc_pop_cons c x rest item :
  MPMCQueue.pop c (@MPMCQueue.Build T (x :: rest)) item
  = Some (x, @MPMCQueue.Build T rest).
Proof. by destruct c. Qed.

Lemma mpmc_pops_all cs xs item :
  length cs = length xs →
  MPMCQueue.pops cs (@MPMCQueue.Build T xs) item = Some (xs, @MPMCQueue.Build T []).
Proof.
  revert xs item. induction cs as [|c cs IH]; intros [|x xs] item Hlen;
    simpl in Hlen; try discriminate; [done|].
  cbn [MPMCQueue.pops]. rewrite mpmc_pop_cons, IH by lia. done.
Qed.

Lemma mpmc_empty_queue q : MPMCQueue.empty q = true → q = @MPMCQueue.Build T [].
Proof. destruct q as [[|x l]]; [done | discriminate]. Qed.

(** C1. On a Reliable queue that holds nothing, pushing [x1 … xn] and
    then popping [n] times, each time through any of [try_pop] or
    [wait_and_pop] (with no other producer or consumer), hands back
    exactly [x1 … xn] in that order; afterwards [empty()] is true and a
    further [try_pop] fails. *)
Theorem mpmc_fifo_order q xs cs item :
  MPMCQueue.empty q = true →
  length cs = length xs →
  ∃ q', MPMCQueue.pops cs (MPMCQueue.pushes q xs) item = Some (xs, q')
        ∧ MPMCQueue.empty q' = true
        ∧ ∀ item', MPMCQueue.try_pop q' item' = (false, q', item').
Proof.
  intros Hq Hlen. apply mpmc_empty_queue in Hq. subst q.
  exists (@MPMCQueue.Build T []). split; [|done].
  pose proof (mpmc_pushes_queue (@MPMCQueue.Build T []) xs) as Hp. simpl in Hp.
  destruct (MPMCQueue.pushes _ xs) as [l]. simpl in Hp. subst l.
  by apply mpmc_pops_all.
Qed.
End MPMCQueueFacts.

Lemma mpmc_fifo_order_witness :
  ∃ q', MPMCQueue.pops [TryPopRef; WaitPopPtr; TryPopPtr]
          (MPMCQueue.pushes MPMCQueue.create [7; 8; 9]) 0 = Some ([7; 8; 9], q')
        ∧ MPMCQueue.empty q' = true
        ∧ ∀ item', MPMCQueue.try_pop q' item' = (false, q', item').
Proof.
  apply (mpmc_fifo_order MPMCQueue.create [7; 8; 9] [TryPopRef; WaitPopPtr; TryPopPtr] 0);
    reflexivity.
Defined.

Section OverwriteQueueFacts.
Context {T : Type}.
Implicit Types (q : OverwriteQueue.t T) (xs : list T).

Lemma overwrite_pushes_last q xs v :
  OverwriteQueue.pushes q (xs ++ [v]) = @OverwriteQueue.Build T (Some v) true.
Proof.
  unfold OverwriteQueue.pushes. by rewrite fold_left_app.
Qed.

(** C2. On a Latest-overwrite queue in any state, after [k ≥ 1] pushes
    the last of which pushed [v], a pop through any entry point (one
    iteration of the polling loop is enough for [wait_and_pop]) returns
    [v]; the queue it leaves reports [empty()] and fails every further
    [try_pop] until something is pushed again. *)
Theorem overwrite_latest_wins q xs v c fuel item :
  ∃ q', OverwriteQueue.pop (S fuel) c (OverwriteQueue.pushes q (xs ++ [v])) item
          = Returns (Some (v, q'))
        ∧ OverwriteQueue.empty q' = true
        ∧ (∀ item', OverwriteQueue.try_pop q' item' = Returns (false, q', item'))
        ∧ OverwriteQueue.try_pop_ptr q' = Returns (None, q').
Proof.
  rewrite overwrite_pushes_last.
  exists (@OverwriteQueue.Build T (Some v) false).
  split; [by destruct c | done].
Qed.
End OverwriteQueueFacts.

(** ** Configuration store: path traversal *)

Section TraverseFacts.
Import Config.

Lemma split_dots_nonempty s : split_dots s ≠ [].
Proof.
  destruct s as [|c s]; simpl; [done|].
  destruct (Ascii.eqb c "."); [done|]. by destruct (split_dots s).
Qed.

Lemma extract_token_split s token rest eof :
  extract_token s = (token, rest, eof) →
  split_dots s = (if eof then [token] else token :: split_dots rest)
  ∧ (eof = true → rest = EmptyString ∧ token = s)
  ∧ (s ≠ EmptyString → (String.length rest < String.length s)%nat).
Proof.
  revert token rest eof. induction s as [|c s IH]; intros token rest eof; simpl.
  - intros [= <- <- <-]. done.
  - destruct (Ascii.eqb c ".") eqn:Hc.
    + intros [= <- <- <-]. split_and!; [done | done | intros _; lia].
    + destruct (extract_token s) as [[tok r] e] eqn:He.
      intros [= <- <- <-].
      destruct (IH tok r e eq_refl) as (Hs & Heof & Hlen).
      rewrite Hs. split_and!.
      * by destruct e.
      * intros ->. destruct (Heof eq_refl) as [-> ->]. done.
      * intros _. destruct s as [|c' s'].
        -- simpl in He. injection He as <- <- <-. simpl. lia.
        -- assert (String.length r < String.length (String c' s'))%nat
             by (by apply Hlen). simpl in *. lia.
Qed.

Lemma traverse_loop_tokens fuel s curr :
  (String.length s < fuel)%nat →
  traverse_loop fuel (istringstream_of s) curr
  = Returns (resolve curr (strip_trailing_empty (split_dots s))).
Proof.
  revert s curr. induction fuel as [|fuel IH]; intros s curr Hlen; [lia|].
  destruct s as [|c s]; [done|].
  cbn [traverse_loop]. unfold getline, istringstream_of. cbn [eofbit failbit rdbuf orb].
  destruct (extract_token (String c s)) as [[token rest] eof] eqn:He.
  destruct (extract_token_split _ _ _ _ He) as (Hs & Heof & Hrest).
  rewrite Hs. destruct eof.
  - destruct (Heof eq_refl) as [-> ->]. cbn [strip_trailing_empty resolve].
    destruct (traverse_step curr (String c s)) as [next|]; [|done].
    destruct fuel as [|fuel]; [simpl in Hlen; lia|]. done.
  - assert (strip_trailing_empty (token :: split_dots rest)
            = token :: strip_trailing_empty (split_dots rest)) as ->.
    { pose proof (split_dots_nonempty rest). by destruct (split_dots rest). }
    cbn [resolve]. destruct (traverse_step curr token) as [next|]; [|done].
    apply IH. specialize (Hrest ltac:(done)). lia.
Qed.

(** The loop of [traverse] always comes to an end, and what it resolves
    is the tokens of the path without a trailing empty one. *)
Lemma traverse_tokens root path :
  traverse root path
  = Returns (resolve root (strip_trailing_empty (split_dots path))).
Proof. apply traverse_loop_tokens. lia. Qed.

Lemma ParseSizeT_loop_spec chars value :
  forallb isdigit chars = true →
  0 ≤ value ≤ size_t_max →
  let total := fold_left (λ v ch, v * 10 + (Z.of_N (N_of_ascii ch) - 48)) chars value in
  ParseSizeT_loop chars value
  = (if total <=? size_t_max then Some total else None)
  ∧ value ≤ total.
Proof.
  revert value. induction chars as [|ch chars IH]; intros value Hd Hv; simpl in *.
  - split; [|lia]. destruct (Z.leb_spec value size_t_max); [done | lia].
  - apply andb_prop in Hd as [Hch Hd]. unfold isdigit in Hch.
    apply andb_prop in Hch as [H0 H9]. apply Z.leb_le in H0, H9.
    set (d := Z.of_N (N_of_ascii ch) - 48) in *.
    assert (0 ≤ d ≤ 9) as Hdr by (unfold d; lia).
    unfold size_t_max in *.
    rewrite (Z.mod_small d) by lia.
    rewrite (Z.mod_small (2 ^ 64 - 1 - d)) by lia.
    assert (value ≤ (2 ^ 64 - 1 - d) / 10 ↔ value * 10 + d ≤ 2 ^ 64 - 1) as Hiff.
    { split; intros H.
      - pose proof (Z.mul_div_le (2 ^ 64 - 1 - d) 10 ltac:(lia)). nia.
      - apply Z.div_le_lower_bound; lia. }
    destruct (Z.gtb_spec value ((2 ^ 64 - 1 - d) / 10)) as [Hgt|Hle].
    + assert (2 ^ 64 - 1 < value * 10 + d) as Hov by lia.
      assert (∀ cs v, forallb isdigit cs = true → 0 ≤ v →
                v ≤ fold_left (λ v ch, v * 10 + (Z.of_N (N_of_ascii ch) - 48)) cs v)
        as Hmono.
      { clear. induction cs as [|c cs IHc]; intros v Hc Hv; simpl; [lia|].
        simpl in Hc. apply andb_prop in Hc as [Hc1 Hc2]. unfold isdigit in Hc1.
        apply andb_prop in Hc1 as [? ?].
        etrans; [|apply IHc; [done|lia]]. lia. }
      specialize (Hmono chars (value * 10 + d) Hd ltac:(lia)).
      split; [|lia].
      destruct (Z.leb_spec
        (fold_left (λ v ch, v * 10 + (Z.of_N (N_of_ascii ch) - 48)) chars (value * 10 + d))
        (2 ^ 64 - 1)); [lia | done].
    + apply Hiff in Hle. rewrite (Z.mod_small (value * 10 + d)) by lia.
      destruct (IH (value * 10 + d) Hd ltac:(lia)) as [-> Hle'].
      split; [done | lia].
Qed.

(** [ParseSizeTNoExcept] accepts exactly the non-empty strings of
    decimal digits whose value fits [std::size_t], and returns that
    value. *)
Lemma ParseSizeTNoExcept_spec s :
  ParseSizeTNoExcept s
  = if IsUnsignedIntegerToken s && (decimal_value s <=? size_t_max)
    then Some (decimal_value s) else None.
Proof.
  unfold ParseSizeTNoExcept. destruct (IsUnsignedIntegerToken s) eqn:Hs; [|done].
  simpl. assert (forallb isdigit (list_ascii_of_string s) = true) as Hd.
  { by destruct s. }
  apply (ParseSizeT_loop_spec _ 0 Hd). unfold size_t_max. lia.
Qed.

(** What one token does at one node: it fails when it is empty, when
    the node is an object without that key, when the node is an array
    and the token is not a string of decimal digits, or its value
    overflows [std::size_t], or is not below the array's size, and at every other node; otherwise it
    moves to the member, or to the element. *)
Lemma traverse_step_spec curr token :
  traverse_step curr token
  = match token with
    | EmptyString => None
    | _ =>
        match curr with
        | Jobject members => members !! token
        | Jarray elems =>
            if IsUnsignedIntegerToken token
               && (decimal_value token <=? size_t_max)
               && (decimal_value token <? Z.of_nat (length elems))
            then elems !! Z.to_nat (decimal_value token)
            else None
        | _ => None
        end
    end.
Proof.
  destruct token as [|c token]; [done|].
  destruct curr; try done.
  - cbn [traverse_step]. rewrite ParseSizeTNoExcept_spec.
    destruct (IsUnsignedIntegerToken (String c token)) eqn:Hs; [|done]. simpl.
    destruct (Z.leb_spec (decimal_value (String c token)) size_t_max) as [Hle|Hgt].
    + destruct (Z.geb_spec (decimal_value (String c token)) (Z.of_nat (length elems)));
        destruct (Z.ltb_spec (decimal_value (String c token)) (Z.of_nat (length elems)));
        try lia; done.
    + done.
  - cbn [traverse_step]. by destruct (members !! String c token).
Qed.

(** C3 (evaluation). The path ["port."] is cut by its dot into the
    tokens ["port"] and [""], yet [traverse] resolves it to the node of
    ["port"], and [get<int>] returns that node's value and not the
    default; the empty path resolves to the root. *)
Theorem traverse_trailing_dot_resolves :
  let doc := Jobject {[ "port"%string := Jnumber_unsigned 5555 ]} in
  let st := {| root := doc; config_path := "cfg.json"; listeners := [] |} in
  split_dots "port." = ["port"%string; ""%string]
  ∧ traverse doc "port." = Returns (Some (Jnumber_unsigned 5555))
  ∧ get Tint st "port." 0 = Returns 5555
  ∧ split_dots "" = [""%string]
  ∧ traverse doc "" = Returns (Some doc).
Proof. vm_compute. done. Qed.
End TraverseFacts.

(** ** Configuration store: typed reads *)

Section GetFacts.
Import Config.

(** [get] always returns: the default when the path does not resolve,
    when the node is [null] and when the conversion fails, the
    converted node otherwise. *)
Lemma get_cases T st key_path default_val :
  get T st key_path default_val
  = Returns
      match resolve (root st) (strip_trailing_empty (split_dots key_path)) with
      | None => default_val
      | Some node =>
          if is_null node then default_val
          else default default_val (JsonToValueNoExcept T node)
      end.
Proof.
  unfold get. rewrite traverse_tokens.
  destruct (resolve _ _) as [node|]; [|done].
  destruct (is_null node); [done|]. by destruct (JsonToValueNoExcept T node).
Qed.

(** A signed integer leaf converts to [int] exactly when it lies in the
    range of [int]. *)
Lemma JsonToInt_signed v :
  JsonToIntNoExcept (Jnumber_integer v)
  = if (int_min <=? v) && (v <=? int_max) then Some v else None.
Proof.
  unfold JsonToIntNoExcept. simpl.
  destruct (Z.ltb_spec v int_min), (Z.leb_spec int_min v); try lia; [done|].
  destruct (Z.gtb_spec v int_max), (Z.leb_spec v int_max); try lia; done.
Qed.

(** An unsigned leaf is first cast to [int64_t]: up to [int_max] it
    converts to itself, above it is refused as long as the cast stays
    below [int_min], and the top [2^31] values of [uint64_t] come out
    as the negative [int] they wrap to. *)
Lemma JsonToInt_unsigned u :
  0 ≤ u < 2 ^ 64 →
  JsonToIntNoExcept (Jnumber_unsigned u)
  = if u <=? int_max then Some u
    else if u <? 2 ^ 64 - 2 ^ 31 then None
    else Some (u - 2 ^ 64).
Proof.
  intros Hu. unfold JsonToIntNoExcept. cbn [is_number_integer is_number_unsigned
    orb negb get_number_integer]. unfold int64_of_uint64, int_min, int_max.
  destruct (Z.ltb_spec u (2 ^ 63));
  repeat match goal with
         | |- context [?a <? ?b] => destruct (Z.ltb_spec a b)
         | |- context [?a >? ?b] => destruct (Z.gtb_spec a b)
         | |- context [?a <=? ?b] => destruct (Z.leb_spec a b)
         end; try lia; done.
Qed.

Lemma vector_loop_mapM {E} (conv : json → option E) elems v :
  vector_loop conv elems v = (v ++.) <$> mapM conv elems.
Proof.
  revert v. induction elems as [|el elems IH]; intros v; simpl.
  - by rewrite app_nil_r.
  - destruct (conv el) as [item|]; [|done]. rewrite IH. simpl.
    destruct (mapM conv elems) as [items|]; [|done]. simpl.
    by rewrite <- app_assoc.
Qed.

(** An array leaf converts to a vector exactly when every element
    converts; one element that does not makes the whole conversion
    fail. *)
Lemma JsonArrayToVector_all {E} (conv : json → option E) elems :
  JsonArrayToVectorNoExcept conv (Jarray elems) = mapM conv elems.
Proof.
  unfold JsonArrayToVectorNoExcept. rewrite vector_loop_mapM.
  by destruct (mapM conv elems).
Qed.

Lemma JsonArrayToVector_poisoned {E} (conv : json → option E) elems el :
  el ∈ elems → conv el = None →
  JsonArrayToVectorNoExcept conv (Jarray elems) = None.
Proof.
  intros Hin Hel. rewrite JsonArrayToVector_all.
  destruct (mapM conv elems) as [items|] eqn:Hm; [|done].
  apply mapM_Some_1 in Hm.
  apply list_elem_of_lookup in Hin as [i Hi].
  destruct (Forall2_lookup_l _ _ _ _ _ Hm Hi) as (y & _ & Hy). congruence.
Qed.

(** The dotted-path scenario of the specification: values, a camera by
    index, a missing path and a type mismatch. *)
Example scenario_config_paths :
  get Tint scenario_store "port" 0 = Returns 5555
  ∧ get Tdouble scenario_store "ai.yolo.threshold" (S754_zero false)
    = Returns (S754_finite false 6305039478318694 (-53))
  ∧ get Tbool scenario_store "ai.yolo.enabled" false = Returns true
  ∧ get Tstring scenario_store "cameras.1.ip" ""%string = Returns "10.0.0.2"%string
  ∧ get Tvector_int scenario_store "numbers" [] = Returns [1; 2; 3]
  ∧ get Tint scenario_store "no.such.key" 123 = Returns 123
  ∧ get Tint scenario_store "ai.yolo.name" 456 = Returns 456
  ∧ get Tint scenario_store "cameras.2.ip" 7 = Returns 7
  ∧ get Tint scenario_store "port.x" 7 = Returns 7.
Proof. vm_compute. done. Qed.

(** C4 (evaluation). The leaf [18446744073709551615] of the document
    [{"big":18446744073709551615}] is an integer above the range of
    [int], yet [get<int>("big", 0)] returns [-1] and not the default
    [0]. *)
Theorem get_int_unsigned_leaf_wraps :
  let doc := Jobject {[ "big"%string := Jnumber_unsigned 18446744073709551615 ]} in
  let st := {| root := doc; config_path := "cfg.json"; listeners := [] |} in
  traverse doc "big" = Returns (Some (Jnumber_unsigned 18446744073709551615))
  ∧ int_max < 18446744073709551615
  ∧ get Tint st "big" 0 = Returns (-1).
Proof. vm_compute. done. Qed.
End GetFacts.

(** ** Configuration store: load, reload and listeners *)

Section ReloadFacts.
Import Config.
Variable parse : string → option json.

Lemma invoke_all_app l1 l2 :
  invoke_all (l1 ++ l2) = invoke_all l1 ++ invoke_all l2.
Proof.
  induction l1 as [|[|id] l1 IH]; simpl; [done | done | by rewrite IH].
Qed.

Lemma invoke_map_push_back key_path id m :
  invoke_all (snapshot (map_push_back key_path (Fn id) m))
  ≡ₚ id :: invoke_all (snapshot m).
Proof.
  unfold snapshot. induction m as [|[k cbs] m IH]; simpl; [done|].
  destruct (String.compare key_path k); simpl.
  - rewrite !invoke_all_app. simpl. rewrite <- app_assoc. simpl.
    symmetry. apply Permutation_middle.
  - done.
  - rewrite !invoke_all_app, IH. symmetry. apply Permutation_middle.
Qed.

Lemma listeners_load fs st path : listeners (load parse fs st path).2 = listeners st.
Proof.
  unfold load. destruct (ReadFileToString fs path) as [text|]; [|done].
  by destruct (ParseJsonNoExcept parse text).
Qed.

Lemma listeners_reload fs st : listeners (reload parse fs st).1.2 = listeners st.
Proof.
  unfold reload. destruct (config_path st); [done|].
  destruct (ReadFileToString fs _) as [text|]; [|done].
  by destruct (ParseJsonNoExcept parse text).
Qed.

(** Loads and reloads leave the listeners alone, and every registration
    of a non-empty callback adds exactly that callback: what a reload
    would call is, up to order, what was there plus what was
    registered. *)
Lemma invoke_exec_all cs st :
  invoke_all (snapshot (listeners (exec_all parse st cs)))
  ≡ₚ invoke_all (snapshot (listeners st)) ++ registered cs.
Proof.
  revert st. induction cs as [|c cs IH]; intros st; simpl.
  - by rewrite app_nil_r.
  - unfold exec_all in *. simpl. rewrite IH. destruct c as [fs path|fs|key_path [|id]]; simpl.
    + by rewrite listeners_load.
    + by rewrite listeners_reload.
    + done.
    + rewrite invoke_map_push_back. simpl. by rewrite <- Permutation_middle.
Qed.

Lemma config_path_unloaded cs st :
  config_path st = EmptyString →
  no_successful_load parse st cs = true →
  config_path (exec_all parse st cs) = EmptyString.
Proof.
  revert st. induction cs as [|c cs IH]; intros st Hp Hno; simpl in *; [done|].
  apply andb_prop in Hno as [Hc Hno]. apply IH; [|done].
  destruct c as [fs path|fs|key_path cb]; simpl in *.
  - unfold load in *. destruct (ReadFileToString fs path) as [text|]; [|done].
    by destruct (ParseJsonNoExcept parse text).
  - unfold reload. by rewrite Hp.
  - by destruct cb.
Qed.

Lemma config_path_last_loaded cs st :
  config_path (exec_all parse st cs) = last_loaded parse st cs (config_path st).
Proof.
  revert st. induction cs as [|c cs IH]; intros st; [done|].
  unfold exec_all in *. cbn [fold_left last_loaded]. rewrite IH. f_equal.
  destruct c as [fs path|fs|key_path cb]; cbn [exec is_successful_load].
  - unfold load. destruct (ReadFileToString fs path) as [text|]; [|done].
    by destruct (ParseJsonNoExcept parse text).
  - unfold reload. destruct (config_path st) eqn:Hp; [exact Hp|].
    destruct (ReadFileToString fs _) as [text|]; [|exact Hp].
    destruct (ParseJsonNoExcept parse text); [done | exact Hp].
  - by destruct cb.
Qed.

(** C5. Take any history of loads, reloads and listener registrations
    on a new store.  The path the store has recorded is the path given
    to the last load that succeeded.  If no load succeeded, [reload]
    returns [invalid_argument], calls nothing and leaves the store as it
    is.  If that recorded path is not empty and the file there can be
    read and parsed at the time of the reload, [reload] returns success:
    the tree is the one parsed from that file, path and listeners are
    unchanged, and the callbacks called, each with no argument, are, up
    to order, exactly the callbacks registered, under whatever key path:
    each registration is called once.  And [reload] returns success in
    no other case: whenever it does, some load succeeded before and the
    file at the recorded path was read and parsed. *)
Theorem reload_contract (cs : list call) (fs : filesystem) :
  let st := exec_all parse create cs in
  let path := last_loaded parse create cs EmptyString in
  config_path st = path
  ∧ (no_successful_load parse create cs = true →
     reload parse fs st = (invalid_argument, st, []))
  ∧ (∀ text new_root,
       path ≠ EmptyString → fs path = Some text → parse text = Some new_root →
       ∃ called,
         reload parse fs st
         = (ok, {| root := new_root; config_path := path; listeners := listeners st |},
            called)
         ∧ called ≡ₚ registered cs)
  ∧ (∀ st' called, reload parse fs st = (ok, st', called) →
     no_successful_load parse create cs = false
     ∧ ∃ text new_root,
         ReadFileToString fs (config_path st) = Some text
         ∧ parse text = Some new_root
         ∧ st' = {| root := new_root; config_path := config_path st;
                    listeners := listeners st |}
         ∧ called ≡ₚ registered cs).
Proof.
  cbv zeta. pose proof (config_path_unloaded cs create eq_refl) as Hunloaded.
  pose proof (config_path_last_loaded cs create) as Hpath.
  cbn [config_path create] in Hpath.
  pose proof (invoke_exec_all cs create) as Hcalled. cbn in Hcalled.
  remember (exec_all parse create cs) as st eqn:Hst.
  remember (last_loaded parse create cs EmptyString) as path eqn:Hlast.
  split_and!.
  - done.
  - intros Hno. unfold reload. by rewrite (Hunloaded Hno).
  - intros text new_root Hne Hread Hparse. eexists. unfold reload.
    rewrite Hpath. destruct path as [|a path']; [done|].
    unfold ReadFileToString, ParseJsonNoExcept. rewrite Hread, Hparse.
    split; [done|]. done.
  - intros st' called Hr. split.
    + destruct (no_successful_load parse create cs) eqn:Hno; [|done].
      unfold reload in Hr. rewrite (Hunloaded eq_refl) in Hr. done.
    + unfold reload in Hr.
      destruct (config_path st) eqn:Hp; [done|].
      destruct (ReadFileToString fs _) as [text|] eqn:Hread; [|done].
      unfold ParseJsonNoExcept in Hr.
      destruct (parse text) as [new_root|] eqn:Hparse; [|done].
      exists text, new_root. injection Hr as <- <-.
      split_and!; [done | done | done |]. done.
Qed.
End ReloadFacts.

Lemma reload_contract_witness :
  Config.reload toy_parse toy_fs
    (Config.exec_all toy_parse Config.create
       [Config.RegisterListener "x" (Config.Fn 7)])
  = (Config.invalid_argument,
     Config.exec_all toy_parse Config.create
       [Config.RegisterListener "x" (Config.Fn 7)], [])
  ∧ ∃ new_root called,
      Config.reload toy_parse toy_fs
        (Config.exec_all toy_parse Config.create
           [Config.Load toy_fs "a.json";
            Config.RegisterListener "x" (Config.Fn 7);
            Config.RegisterListener "a" (Config.Fn 3)])
      = (Config.ok,
         {| Config.root := new_root; Config.config_path := "a.json";
            Config.listeners :=
              [("a"%string, [Config.Fn 3]); ("x"%string, [Config.Fn 7])] |},
         called)
      ∧ called ≡ₚ [7%nat; 3%nat].
Proof.
  split.
  - apply (proj1 (proj2 (reload_contract toy_parse
                           [Config.RegisterListener "x" (Config.Fn 7)] toy_fs))).
    reflexivity.
  - pose (text := match toy_fs "a.json" with Some t => t | None => EmptyString end).
    pose (new_root := match toy_parse text with Some r => r | None => Config.Jnull end).
    destruct (proj1 (proj2 (proj2 (reload_contract toy_parse
                       [Config.Load toy_fs "a.json";
                        Config.RegisterListener "x" (Config.Fn 7);
                        Config.RegisterListener "a" (Config.Fn 3)] toy_fs)))
                text new_root) as (called & Hr & Hc).
    + discriminate.
    + reflexivity.
    + reflexivity.
    + exists new_root, called. split; [exact Hr | exact Hc].
Defined.

(** ** Unified bus: data plane *)

Section StreamFacts.
Import Bus.

Lemma fan_out_length qs data objs : length (fan_out qs data objs) = length objs.
Proof.
  revert objs. induction qs as [|h qs IH]; intros objs; simpl; [done|].
  by rewrite IH, length_alter.
Qed.

Lemma fan_out_notin qs data objs h :
  h ∉ qs → fan_out qs data objs !! h = objs !! h.
Proof.
  revert objs. induction qs as [|h' qs IH]; intros objs Hh; simpl; [done|].
  apply not_elem_of_cons in Hh as [Hne Hh].
  rewrite IH by done. by apply list_lookup_alter_ne.
Qed.

Lemma fan_out_in qs data objs h :
  NoDup qs → h ∈ qs →
  fan_out qs data objs !! h = (λ q, IQueue_push q data) <$> objs !! h.
Proof.
  revert objs. induction qs as [|h' qs IH]; intros objs Hnd Hh; simpl.
  - by apply elem_of_nil in Hh.
  - apply NoDup_cons in Hnd as [Hnotin Hnd].
    apply elem_of_cons in Hh as [->|Hh].
    + rewrite fan_out_notin by done. apply list_lookup_alter_eq.
    + rewrite IH by done. rewrite list_lookup_alter_ne; [done|].
      intros ->. done.
Qed.

(** The control plane leaves the data plane alone. *)
Lemma publish_control_stream a st endpoint message :
  stream_topics_ (publish_control a st endpoint message).2 = stream_topics_ st
  ∧ queue_objects (publish_control a st endpoint message).2 = queue_objects st.
Proof.
  unfold publish_control, ensure_zmq_context_locked.
  destruct (zmq_context_ st), (ctx_new_ok a); simpl;
    repeat match goal with
           | |- context [match ?x with _ => _ end] => destruct x; simpl
           end; done.
Qed.

Lemma subscribe_control_stream a st endpoint callback :
  stream_topics_ (subscribe_control a st endpoint callback).2 = stream_topics_ st
  ∧ queue_objects (subscribe_control a st endpoint callback).2 = queue_objects st.
Proof.
  unfold subscribe_control, ensure_zmq_context_locked.
  destruct (zmq_context_ st), (ctx_new_ok a); simpl;
    repeat match goal with
           | |- context [match ?x with _ => _ end] => destruct x; simpl
           end; done.
Qed.

Lemma subscribe_stream_cases st topic mode :
  let tp := default {| queues := [] |} (stream_topics_ st !! topic) in
  let handle := length (queue_objects st) in
  (∃ new_queue,
      (mode = kReliableFifo ∧ new_queue = Reliable MPMCQueue.create
       ∨ mode = kRealTimeLatest ∧ new_queue = Latest (OverwriteQueue.create 1))
      ∧ subscribe_stream st topic mode
        = (set_stream st (<[topic := {| queues := queues tp ++ [handle] |}]>
                            (stream_topics_ st))
             (queue_objects st ++ [new_queue]), Some handle))
  ∨ (mode ≠ kReliableFifo ∧ mode ≠ kRealTimeLatest
     ∧ subscribe_stream st topic mode
       = (set_stream st (<[topic := tp]> (stream_topics_ st)) (queue_objects st), None)).
Proof.
  intros tp handle. unfold subscribe_stream.
  assert (match stream_topics_ st !! topic with
          | Some _ => stream_topics_ st
          | None => <[topic := {| queues := [] |}]> (stream_topics_ st)
          end = <[topic := tp]> (stream_topics_ st)) as ->.
  { unfold tp. destruct (stream_topics_ st !! topic) eqn:Hl; simpl; [|done].
    by rewrite insert_id. }
  rewrite lookup_insert_eq. simpl. rewrite insert_insert_eq.
  destruct (N.eqb_spec mode kReliableFifo) as [->|Hne1].
  { left. eexists. split; [by left | done]. }
  destruct (N.eqb_spec mode kRealTimeLatest) as [->|Hne2].
  { left. eexists. split; [by right | done]. }
  right. done.
Qed.

Lemma exec_stream_wf st c : stream_wf st → stream_wf (exec st c).
Proof.
  intros Hwf. destruct c as [a endpoint message|a endpoint callback|topic data|topic mode];
    simpl.
  - destruct (publish_control_stream a st endpoint message) as [Ht Hq].
    unfold stream_wf. by rewrite Ht, Hq.
  - destruct (subscribe_control_stream a st endpoint callback) as [Ht Hq].
    unfold stream_wf. by rewrite Ht, Hq.
  - unfold publish_stream. destruct (stream_topics_ st !! topic); [|done].
    unfold stream_wf. simpl. rewrite fan_out_length. done.
  - destruct (subscribe_stream_cases st topic mode)
      as [(new_queue & _ & ->)|(_ & _ & ->)]; simpl.
    + intros topic' tp'. simpl. rewrite length_app. simpl.
      destruct (decide (topic = topic')) as [<-|Hne].
      * rewrite lookup_insert_eq. intros [= <-]. simpl.
        assert (NoDup (queues (default {| queues := [] |} (stream_topics_ st !! topic)))
                ∧ ∀ h, h ∈ queues (default {| queues := [] |} (stream_topics_ st !! topic))
                       → (h < length (queue_objects st))%nat) as [Hnd Hlt].
        { destruct (stream_topics_ st !! topic) as [tp|] eqn:Hl; simpl.
          - by apply (Hwf topic).
          - split; [constructor | intros h Hh; by apply elem_of_nil in Hh]. }
        split.
        -- apply NoDup_app. split_and!; [done | | apply NoDup_singleton].
           intros h Hh Hin. apply list_elem_of_singleton in Hin. subst h.
           apply Hlt in Hh. lia.
        -- intros h Hh. apply elem_of_app in Hh as [Hh|Hh].
           ++ apply Hlt in Hh. lia.
           ++ apply list_elem_of_singleton in Hh. lia.
      * rewrite lookup_insert_ne by done. intros Hl.
        destruct (Hwf _ _ Hl) as [Hnd Hlt]. split; [done|].
        intros h Hh. apply Hlt in Hh. lia.
    + intros topic' tp'. simpl.
      destruct (decide (topic = topic')) as [<-|Hne].
      * rewrite lookup_insert_eq. intros [= <-].
        destruct (stream_topics_ st !! topic) as [tp|] eqn:Hl; simpl.
        -- by apply (Hwf topic).
        -- split; [constructor | intros h Hh; by apply elem_of_nil in Hh].
      * rewrite lookup_insert_ne by done. apply Hwf.
Qed.

Lemma exec_all_stream_wf cs st : stream_wf st → stream_wf (exec_all st cs).
Proof.
  revert st. induction cs as [|c cs IH]; intros st Hwf; [done|].
  apply IH. by apply exec_stream_wf.
Qed.

Lemma create_stream_wf : stream_wf create.
Proof. intros topic tp. simpl. by rewrite lookup_empty. Qed.

Lemma push_contents_last q data :
  last (IQueue_contents (IQueue_push q data)) = Some data.
Proof. destruct q as [q|q]; simpl; [apply last_snoc | done]. Qed.

Lemma try_pop_after_push q data item :
  IQueue_empty q = true →
  IQueue_try_pop (IQueue_push q data) item
  = Returns (true,
             match q with
             | Reliable _ => Reliable MPMCQueue.create
             | Latest _ => Latest (OverwriteQueue.Build (Some data) false)
             end, data).
Proof.
  destruct q as [[l]|q]; simpl; [|done].
  unfold MPMCQueue.empty. simpl. by destruct l.
Qed.

(** The broadcast scenario of the specification: one topic, a Reliable
    and a Latest-overwrite subscriber, two publishes. *)
Example scenario_broadcast :
  let st := exec_all create
              [SubscribeStream "T" kReliableFifo; SubscribeStream "T" kRealTimeLatest;
               PublishStream "T" 101%N; PublishStream "T" 102%N] in
  ∃ st1 st2 st3,
    adapter_try_pop st (Some 0%nat) 0%N = Returns (true, st1, 101%N)
    ∧ adapter_try_pop st1 (Some 0%nat) 0%N = Returns (true, st2, 102%N)
    ∧ adapter_try_pop st2 (Some 1%nat) 0%N = Returns (true, st3, 102%N)
    ∧ adapter_empty st3 (Some 1%nat) = Returns true
    ∧ adapter_empty st3 (Some 0%nat) = Returns true.
Proof. vm_compute. eexists _, _, _. split_and!; reflexivity. Qed.

(** C6. On a bus reached by any calls from a new one: [publish_stream]
    on a topic without a record returns the bus as it was.  On a topic
    with a record the topic table is unchanged, the queue object behind
    every queue pointer of the topic has had exactly the published
    reference pushed (so that reference is the newest item a consumer
    of that queue will be handed, and the very next [try_pop] through
    the subscriber's handle hands it over when the queue held nothing
    before), and every other queue object is untouched. *)
Theorem publish_stream_fans_out (cs : list call) (topic : string)
    (data : shared_ptr_void) :
  let st := exec_all create cs in
  let st' := publish_stream st topic data in
  (stream_topics_ st !! topic = None → st' = st)
  ∧ (∀ tp, stream_topics_ st !! topic = Some tp →
       stream_topics_ st' = stream_topics_ st
       ∧ (∀ h, h ∈ queues tp →
            ∃ q, queue_objects st !! h = Some q
                 ∧ queue_objects st' !! h = Some (IQueue_push q data)
                 ∧ last (IQueue_contents (IQueue_push q data)) = Some data
                 ∧ (IQueue_empty q = true →
                    ∀ item, ∃ st'',
                      adapter_try_pop st' (Some h) item = Returns (true, st'', data)))
       ∧ (∀ h, h ∉ queues tp → queue_objects st' !! h = queue_objects st !! h)).
Proof.
  cbv zeta. pose proof (exec_all_stream_wf cs create create_stream_wf) as Hwf.
  remember (exec_all create cs) as st eqn:Hst. clear Hst. split.
  - intros Hl. unfold publish_stream. by rewrite Hl.
  - intros tp Hl. unfold publish_stream. rewrite Hl. simpl.
    destruct (Hwf _ _ Hl) as [Hnd Hlt]. split_and!; [done | |].
    + intros h Hh. destruct (lookup_lt_is_Some_2 _ _ (Hlt h Hh)) as [q Hq].
      exists q. rewrite fan_out_in, Hq by done. simpl.
      split_and!; [done | done | apply push_contents_last |].
      intros Hempty item. unfold adapter_try_pop. simpl.
      rewrite try_pop_after_push by done. eauto.
    + intros h Hh. by apply fan_out_notin.
Qed.
End StreamFacts.

Lemma publish_stream_fans_out_witness :
  Bus.publish_stream (Bus.exec_all Bus.create []) "t" 42%N = Bus.exec_all Bus.create []
  ∧ ∃ q, Bus.queue_objects
           (Bus.exec_all Bus.create
              [Bus.SubscribeStream "t" Bus.kReliableFifo;
               Bus.SubscribeStream "t" Bus.kRealTimeLatest]) !! 1%nat = Some q
         ∧ Bus.queue_objects
             (Bus.publish_stream
                (Bus.exec_all Bus.create
                   [Bus.SubscribeStream "t" Bus.kReliableFifo;
                    Bus.SubscribeStream "t" Bus.kRealTimeLatest]) "t" 42%N) !! 1%nat
           = Some (Bus.IQueue_push q 42%N).
Proof.
  split.
  - apply (proj1 (publish_stream_fans_out [] "t" 42%N)). reflexivity.
  - destruct (proj2 (publish_stream_fans_out
                       [Bus.SubscribeStream "t" Bus.kReliableFifo;
                        Bus.SubscribeStream "t" Bus.kRealTimeLatest] "t" 42%N)
                {| Bus.queues := [0%nat; 1%nat] |} eq_refl) as (_ & Hin & _).
    destruct (Hin 1%nat) as (q & Hq & Hq' & _).
    + apply elem_of_cons. right. apply elem_of_cons. by left.
    + exists q. split; [exact Hq | exact Hq'].
Defined.

Section StreamModeFacts.
Import Bus.

Lemma exec_topic_persists st c topic :
  is_Some (stream_topics_ st !! topic) →
  is_Some (stream_topics_ (exec st c) !! topic).
Proof.
  intros Hs. destruct c as [a endpoint message|a endpoint callback|topic' data|topic' mode];
    simpl.
  - by rewrite (proj1 (publish_control_stream a st endpoint message)).
  - by rewrite (proj1 (subscribe_control_stream a st endpoint callback)).
  - unfold publish_stream. by destruct (stream_topics_ st !! topic').
  - destruct (subscribe_stream_cases st topic' mode)
      as [(new_queue & _ & ->)|(_ & _ & ->)]; simpl;
      (destruct (decide (topic' = topic)) as [->|Hne];
       [rewrite lookup_insert_eq; eauto | by rewrite lookup_insert_ne]).
Qed.

Lemma exec_all_topic_persists cs st topic :
  is_Some (stream_topics_ st !! topic) →
  is_Some (stream_topics_ (exec_all st cs) !! topic).
Proof.
  revert st. induction cs as [|c cs IH]; intros st Hs; [done|].
  apply IH. by apply exec_topic_persists.
Qed.

(** C10. With a mode byte that is neither [kReliableFifo] nor
    [kRealTimeLatest], [subscribe_stream] returns the null pointer and
    changes nothing but the topic table, where the topic now has a
    record (its old one, or a new one without queues); no queue object
    is made and no queue is appended.  The record stays through every
    later call.  A later [publish_stream] on the topic finds the record
    and fans out over its queue list, which is empty when the topic had
    no record before, whereas before the call the publish took the
    unknown-topic return. *)
Theorem subscribe_stream_unknown_mode st topic mode :
  mode ≠ kReliableFifo → mode ≠ kRealTimeLatest →
  let tp := default {| queues := [] |} (stream_topics_ st !! topic) in
  let st' := set_stream st (<[topic := tp]> (stream_topics_ st)) (queue_objects st) in
  subscribe_stream st topic mode = (st', None)
  ∧ stream_topics_ st' !! topic = Some tp
  ∧ queue_objects st' = queue_objects st
  ∧ (∀ cs, is_Some (stream_topics_ (exec_all st' cs) !! topic))
  ∧ (∀ data, publish_stream st' topic data
             = set_stream st' (stream_topics_ st')
                 (fan_out (queues tp) data (queue_objects st')))
  ∧ (stream_topics_ st !! topic = None →
     queues tp = []
     ∧ ∀ data, publish_stream st topic data = st
               ∧ publish_stream st' topic data = st').
Proof.
  intros Hne1 Hne2 tp st'.
  destruct (subscribe_stream_cases st topic mode)
    as [(new_queue & [[-> _]|[-> _]] & _)|(_ & _ & Heq)]; [done | done |].
  assert (stream_topics_ st' !! topic = Some tp) as Hl.
  { unfold st'. simpl. apply lookup_insert_eq. }
  split_and!; [done | done | done | | |].
  - intros cs. apply exec_all_topic_persists. by rewrite Hl.
  - intros data. unfold publish_stream. by rewrite Hl.
  - intros Hnone. assert (queues tp = []) as Hq by (unfold tp; by rewrite Hnone).
    split; [done|]. intros data. unfold publish_stream. rewrite Hnone, Hl, Hq.
    split; [done|]. by destruct st.
Qed.
End StreamModeFacts.

Lemma subscribe_stream_unknown_mode_witness :
  Bus.subscribe_stream Bus.create "t" 7%N
  = (Bus.set_stream Bus.create {[ "t"%string := {| Bus.queues := [] |} ]} [], None)
  ∧ Bus.publish_stream
      (Bus.set_stream Bus.create {[ "t"%string := {| Bus.queues := [] |} ]} []) "t" 42%N
    = Bus.set_stream Bus.create {[ "t"%string := {| Bus.queues := [] |} ]} [].
Proof.
  destruct (subscribe_stream_unknown_mode Bus.create "t" 7%N)
    as (H1 & _ & _ & _ & _ & H6).
  - discriminate.
  - discriminate.
  - split; [exact H1|]. destruct (H6 eq_refl) as [_ H7].
    exact (proj2 (H7 42%N)).
Defined.

(** ** Unified bus: control plane *)

Section ControlFacts.
Import Bus.

(** The invariant reads the tables only, and of [pub_sockets_] only the
    entries that hold a socket: it carries over to a bus that agrees on
    those and whose handle counter is no smaller. *)
Lemma control_inv_same_tables st st' :
  (∀ e h, pub_sockets_ st' !! e = Some (Some h) ↔ pub_sockets_ st !! e = Some (Some h)) →
  sub_workers_ st' = sub_workers_ st →
  zmq_sockets st' = zmq_sockets st →
  threads st' = threads st →
  (zmq_next st ≤ zmq_next st')%nat →
  control_inv st → control_inv st'.
Proof.
  intros Hp Hw Hs Ht Hn [I1 I2 I3 I4 I5 I6].
  split; rewrite ?Hw, ?Hs, ?Ht; try done.
  - intros h s Hh. specialize (I1 h s Hh). lia.
  - intros h s Hh Hty. destruct (I2 h s Hh Hty) as (e & He & Hl).
    exists e. by rewrite Hp.
  - intros e h Hl. apply Hp in Hl. by apply I5.
Qed.

Lemma ensure_zmq_context_cases a st :
  ensure_zmq_context_locked a st = (zmq_error (errno a), st)
  ∨ ∃ st1, ensure_zmq_context_locked a st = (ok, st1)
           ∧ pub_sockets_ st1 = pub_sockets_ st
           ∧ sub_workers_ st1 = sub_workers_ st
           ∧ zmq_sockets st1 = zmq_sockets st
           ∧ threads st1 = threads st
           ∧ zmq_sent st1 = zmq_sent st
           ∧ control_topics_ st1 = control_topics_ st
           ∧ (zmq_next st ≤ zmq_next st1)%nat.
Proof.
  unfold ensure_zmq_context_locked.
  destruct (zmq_context_ st); [right; eauto 10|].
  destruct (ctx_new_ok a); [right | by left].
  eexists. split; [done|]. simpl. split_and!; try done. lia.
Qed.

(** Indexing [pub_sockets_] with an endpoint adds at most a null entry. *)
Lemma pub_index_lookup (pubs : gmap string (option nat)) endpoint e h :
  match pubs !! endpoint with
  | None => <[endpoint := None]> pubs
  | Some _ => pubs
  end !! e = Some (Some h) ↔ pubs !! e = Some (Some h).
Proof.
  destruct (pubs !! endpoint) eqn:Hl; [done|].
  destruct (decide (endpoint = e)) as [<-|Hne].
  - rewrite lookup_insert_eq, Hl. split; intros; discriminate.
  - by rewrite lookup_insert_ne.
Qed.

Lemma pub_index_default (pubs : gmap string (option nat)) endpoint :
  default None (match pubs !! endpoint with
                | None => <[endpoint := None]> pubs
                | Some _ => pubs
                end !! endpoint)
  = default None (pubs !! endpoint).
Proof.
  destruct (pubs !! endpoint) eqn:Hl; [by rewrite Hl|].
  by rewrite lookup_insert_eq.
Qed.

(** What [publish_control] does to the tables, case by case. *)
Lemma publish_control_cases a st endpoint message :
  let r := publish_control a st endpoint message in
  (* no context could be made *)
  (zmq_context_ st = None ∧ r = (zmq_error (errno a), st))
  (* the endpoint has its socket: it is used as it is *)
  ∨ (∃ pub, pub_sockets_ st !! endpoint = Some (Some pub)
            ∧ r.1 = (if send_ok a then ok else zmq_error (errno a))
            ∧ pub_sockets_ r.2 = pub_sockets_ st
            ∧ sub_workers_ r.2 = sub_workers_ st
            ∧ zmq_sockets r.2 = zmq_sockets st
            ∧ threads r.2 = threads st
            ∧ (zmq_next st ≤ zmq_next r.2)%nat
            ∧ zmq_sent r.2 = zmq_sent st ++ (if send_ok a then [(pub, message)] else []))
  (* the endpoint has no socket and none could be made or bound *)
  ∨ (default None (pub_sockets_ st !! endpoint) = None
     ∧ (socket_ok a && bind_ok a = false)
     ∧ r.1 = zmq_error (errno a)
     ∧ (∀ e h, pub_sockets_ r.2 !! e = Some (Some h)
               ↔ pub_sockets_ st !! e = Some (Some h))
     ∧ sub_workers_ r.2 = sub_workers_ st
     ∧ zmq_sockets r.2 = zmq_sockets st
     ∧ threads r.2 = threads st
     ∧ (zmq_next st ≤ zmq_next r.2)%nat)
  (* the endpoint has no socket: one is made, bound and recorded *)
  ∨ (∃ pub, default None (pub_sockets_ st !! endpoint) = None
            ∧ socket_ok a = true ∧ bind_ok a = true
            ∧ (zmq_next st ≤ pub < zmq_next r.2)%nat
            ∧ r.1 = (if send_ok a then ok else zmq_error (errno a))
            ∧ pub_sockets_ r.2 !! endpoint = Some (Some pub)
            ∧ (∀ e, e ≠ endpoint → ∀ h, pub_sockets_ r.2 !! e = Some (Some h)
                                       ↔ pub_sockets_ st !! e = Some (Some h))
            ∧ sub_workers_ r.2 = sub_workers_ st
            ∧ zmq_sockets r.2
              = <[pub := {| sock_type := ZMQ_PUB; sock_endpoint := Some endpoint;
                            sock_linger := Some 0; sock_rcvtimeo := None;
                            sock_subscribed := false |}]> (zmq_sockets st)
            ∧ threads r.2 = threads st).
Proof.
  intros r. subst r. unfold publish_control.
  destruct (ensure_zmq_context_cases a st)
    as [Hf|(st1 & Hok & Hp & Hw & Hs & Ht & Hsent & Hc & Hn)].
  { rewrite Hf. left. split; [|done].
    unfold ensure_zmq_context_locked in Hf.
    destruct (zmq_context_ st); [discriminate | done]. }
  rewrite Hok. right. rewrite pub_index_default, Hp.
  destruct (pub_sockets_ st !! endpoint) as [[pub|]|] eqn:Hl; simpl.
  - left. exists pub. split; [done|].
    destruct (send_ok a); simpl; rewrite ?Hw, ?Hs, ?Ht, ?Hsent, ?app_nil_r;
      split_and!; done.
  - right. destruct (socket_ok a); simpl; [destruct (bind_ok a); simpl|].
    + right. exists (zmq_next st1).
      destruct (send_ok a); simpl; rewrite ?Hw, ?Hs, ?Ht, ?Hsent;
        split_and!; try done; try lia; try apply lookup_insert_eq;
        intros e He h; rewrite !lookup_insert_ne by congruence; done.
    + left. simpl. rewrite ?Hw, ?Hs, ?Ht. split_and!; try done. lia.
    + left. simpl. rewrite ?Hw, ?Hs, ?Ht. split_and!; try done.
  - right. destruct (socket_ok a); simpl; [destruct (bind_ok a); simpl|].
    + right. exists (zmq_next st1).
      destruct (send_ok a); simpl; rewrite ?Hw, ?Hs, ?Ht, ?Hsent;
        split_and!; try done; try lia; try apply lookup_insert_eq;
        intros e He h; rewrite !lookup_insert_ne by congruence; done.
    + left. simpl. rewrite ?Hw, ?Hs, ?Ht.
      split_and!; try done; [|lia].
      intros e h. destruct (decide (endpoint = e)) as [<-|Hne].
      * rewrite lookup_insert_eq, Hl. split; intros; discriminate.
      * by rewrite lookup_insert_ne.
    + left. simpl. rewrite ?Hw, ?Hs, ?Ht.
      split_and!; try done.
      intros e h. destruct (decide (endpoint = e)) as [<-|Hne].
      * rewrite lookup_insert_eq, Hl. split; intros; discriminate.
      * by rewrite lookup_insert_ne.
Qed.

(** What [subscribe_control] does to the tables, case by case. *)
Lemma subscribe_control_cases a st endpoint callback :
  let r := subscribe_control a st endpoint callback in
  (* no context could be made *)
  (zmq_context_ st = None ∧ r = (zmq_error (errno a), st))
  (* the endpoint has its worker: only the callback is added *)
  ∨ (∃ w, sub_workers_ st !! endpoint = Some w
          ∧ r.1 = ok
          ∧ pub_sockets_ r.2 = pub_sockets_ st
          ∧ sub_workers_ r.2 = sub_workers_ st
          ∧ zmq_sockets r.2 = zmq_sockets st
          ∧ threads r.2 = threads st
          ∧ (zmq_next st ≤ zmq_next r.2)%nat
          ∧ control_topics_ r.2
            = <[endpoint := default [] (control_topics_ st !! endpoint) ++ [callback]]>
                (control_topics_ st))
  (* the endpoint has no worker and no socket could be made or connected *)
  ∨ (sub_workers_ st !! endpoint = None
     ∧ (socket_ok a && connect_ok a = false)
     ∧ r.1 = zmq_error (errno a)
     ∧ pub_sockets_ r.2 = pub_sockets_ st
     ∧ sub_workers_ r.2 = sub_workers_ st
     ∧ zmq_sockets r.2 = zmq_sockets st
     ∧ threads r.2 = threads st
     ∧ (zmq_next st ≤ zmq_next r.2)%nat
     ∧ control_topics_ r.2 = control_topics_ st)
  (* the endpoint has no worker: socket, thread and worker are made *)
  ∨ (∃ sock, sub_workers_ st !! endpoint = None
             ∧ socket_ok a = true ∧ connect_ok a = true
             ∧ (zmq_next st ≤ sock < zmq_next r.2)%nat
             ∧ r.1 = ok
             ∧ pub_sockets_ r.2 = pub_sockets_ st
             ∧ sub_workers_ r.2
               = <[endpoint := {| socket := Some sock; thread := length (threads st);
                                  stop := false; endpoint := endpoint |}]>
                   (sub_workers_ st)
             ∧ zmq_sockets r.2
               = <[sock := {| sock_type := ZMQ_SUB; sock_endpoint := Some endpoint;
                              sock_linger := Some 0; sock_rcvtimeo := Some 100;
                              sock_subscribed := true |}]> (zmq_sockets st)
             ∧ threads r.2
               = threads st ++ [{| thr_endpoint := endpoint; thr_joined := false |}]
             ∧ control_topics_ r.2
               = <[endpoint := default [] (control_topics_ st !! endpoint) ++ [callback]]>
                   (control_topics_ st)).
Proof.
  intros r. subst r. unfold subscribe_control.
  destruct (ensure_zmq_context_cases a st)
    as [Hf|(st1 & Hok & Hp & Hw & Hs & Ht & Hsent & Hc & Hn)].
  { rewrite Hf. left. split; [|done].
    unfold ensure_zmq_context_locked in Hf.
    destruct (zmq_context_ st); [discriminate | done]. }
  rewrite Hok. right. rewrite Hw.
  destruct (sub_workers_ st !! endpoint) as [w|] eqn:Hl; simpl.
  - left. exists w. rewrite ?Hc. split_and!; done.
  - right. destruct (socket_ok a); simpl; [destruct (connect_ok a); simpl|].
    + right. exists (zmq_next st1). rewrite ?Hp, ?Hw, ?Hs, ?Ht, ?Hc.
      split_and!; try done; lia.
    + left. rewrite ?Hp, ?Hw, ?Hs, ?Ht, ?Hc. split_and!; try done. lia.
    + left. split_and!; done.
Qed.

Lemma create_control_inv : control_inv create.
Proof. split; simpl; intros *; by rewrite ?lookup_empty. Qed.

Lemma publish_control_inv a st endpoint message :
  control_inv st → control_inv (publish_control a st endpoint message).2.
Proof.
  intros Hinv.
  destruct (publish_control_cases a st endpoint message)
    as [[_ ->]|[(pub & _ & _ & Hp & Hw & Hs & Ht & Hn & _)
               |[(_ & _ & _ & Hp & Hw & Hs & Ht & Hn)
                |(pub & Hnone & _ & _ & Hpub & _ & Hnew & Hp & Hw & Hs & Ht)]]];
    [done | | by apply (control_inv_same_tables st) |].
  { apply (control_inv_same_tables st); [|done..]. intros e h. by rewrite Hp. }
  destruct Hinv as [I1 I2 I3 I4 I5 I6].
  assert (zmq_sockets st !! pub = None) as Hfresh.
  { destruct (zmq_sockets st !! pub) as [s|] eqn:Hl; [|done].
    specialize (I1 _ _ Hl). lia. }
  split; rewrite ?Hw, ?Hs, ?Ht; try done.
  - intros h s. destruct (decide (pub = h)) as [<-|Hne].
    + intros _. lia.
    + rewrite lookup_insert_ne by done. intros Hl. specialize (I1 _ _ Hl). lia.
  - intros h s. destruct (decide (pub = h)) as [<-|Hne].
    + rewrite lookup_insert_eq. intros [= <-] _. eauto.
    + rewrite lookup_insert_ne by done. intros Hl Hty.
      destruct (I2 _ _ Hl Hty) as (e & He & Hle). exists e. split; [done|].
      apply Hp; [|done]. intros ->. by rewrite Hle in Hnone.
  - intros h s. destruct (decide (pub = h)) as [<-|Hne].
    + rewrite lookup_insert_eq. by intros [= <-].
    + rewrite lookup_insert_ne by done. apply I3.
  - intros e h. destruct (decide (e = endpoint)) as [->|Hne].
    + rewrite Hnew. intros [= <-]. rewrite lookup_insert_eq. eauto.
    + intros Hl. apply Hp in Hl; [|done]. destruct (I5 _ _ Hl) as (s & Hls & Hrest).
      exists s. split; [|done]. rewrite lookup_insert_ne; [done|].
      intros ->. congruence.
  - intros e w Hl. destruct (I6 _ _ Hl) as (He & Hstop & Hthr & h & s & Hsock & Hls & Hrest).
    split_and!; [done..|]. exists h, s. split; [done|]. split; [|done].
    rewrite lookup_insert_ne; [done|]. intros ->. congruence.
Qed.

Lemma subscribe_control_inv a st endpoint callback :
  control_inv st → control_inv (subscribe_control a st endpoint callback).2.
Proof.
  intros Hinv.
  destruct (subscribe_control_cases a st endpoint callback)
    as [[_ ->]|[(w & _ & _ & Hp & Hw & Hs & Ht & Hn & _)
               |[(_ & _ & _ & Hp & Hw & Hs & Ht & Hn & _)
                |(sock & Hnone & _ & _ & Hsock & _ & Hp & Hw & Hs & Ht & _)]]];
    [done | | |].
  { apply (control_inv_same_tables st); [|done..]. intros e h. by rewrite Hp. }
  { apply (control_inv_same_tables st); [|done..]. intros e h. by rewrite Hp. }
  destruct Hinv as [I1 I2 I3 I4 I5 I6].
  assert (zmq_sockets st !! sock = None) as Hfresh.
  { destruct (zmq_sockets st !! sock) as [s|] eqn:Hl; [|done].
    specialize (I1 _ _ Hl). lia. }
  split; rewrite ?Hp, ?Hw, ?Hs, ?Ht.
  - intros h s. destruct (decide (sock = h)) as [<-|Hne].
    + intros _. lia.
    + rewrite lookup_insert_ne by done. intros Hl. specialize (I1 _ _ Hl). lia.
  - intros h s. destruct (decide (sock = h)) as [<-|Hne].
    + rewrite lookup_insert_eq. by intros [= <-].
    + rewrite lookup_insert_ne by done. apply I2.
  - intros h s. destruct (decide (sock = h)) as [<-|Hne].
    + rewrite lookup_insert_eq. intros [= <-] _.
      exists endpoint. eexists. rewrite lookup_insert_eq. done.
    + rewrite lookup_insert_ne by done. intros Hl Hty.
      destruct (I3 _ _ Hl Hty) as (e & w & He & Hle & Hsw). exists e, w.
      split_and!; [done | | done]. rewrite lookup_insert_ne; [done|].
      intros ->. congruence.
  - intros i t Hi. apply lookup_app_Some in Hi as [Hi|[Hlen Hi]].
    + destruct (I4 _ _ Hi) as (Hj & w & Hlw & Hthr). split; [done|].
      exists w. split; [|done]. rewrite lookup_insert_ne; [done|].
      intros Heq. rewrite Heq in Hnone. congruence.
    + destruct (i - length (threads st))%nat as [|k] eqn:Hk; [|done].
      simpl in Hi. injection Hi as <-. simpl. split; [done|].
      eexists. rewrite lookup_insert_eq. split; [done|]. simpl. lia.
  - intros e h Hl. destruct (I5 _ _ Hl) as (s & Hls & Hrest).
    exists s. split; [|done]. rewrite lookup_insert_ne; [done|].
    intros ->. congruence.
  - intros e w. destruct (decide (endpoint = e)) as [<-|Hne].
    + rewrite lookup_insert_eq. intros [= <-]. simpl.
      split_and!; [done | done | |].
      * rewrite lookup_app_r by lia. by rewrite Nat.sub_diag.
      * eexists _, _. rewrite lookup_insert_eq. done.
    + rewrite lookup_insert_ne by done. intros Hl.
      destruct (I6 _ _ Hl) as (He & Hstop & Hthr & h & s & Hsw & Hls & Hrest).
      split_and!; [done | done | by apply lookup_app_l_Some |].
      exists h, s. split; [done|]. split; [|done].
      rewrite lookup_insert_ne; [done|]. intros ->. congruence.
Qed.

Lemma exec_control_inv st c : control_inv st → control_inv (exec st c).
Proof.
  intros Hinv. destruct c as [a endpoint message|a endpoint callback|topic data|topic mode];
    simpl.
  - by apply publish_control_inv.
  - by apply subscribe_control_inv.
  - unfold publish_stream. destruct (stream_topics_ st !! topic); [|done].
    by apply (control_inv_same_tables st).
  - destruct (subscribe_stream_cases st topic mode)
      as [(new_queue & _ & ->)|(_ & _ & ->)];
      by apply (control_inv_same_tables st).
Qed.

Lemma exec_all_control_inv cs st : control_inv st → control_inv (exec_all st cs).
Proof.
  revert st. induction cs as [|c cs IH]; intros st Hinv; [done|].
  apply IH. by apply exec_control_inv.
Qed.
(** C7. On a bus reached by any publish, subscribe and data-plane calls
    from a new one, and for every endpoint: two open sockets of the same
    type bound or connected to the endpoint are one socket, the one the
    endpoint's table entry names, and two worker threads of the
    endpoint are one thread, that of the endpoint's worker.  A publish
    on an endpoint that has its socket leaves the socket table and the
    open sockets as they are; on an endpoint without one, a publish
    that succeeds has opened one new socket bound to the endpoint and
    recorded it.  A subscribe on an endpoint that has its worker leaves
    workers, sockets and threads as they are; on an endpoint without
    one, a subscribe that succeeds has made one new socket, one new
    thread and the worker that holds them, its stop flag clear. *)
Theorem one_socket_one_worker_per_endpoint (cs : list call) (e : string) :
  let st := exec_all create cs in
  control_inv st
  ∧ (∀ h1 h2 s1 s2,
       zmq_sockets st !! h1 = Some s1 → zmq_sockets st !! h2 = Some s2 →
       sock_type s1 = sock_type s2 →
       sock_endpoint s1 = Some e → sock_endpoint s2 = Some e → h1 = h2)
  ∧ (∀ i j t1 t2,
       threads st !! i = Some t1 → threads st !! j = Some t2 →
       thr_endpoint t1 = e → thr_endpoint t2 = e → i = j)
  ∧ (∀ a message,
       let r := publish_control a st e message in
       match pub_sockets_ st !! e with
       | Some (Some pub) =>
           pub_sockets_ r.2 = pub_sockets_ st ∧ zmq_sockets r.2 = zmq_sockets st
       | _ =>
           r.1 = ok →
           ∃ pub, zmq_sockets st !! pub = None
                  ∧ pub_sockets_ r.2 !! e = Some (Some pub)
                  ∧ zmq_sockets r.2
                    = <[pub := {| sock_type := ZMQ_PUB; sock_endpoint := Some e;
                                  sock_linger := Some 0; sock_rcvtimeo := None;
                                  sock_subscribed := false |}]> (zmq_sockets st)
       end)
  ∧ (∀ a callback,
       let r := subscribe_control a st e callback in
       match sub_workers_ st !! e with
       | Some w =>
           sub_workers_ r.2 = sub_workers_ st ∧ zmq_sockets r.2 = zmq_sockets st
           ∧ threads r.2 = threads st
       | None =>
           r.1 = ok →
           ∃ sock, zmq_sockets st !! sock = None
                   ∧ sub_workers_ r.2
                     = <[e := {| socket := Some sock; thread := length (threads st);
                                 stop := false; endpoint := e |}]> (sub_workers_ st)
                   ∧ zmq_sockets r.2
                     = <[sock := {| sock_type := ZMQ_SUB; sock_endpoint := Some e;
                                    sock_linger := Some 0; sock_rcvtimeo := Some 100;
                                    sock_subscribed := true |}]> (zmq_sockets st)
                   ∧ threads r.2
                     = threads st ++ [{| thr_endpoint := e; thr_joined := false |}]
       end).
Proof.
  cbv zeta. pose proof (exec_all_control_inv cs create create_control_inv) as Hinv.
  remember (exec_all create cs) as st eqn:Hst. clear Hst.
  split; [done|]. destruct Hinv as [I1 I2 I3 I4 I5 I6]. split_and!.
  - intros h1 h2 s1 s2 Hl1 Hl2 Hty He1 He2. destruct (sock_type s1) eqn:Hty1.
    + destruct (I2 _ _ Hl1 Hty1) as (e1 & He1' & Hp1).
      destruct (I2 _ _ Hl2 (eq_sym Hty)) as (e2 & He2' & Hp2). congruence.
    + destruct (I3 _ _ Hl1 Hty1) as (e1 & w1 & He1' & Hw1 & Hs1).
      destruct (I3 _ _ Hl2 (eq_sym Hty)) as (e2 & w2 & He2' & Hw2 & Hs2). congruence.
  - intros i j t1 t2 Hi Hj Ht1 Ht2.
    destruct (I4 _ _ Hi) as (_ & w1 & Hw1 & <-).
    destruct (I4 _ _ Hj) as (_ & w2 & Hw2 & <-). congruence.
  - intros a message.
    destruct (publish_control_cases a st e message)
      as [[_ ->]|[(pub & Hl & _ & Hp & _ & Hs & _)
                 |[(Hnone & _ & Herr & _)
                  |(pub & Hnone & _ & _ & Hpub & _ & Hnew & _ & _ & Hs & _)]]].
    + by destruct (pub_sockets_ st !! e) as [[pub|]|].
    + by rewrite Hl.
    + rewrite Herr. by destruct (pub_sockets_ st !! e) as [[pub|]|].
    + assert (zmq_sockets st !! pub = None) as Hfresh.
      { destruct (zmq_sockets st !! pub) as [s|] eqn:Hl; [|done].
        specialize (I1 _ _ Hl). lia. }
      destruct (pub_sockets_ st !! e) as [[pub'|]|]; [done | eauto | eauto].
  - intros a callback.
    destruct (subscribe_control_cases a st e callback)
      as [[_ ->]|[(w & Hl & _ & _ & Hw & Hs & Ht & _)
                 |[(Hnone & _ & Herr & _)
                  |(sock & Hnone & _ & _ & Hsock & _ & _ & Hw & Hs & Ht & _)]]].
    + by destruct (sub_workers_ st !! e).
    + by rewrite Hl.
    + by rewrite Hnone, Herr.
    + assert (zmq_sockets st !! sock = None) as Hfresh.
      { destruct (zmq_sockets st !! sock) as [s|] eqn:Hl; [|done].
        specialize (I1 _ _ Hl). lia. }
      rewrite Hnone. eauto.
Qed.
End ControlFacts.

Lemma one_socket_one_worker_per_endpoint_witness :
  (∃ pub, Bus.pub_sockets_
            (Bus.publish_control zmq_all_ok (Bus.exec_all Bus.create [])
               "inproc://e" "warmup").2 !! "inproc://e"%string = Some (Some pub))
  ∧ Bus.threads
      (Bus.subscribe_control zmq_all_ok
         (Bus.exec_all Bus.create
            [Bus.Publish zmq_all_ok "inproc://e" "warmup";
             Bus.Subscribe zmq_all_ok "inproc://e" 1])
         "inproc://e" 2).2
    = [{| Bus.thr_endpoint := "inproc://e"; Bus.thr_joined := false |}].
Proof.
  split.
  - destruct (proj1 (proj2 (proj2 (proj2
               (one_socket_one_worker_per_endpoint [] "inproc://e"))))
               zmq_all_ok "warmup"%string eq_refl) as (pub & _ & Hpub & _).
    exists pub. exact Hpub.
  - exact (proj2 (proj2 (proj2 (proj2 (proj2 (proj2
             (one_socket_one_worker_per_endpoint
                [Bus.Publish zmq_all_ok "inproc://e" "warmup";
                 Bus.Subscribe zmq_all_ok "inproc://e" 1] "inproc://e")))) zmq_all_ok 2%nat))).
Defined.

(** ** Asynchronous runtime *)

Section RuntimeFacts.
Import Runtime.
Variable hardware_concurrency : nat.

Local Abbreviation init := (init hardware_concurrency).
Local Abbreviation exec_all := (exec_all hardware_concurrency).
Local Abbreviation io_count := Runtime.io_count.
Local Abbreviation cpu_count := (cpu_count hardware_concurrency).

Lemma emplace_workers_app cls n ts :
  emplace_workers cls n ts = ts ++ workers cls n.
Proof.
  unfold emplace_workers, workers. generalize (seq 0 n) as l. intros l.
  revert ts. induction l as [|i l IH]; intros ts; simpl.
  - by rewrite app_nil_r.
  - rewrite IH. by rewrite <- app_assoc.
Qed.

Lemma init_not_started st scheduler io_n cpu_n :
  started_ st = false →
  init st scheduler io_n cpu_n
  = {| started_ := true; io_ctx_ := io_ctx_ st; cpu_ctx_ := cpu_ctx_ st;
       io_work_ := Some tt; cpu_work_ := Some tt;
       io_threads_ := io_threads_ st ++ workers kIo (io_count io_n);
       cpu_threads_ := cpu_threads_ st ++ workers kCpu (cpu_count cpu_n);
       critical_threads_ := critical_threads_ st;
       stop_ := false; scheduler_ := scheduler |}.
Proof.
  intros Hs. unfold Runtime.init. rewrite Hs. simpl.
  by rewrite !emplace_workers_app.
Qed.

Lemma exec_idle_inv st c : idle_inv st → idle_inv (exec hardware_concurrency st c).
Proof.
  unfold idle_inv. intros (Hio & Hcpu & Hidle).
  destruct c as [scheduler io_n cpu_n| |f|f|policy f]; simpl;
    [unfold Runtime.init | unfold stop | unfold post_io_impl
     | unfold post_cpu_impl | unfold spawn_critical_loop_impl];
    destruct (started_ st) eqn:Hs; simpl;
    split_and!; try done; try (intros _; by apply Hidle);
    intros Hf; rewrite Hs in Hf; discriminate.
Qed.

Lemma exec_all_idle_inv cs st : idle_inv st → idle_inv (exec_all st cs).
Proof.
  revert st. induction cs as [|c cs IH]; intros st Hinv; [done|].
  apply IH. by apply exec_idle_inv.
Qed.

Lemma create_idle_inv : idle_inv create.
Proof. done. Qed.

(** C8. On a runtime reached by any calls from a new one: when it is
    not started (never initialised, or stopped), [init] starts it with
    stop flag clear, the scheduler given, both work guards, and exactly
    the worker threads [0 … n-1] of each pool, where the I/O count is
    [io_n], or [1] when [io_n] is [0], and the CPU count is [cpu_n], or
    the hardware concurrency (but at least [1]) when [cpu_n] is [0];
    when it is started, [init] returns it as it is. *)
Theorem init_contract (cs : list call) (scheduler : option nat) (io_n cpu_n : nat) :
  let st := exec_all create cs in
  (started_ st = false →
   init st scheduler io_n cpu_n
   = {| started_ := true; io_ctx_ := io_ctx_ st; cpu_ctx_ := cpu_ctx_ st;
        io_work_ := Some tt; cpu_work_ := Some tt;
        io_threads_ := workers kIo (io_count io_n);
        cpu_threads_ := workers kCpu (cpu_count cpu_n);
        critical_threads_ := [];
        stop_ := false; scheduler_ := scheduler |})
  ∧ (started_ st = true → init st scheduler io_n cpu_n = st)
  ∧ length (workers kIo (io_count io_n)) = (if (io_n =? 0)%nat then 1%nat else io_n)
  ∧ length (workers kCpu (cpu_count cpu_n))
    = (if (cpu_n =? 0)%nat then Nat.max 1 hardware_concurrency else cpu_n)
  ∧ (1 ≤ io_count io_n)%nat ∧ (1 ≤ cpu_count cpu_n)%nat.
Proof.
  cbv zeta. pose proof (exec_all_idle_inv cs create create_idle_inv) as (_ & _ & Hidle).
  remember (exec_all create cs) as st eqn:Hst. clear Hst.
  split_and!.
  - intros Hs. rewrite init_not_started by done.
    destruct (Hidle Hs) as (-> & -> & -> & _). done.
  - intros Hs. unfold Runtime.init. by rewrite Hs.
  - unfold workers. by rewrite length_map, length_seq.
  - unfold workers. by rewrite length_map, length_seq.
  - unfold io_count. destruct (Nat.eqb_spec io_n 0); lia.
  - unfold cpu_count. destruct (Nat.eqb_spec cpu_n 0); lia.
Qed.

(** C9. On a runtime reached by any calls from a new one: [stop] on a
    runtime that is not started returns it as it is and joins nothing.
    [stop] on a started runtime joins every I/O, CPU and critical
    thread, clears the three vectors, drops both work guards, leaves
    both contexts restarted and the started flag clear, and an [init]
    after it starts the runtime again with new workers.  From a runtime
    that is not started, [init], [stop], [init] ends in the very state a
    single [init] with the last arguments ends in. *)
Theorem restartable (cs : list call) (scheduler1 scheduler : option nat)
    (io1 cpu1 io_n cpu_n : nat) :
  let st := exec_all create cs in
  (started_ st = false → stop st = (st, []))
  ∧ (started_ st = true →
     (stop st).2 = io_threads_ st ++ cpu_threads_ st ++ critical_threads_ st
     ∧ (stop st).1
       = {| started_ := false; io_ctx_ := io_ctx_ st; cpu_ctx_ := cpu_ctx_ st;
            io_work_ := None; cpu_work_ := None;
            io_threads_ := []; cpu_threads_ := []; critical_threads_ := [];
            stop_ := true; scheduler_ := scheduler_ st |}
     ∧ init (stop st).1 scheduler io_n cpu_n
       = {| started_ := true; io_ctx_ := io_ctx_ st; cpu_ctx_ := cpu_ctx_ st;
            io_work_ := Some tt; cpu_work_ := Some tt;
            io_threads_ := workers kIo (io_count io_n);
            cpu_threads_ := workers kCpu (cpu_count cpu_n);
            critical_threads_ := [];
            stop_ := false; scheduler_ := scheduler |})
  ∧ (started_ st = false →
     init (stop (init st scheduler1 io1 cpu1)).1 scheduler io_n cpu_n
     = init st scheduler io_n cpu_n).
Proof.
  cbv zeta.
  pose proof (exec_all_idle_inv cs create create_idle_inv) as (Hio & Hcpu & Hidle).
  remember (exec_all create cs) as st eqn:Hst. clear Hst.
  assert (∀ c, stopped c = false → io_context_restart (io_context_stop c) = c) as Hctx.
  { intros [s p] Hc. simpl in Hc. by subst s. }
  split_and!.
  - intros Hs. unfold stop. by rewrite Hs.
  - intros Hs. unfold stop. rewrite Hs. simpl. rewrite !Hctx by done.
    split_and!; [done | done |]. by rewrite init_not_started.
  - intros Hs. rewrite !(init_not_started st) by done.
    destruct (Hidle Hs) as (-> & -> & -> & _). unfold stop. simpl.
    rewrite !Hctx by done. by rewrite init_not_started.
Qed.
End RuntimeFacts.

Lemma init_contract_witness :
  Runtime.init 8 (Runtime.exec_all 8 Runtime.create []) (Some 5%nat) 0 0
  = {| Runtime.started_ := true;
       Runtime.io_ctx_ := {| Runtime.stopped := false; Runtime.posted := [] |};
       Runtime.cpu_ctx_ := {| Runtime.stopped := false; Runtime.posted := [] |};
       Runtime.io_work_ := Some tt; Runtime.cpu_work_ := Some tt;
       Runtime.io_threads_ := Runtime.workers Runtime.kIo 1;
       Runtime.cpu_threads_ := Runtime.workers Runtime.kCpu 8;
       Runtime.critical_threads_ := [];
       Runtime.stop_ := false; Runtime.scheduler_ := Some 5%nat |}
  ∧ Runtime.init 8 (Runtime.exec_all 8 Runtime.create [Runtime.Init None 2 3])
      (Some 5%nat) 0 0
    = Runtime.exec_all 8 Runtime.create [Runtime.Init None 2 3].
Proof.
  split.
  - apply (proj1 (init_contract 8 [] (Some 5%nat) 0 0)). reflexivity.
  - apply (proj1 (proj2 (init_contract 8 [Runtime.Init None 2 3] (Some 5%nat) 0 0))).
    reflexivity.
Defined.

Lemma restartable_witness :
  Runtime.stop (Runtime.exec_all 0 Runtime.create []) = (Runtime.create, [])
  ∧ (Runtime.stop (Runtime.exec_all 0 Runtime.create
                     [Runtime.Init None 1 0; Runtime.SpawnCriticalLoop toy_policy (Some 9%nat)])).2
    = [Runtime.PoolWorker Runtime.kIo 0; Runtime.PoolWorker Runtime.kCpu 0;
       Runtime.CriticalLoop toy_policy (Some 9%nat)]
  ∧ Runtime.init 0 (Runtime.stop (Runtime.init 0 Runtime.create None 4 4)).1 (Some 1%nat) 2 0
    = Runtime.init 0 Runtime.create (Some 1%nat) 2 0.
Proof.
  split_and!.
  - apply (proj1 (restartable 0 [] None None 0 0 0 0)). reflexivity.
  - apply (proj1 (proj2 (restartable 0
             [Runtime.Init None 1 0; Runtime.SpawnCriticalLoop toy_policy (Some 9%nat)]
             None None 0 0 0 0))). reflexivity.
  - apply (proj2 (proj2 (restartable 0 [] None (Some 1%nat) 4 4 2 0))). reflexivity.
Defined.

(** * Further properties *)

(** ** Queue family: runs of calls *)

Section MPMCRunFacts.
Context {T : Type}.
Implicit Types (q : MPMCQueue.t T) (ops : list (queue_op T)).

Lemma mpmc_pop_some c q item v q' :
  MPMCQueue.pop c q item = Some (v, q') →
  MPMCQueue.queue_ q = v :: MPMCQueue.queue_ q'.
Proof.
  destruct q as [[|x l]]; destruct c; simpl; try done; by intros [= <- <-].
Qed.

Lemma mpmc_pop_none c q item :
  MPMCQueue.pop c q item = None → MPMCQueue.queue_ q = [].
Proof. destruct q as [[|x l]]; destruct c; simpl; done. Qed.

(** X1. Whatever pushes and pops one client runs on a Reliable queue,
    in whatever order, nothing is lost, doubled or reordered: the values
    handed back by the pops, followed by what the queue still holds, are
    what the queue held at the start followed by the values pushed. *)
Theorem mpmc_run_conserves ops q item popped q' :
  MPMCRun.run_ops ops q item = Some (popped, q') →
  popped ++ MPMCQueue.queue_ q' = MPMCQueue.queue_ q ++ pushed ops.
Proof.
  revert q item popped q'. induction ops as [|[x|c] ops IH]; intros q item popped q'; simpl.
  - intros [= <- <-]. by rewrite app_nil_r.
  - intros Hr. apply IH in Hr. simpl in Hr. by rewrite <- app_assoc in Hr.
  - destruct (MPMCQueue.pop c q item) as [[v q1]|] eqn:Hp.
    + destruct (MPMCRun.run_ops ops q1 v) as [[vs q2]|] eqn:Hr; [|done].
      intros [= <- <-]. apply IH in Hr. apply mpmc_pop_some in Hp.
      rewrite Hp. simpl. by rewrite Hr.
    + destruct (is_wait c); [done|]. apply IH.
Qed.

End MPMCRunFacts.

Lemma mpmc_run_conserves_witness :
  [1; 2] ++ MPMCQueue.queue_ (@MPMCQueue.Build Z [3])
  = MPMCQueue.queue_ (@MPMCQueue.Build Z []) ++ pushed [Pop TryPopRef; Push 1; Push 2; Pop WaitPopPtr; Push 3; Pop TryPopPtr].
Proof.
  apply (mpmc_run_conserves
           [Pop TryPopRef; Push 1; Push 2; Pop WaitPopPtr; Push 3; Pop TryPopPtr]
           MPMCQueue.create 0 [1; 2] (@MPMCQueue.Build Z [3])).
  reflexivity.
Defined.

Section OverwriteRunFacts.
Context {T : Type}.
Implicit Types (q : OverwriteQueue.t T) (ops : list (queue_op T)).

Lemma overwrite_pop_empty fuel c d item :
  OverwriteQueue.pop fuel c (@OverwriteQueue.Build T d false) item
  = if is_wait c then Pending else Returns None.
Proof.
  destruct c; simpl; try done.
  - induction fuel as [|fuel IH]; [done|]. simpl.
    by destruct (OverwriteQueue.wait_and_pop _ _ _).
  - induction fuel as [|fuel IH]; [done|]. simpl.
    by destruct (OverwriteQueue.wait_and_pop_ptr _ _).
Qed.

Lemma overwrite_pop_full fuel c v item :
  OverwriteQueue.pop fuel c (@OverwriteQueue.Build T (Some v) true) item
  = match fuel, is_wait c with
    | O, true => Pending
    | _, _ => Returns (Some (v, @OverwriteQueue.Build T (Some v) false))
    end.
Proof. by destruct c, fuel. Qed.

Lemma overwrite_run_no_null fuel ops q item :
  OverwriteRun.data_ok q → OverwriteRun.run_ops fuel ops q item ≠ NullDeref.
Proof.
  revert q item. induction ops as [|[x|c] ops IH]; intros q item Hok; simpl; [done|..].
  - apply IH. intros _. simpl. eauto.
  - destruct q as [d [|]].
    + destruct (Hok eq_refl) as [v Hv]. simpl in Hv. subst d.
      rewrite overwrite_pop_full.
      specialize (IH (@OverwriteQueue.Build T (Some v) false) v ltac:(done)).
      destruct fuel, (is_wait c); try done;
        by destruct (OverwriteRun.run_ops _ ops _ _) as [[??]| |].
    + rewrite overwrite_pop_empty. destruct (is_wait c); [done|]. by apply IH.
Qed.

(** X2. On a Latest-overwrite queue as its constructor leaves it, no run
    of pushes and pops, through any entry point and with any number of
    polling rounds, ever reads through the null [data_]. *)
Theorem overwrite_run_never_null (capacity : N) fuel ops item :
  OverwriteRun.run_ops fuel ops (OverwriteQueue.create capacity) item ≠ NullDeref.
Proof. apply overwrite_run_no_null. intros [=]. Qed.

Lemma overwrite_run_sublist fuel ops q item popped q' :
  OverwriteRun.data_ok q →
  OverwriteRun.run_ops fuel ops q item = Returns (popped, q') →
  popped `sublist_of`
    (if OverwriteQueue.has_data_ q then option_list (OverwriteQueue.data_ q) else [])
    ++ pushed ops.
Proof.
  revert q item popped q'.
  induction ops as [|[x|c] ops IH]; intros q item popped q' Hok; simpl.
  - intros [= <- <-]. apply sublist_nil_l.
  - intros Hr. apply IH in Hr; [|by intros _; simpl; eauto]. simpl in Hr.
    by apply sublist_inserts_l.
  - destruct q as [d [|]].
    + destruct (Hok eq_refl) as [v Hv]. simpl in Hv. subst d.
      rewrite overwrite_pop_full. simpl.
      assert (∀ r, match OverwriteRun.run_ops fuel ops
                           (@OverwriteQueue.Build T (Some v) false) v with
                   | Returns (vs, q'') => Returns (v :: vs, q'')
                   | NullDeref => NullDeref
                   | Pending => Pending
                   end = Returns r → r.1 `sublist_of` v :: pushed ops) as Hgo.
      { intros r. destruct (OverwriteRun.run_ops fuel ops _ v) as [[vs q'']| |] eqn:Hr;
          [|done..]. intros [= <-]. simpl. apply sublist_skip.
        apply (IH (@OverwriteQueue.Build T (Some v) false)) in Hr; done. }
      destruct fuel, (is_wait c); try done; intros Hr; by apply Hgo in Hr.
    + rewrite overwrite_pop_empty. destruct (is_wait c); [done|]. simpl. by apply IH.
Qed.

(** X3. On a Latest-overwrite queue as its constructor leaves it, the
    values a run of pushes and pops hands back are a subsequence of the
    values pushed: some pushed values are dropped, but none is handed
    back twice, none is invented and their order is kept. *)
Theorem overwrite_run_pops_sublist (capacity : N) fuel ops item popped q' :
  OverwriteRun.run_ops fuel ops (OverwriteQueue.create capacity) item
  = Returns (popped, q') →
  popped `sublist_of` pushed ops.
Proof.
  intros Hr. apply overwrite_run_sublist in Hr; [done|]. intros [=].
Qed.

(** X4. With no producer, the blocking pop of a Latest-overwrite queue
    that holds nothing has not returned after any number of polling
    rounds, through either entry point. *)
Theorem overwrite_wait_on_empty_spins fuel q item :
  OverwriteQueue.empty q = true →
  OverwriteQueue.wait_and_pop fuel q item = Pending
  ∧ OverwriteQueue.wait_and_pop_ptr fuel q = Pending.
Proof.
  destruct q as [d [|]]; [done|]. intros _.
  pose proof (overwrite_pop_empty fuel WaitPopRef d item) as H1.
  pose proof (overwrite_pop_empty fuel WaitPopPtr d item) as H2.
  simpl in H1, H2. split.
  - by destruct (OverwriteQueue.wait_and_pop fuel _ item) as [[??]| |].
  - by destruct (OverwriteQueue.wait_and_pop_ptr fuel _) as [[[?|] ?]| |].
Qed.
End OverwriteRunFacts.

Lemma overwrite_run_pops_sublist_witness :
  [2; 3] `sublist_of` pushed [Push 1; Push 2; Pop TryPopRef; Pop TryPopPtr; Push 3; Pop WaitPopRef].
Proof.
  apply (overwrite_run_pops_sublist 1 5
           [Push 1; Push 2; Pop TryPopRef; Pop TryPopPtr; Push 3; Pop WaitPopRef]
           0 [2; 3] (@OverwriteQueue.Build Z (Some 3) false)).
  reflexivity.
Defined.

Lemma overwrite_wait_on_empty_spins_witness :
  OverwriteQueue.wait_and_pop 100 (@OverwriteQueue.Build Z (Some 3) false) 0 = Pending
  ∧ OverwriteQueue.wait_and_pop_ptr 100 (@OverwriteQueue.Build Z (Some 3) false) = Pending.
Proof.
  apply (overwrite_wait_on_empty_spins 100 (@OverwriteQueue.Build Z (Some 3) false) 0).
  reflexivity.
Defined.

(** ** Configuration store: index tokens and paths *)

Section PathFacts.
Import Config.

(** X5. [ParseSizeTNoExcept] returns [n] exactly for the non-empty
    strings of decimal digits whose decimal value is [n] and fits
    [std::size_t]; leading zeros are accepted, a sign, a space or a value
    of [2^64] and above is refused, and the arithmetic never wraps. *)
Theorem ParseSizeT_exact (s : string) (n : Z) :
  ParseSizeTNoExcept s = Some n
  ↔ IsUnsignedIntegerToken s = true ∧ decimal_value s = n ∧ 0 ≤ n ≤ size_t_max.
Proof.
  rewrite ParseSizeTNoExcept_spec. split.
  - destruct (IsUnsignedIntegerToken s) eqn:Hs; [|done]. simpl.
    destruct (Z.leb_spec (decimal_value s) size_t_max) as [Hle|]; [|done].
    intros [= <-]. split_and!; [done | done | | done].
    assert (forallb isdigit (list_ascii_of_string s) = true) as Hd by (by destruct s).
    destruct (ParseSizeT_loop_spec _ 0 Hd ltac:(unfold size_t_max; lia)) as [_ H0].
    exact H0.
  - intros (-> & <- & _ & Hle). simpl.
    destruct (Z.leb_spec (decimal_value s) size_t_max); [done | lia].
Qed.

Lemma strip_trailing_empty_inner ts1 ts2 :
  ts2 ≠ [] →
  strip_trailing_empty (ts1 ++ EmptyString :: ts2)
  = ts1 ++ EmptyString :: strip_trailing_empty ts2.
Proof.
  intros Hne. induction ts1 as [|t ts1 IH]; simpl.
  - by destruct ts2.
  - rewrite IH. by destruct ts1.
Qed.

Lemma resolve_through_empty curr ts1 ts2 :
  resolve curr (ts1 ++ EmptyString :: ts2) = None.
Proof.
  revert curr. induction ts1 as [|t ts1 IH]; intros curr; simpl; [done|].
  by destruct (traverse_step curr t).
Qed.

(** X6. A key path with an empty token that is not its last token (a
    leading dot, two dots in a row) resolves to nothing in every
    document, whatever the other tokens are. *)
Theorem traverse_inner_empty_token root path ts1 ts2 :
  split_dots path = ts1 ++ EmptyString :: ts2 → ts2 ≠ [] →
  traverse root path = Returns None.
Proof.
  intros Hs Hne. rewrite traverse_tokens, Hs, strip_trailing_empty_inner by done.
  by rewrite resolve_through_empty.
Qed.
End PathFacts.

Lemma traverse_inner_empty_token_witness :
  Config.traverse scenario_doc "ai..yolo" = Returns None
  ∧ Config.traverse scenario_doc ".port" = Returns None.
Proof.
  split.
  - apply (traverse_inner_empty_token scenario_doc "ai..yolo"
             ["ai"%string] ["yolo"%string]); [reflexivity | discriminate].
  - apply (traverse_inner_empty_token scenario_doc ".port" [] ["port"%string]);
      [reflexivity | discriminate].
Defined.

(** ** Configuration store: typed reads of a resolved leaf *)

Section LeafFacts.
Import Config.

(** X7. When the path resolves to a signed integer leaf, or to an
    unsigned one below [2^63], [get<int>] returns the leaf's value if it
    lies in the range of [int] and the default otherwise. *)
Theorem get_int_in_range st key_path node v default_val :
  traverse (root st) key_path = Returns (Some node) →
  node = Jnumber_integer v ∨ (node = Jnumber_unsigned v ∧ 0 ≤ v < 2 ^ 63) →
  get Tint st key_path default_val
  = Returns (if (int_min <=? v) && (v <=? int_max) then v else default_val).
Proof.
  intros Ht Hnode. unfold get. rewrite Ht.
  destruct Hnode as [->|[-> Hv]]; simpl.
  - rewrite JsonToInt_signed. by destruct (_ && _).
  - rewrite JsonToInt_unsigned by lia. unfold int_min, int_max.
    destruct (Z.leb_spec v (2 ^ 31 - 1)), (Z.leb_spec (- 2 ^ 31) v); try lia; simpl;
      [done|]. destruct (Z.ltb_spec v (2 ^ 64 - 2 ^ 31)); [done | lia].
Qed.

Lemma get_vector_cases {E} (conv : json → option E) elems (default_val : list E) :
  (Forall (λ el, is_Some (conv el)) elems →
   ∃ vs, JsonArrayToVectorNoExcept conv (Jarray elems) = Some vs
         ∧ Forall2 (λ el v, conv el = Some v) elems vs)
  ∧ (Exists (λ el, conv el = None) elems →
     JsonArrayToVectorNoExcept conv (Jarray elems) = None).
Proof.
  rewrite JsonArrayToVector_all. split.
  - intros Hall. destruct (mapM conv elems) as [vs|] eqn:Hm.
    + exists vs. split; [done|]. by apply mapM_Some_1.
    + apply mapM_None_1 in Hm. apply Exists_exists in Hm as (el & Hin & Hel).
      rewrite Forall_forall in Hall. destruct (Hall el Hin) as [v Hv]. congruence.
  - intros Hex. apply mapM_None_2.
    apply Exists_exists in Hex as (el & Hin & Hel). apply Exists_exists. eauto.
Qed.

(** X8. When the path resolves to an array leaf, [get<std::vector<int>>]
    (and likewise the [float] and [std::string] vectors) returns a vector
    with one converted value per element, in order, if every element
    converts, so the empty array gives the empty vector and not the
    default; as soon as one element does not convert it returns the
    default. *)
Theorem get_vector_all_or_default st key_path elems :
  traverse (root st) key_path = Returns (Some (Jarray elems)) →
  (∀ d, (Forall (λ el, is_Some (JsonToIntNoExcept el)) elems →
         ∃ vs, get Tvector_int st key_path d = Returns vs
               ∧ Forall2 (λ el v, JsonToIntNoExcept el = Some v) elems vs)
        ∧ (Exists (λ el, JsonToIntNoExcept el = None) elems →
           get Tvector_int st key_path d = Returns d))
  ∧ (∀ d, (Forall (λ el, is_Some (JsonToFloatNoExcept el)) elems →
           ∃ vs, get Tvector_float st key_path d = Returns vs
                 ∧ Forall2 (λ el v, JsonToFloatNoExcept el = Some v) elems vs)
          ∧ (Exists (λ el, JsonToFloatNoExcept el = None) elems →
             get Tvector_float st key_path d = Returns d))
  ∧ (∀ d, (Forall (λ el, is_Some (JsonToStringNoExcept el)) elems →
           ∃ vs, get Tvector_string st key_path d = Returns vs
                 ∧ Forall2 (λ el v, JsonToStringNoExcept el = Some v) elems vs)
          ∧ (Exists (λ el, JsonToStringNoExcept el = None) elems →
             get Tvector_string st key_path d = Returns d)).
Proof.
  intros Ht. unfold get. rewrite Ht. cbn [is_null JsonToValueNoExcept].
  split_and!; intros d.
  - destruct (get_vector_cases JsonToIntNoExcept elems d) as [H1 H2]. split.
    + intros Hall. destruct (H1 Hall) as (vs & -> & Hvs). eauto.
    + intros Hex. by rewrite (H2 Hex).
  - destruct (get_vector_cases JsonToFloatNoExcept elems d) as [H1 H2]. split.
    + intros Hall. destruct (H1 Hall) as (vs & -> & Hvs). eauto.
    + intros Hex. by rewrite (H2 Hex).
  - destruct (get_vector_cases JsonToStringNoExcept elems d) as [H1 H2]. split.
    + intros Hall. destruct (H1 Hall) as (vs & -> & Hvs). eauto.
    + intros Hex. by rewrite (H2 Hex).
Qed.
End LeafFacts.

Lemma get_int_in_range_witness :
  Config.get Config.Tint scenario_store "port" 0 = Returns 5555
  ∧ Config.get Config.Tint
      {| Config.root := Config.Jobject {[ "t"%string := Config.Jnumber_integer (-3000000000) ]};
         Config.config_path := "c.json"; Config.listeners := [] |} "t" 7
    = Returns 7.
Proof.
  split.
  - apply (get_int_in_range scenario_store "port" (Config.Jnumber_unsigned 5555) 5555 0);
      [reflexivity | right; split; [reflexivity | lia]].
  - apply (get_int_in_range _ "t" (Config.Jnumber_integer (-3000000000)) (-3000000000) 7);
      [reflexivity | left; reflexivity].
Defined.

Lemma get_vector_all_or_default_witness :
  (∃ vs, Config.get Config.Tvector_int scenario_store "numbers" [9] = Returns vs
         ∧ Forall2 (λ el v, Config.JsonToIntNoExcept el = Some v)
             [Config.Jnumber_unsigned 1; Config.Jnumber_unsigned 2;
              Config.Jnumber_unsigned 3] vs)
  ∧ Config.get Config.Tvector_string scenario_store "numbers" ["d"%string]
    = Returns ["d"%string].
Proof.
  pose proof (get_vector_all_or_default scenario_store "numbers"
                [Config.Jnumber_unsigned 1; Config.Jnumber_unsigned 2;
                 Config.Jnumber_unsigned 3] eq_refl) as (Hint & _ & Hstr).
  split.
  - apply (proj1 (Hint [9])). repeat constructor; by eexists.
  - apply (proj2 (Hstr ["d"%string])). by left.
Defined.

(** ** Configuration store: failed and repeated loads *)

Section LoadFacts.
Import Config.
Variable parse : string → option json.

(** X9. A [load] or a [reload] that returns an error, whichever error,
    leaves the tree, the recorded path and the listeners as they were,
    and a failing [reload] calls no listener: every later [get] reads
    what it read before. *)
Theorem failed_load_changes_nothing (fs : filesystem) (st : Impl) (path : string) :
  ((load parse fs st path).1 ≠ ok → (load parse fs st path).2 = st)
  ∧ ((reload parse fs st).1.1 ≠ ok →
     (reload parse fs st).1.2 = st ∧ (reload parse fs st).2 = []).
Proof.
  split.
  - unfold load. destruct (ReadFileToString fs path) as [text|]; [|done].
    by destruct (ParseJsonNoExcept parse text).
  - unfold reload. destruct (config_path st); [done|].
    destruct (ReadFileToString fs _) as [text|]; [|done].
    by destruct (ParseJsonNoExcept parse text).
Qed.

End LoadFacts.

Lemma failed_load_changes_nothing_witness :
  (Config.load toy_parse toy_fs scenario_store "missing.json").2 = scenario_store
  ∧ (Config.reload toy_parse toy_fs scenario_store).1.2 = scenario_store
  ∧ (Config.reload toy_parse toy_fs scenario_store).2 = [].
Proof.
  split.
  - apply (proj1 (failed_load_changes_nothing toy_parse toy_fs scenario_store
                    "missing.json")). discriminate.
  - apply (proj2 (failed_load_changes_nothing toy_parse toy_fs scenario_store
                    "missing.json")). discriminate.
Defined.


(** ** Configuration store: the order listeners are called in *)

Section ListenerOrderFacts.
Import Config.
Variable parse : string → option json.

Local Abbreviation slt := OrderedTypeEx.String_as_OT.lt.

Lemma compare_Lt_slt k1 k2 : String.compare k1 k2 = Lt → slt k1 k2.
Proof. apply OrderedTypeEx.String_as_OT.cmp_lt. Qed.

Lemma compare_Gt_slt k1 k2 : String.compare k1 k2 = Gt → slt k2 k1.
Proof.
  intros H. apply OrderedTypeEx.String_as_OT.cmp_lt.
  rewrite OrderedTypeEx.String_as_OT.cmp_antisym.
  unfold OrderedTypeEx.String_as_OT.cmp. by rewrite H.
Qed.

Lemma slt_neq k1 k2 : slt k1 k2 → String.eqb k1 k2 = false ∧ String.eqb k2 k1 = false.
Proof.
  intros H. apply OrderedTypeEx.String_as_OT.lt_not_eq in H.
  unfold OrderedTypeEx.String_as_OT.eq in H.
  split; apply String.eqb_neq; congruence.
Qed.

Lemma bucket_above k m :
  Forall (slt k) m.*1 → bucket m k = [].
Proof.
  induction m as [|[k1 cbs] m IH]; simpl; [done|].
  intros Hall. apply Forall_cons in Hall as [Hk Hall].
  destruct (slt_neq _ _ Hk) as [_ ->]. by apply IH.
Qed.

Lemma map_push_back_keys k cb m x :
  x ∈ (map_push_back k cb m).*1 → x = k ∨ x ∈ m.*1.
Proof.
  induction m as [|[k1 cbs] m IH]; simpl.
  - intros Hx. apply list_elem_of_singleton in Hx. by left.
  - destruct (String.compare k k1) eqn:Hc; simpl.
    + by right.
    + intros Hx. apply elem_of_cons in Hx as [->|Hx]; [by left | by right].
    + intros Hx. apply elem_of_cons in Hx as [->|Hx]; [right; by left|].
      destruct (IH Hx) as [->|Hin]; [by left | right; by right].
Qed.

Lemma map_push_back_sorted k cb m :
  Sorted.StronglySorted slt m.*1 → Sorted.StronglySorted slt (map_push_back k cb m).*1.
Proof.
  induction m as [|[k1 cbs] m IH]; simpl.
  - intros _. repeat constructor.
  - intros Hs. apply Sorted.StronglySorted_inv in Hs as [Hs Hall].
    destruct (String.compare k k1) eqn:Hc; simpl.
    + by constructor.
    + apply compare_Lt_slt in Hc. constructor; [by constructor|].
      constructor; [done|]. eapply Forall_impl; [exact Hall|].
      intros x Hx. by eapply OrderedTypeEx.String_as_OT.lt_trans.
    + apply compare_Gt_slt in Hc. constructor; [by apply IH|].
      apply Forall_forall. intros x Hx.
      destruct (map_push_back_keys _ _ _ _ Hx) as [->|Hin]; [done|].
      rewrite Forall_forall in Hall. by apply Hall.
Qed.

Lemma map_push_back_bucket k cb m k' :
  Sorted.StronglySorted slt m.*1 →
  bucket (map_push_back k cb m) k'
  = if String.eqb k k' then bucket m k ++ [cb] else bucket m k'.
Proof.
  induction m as [|[k1 cbs] m IH]; simpl.
  - intros _. by destruct (String.eqb k k').
  - intros Hs. apply Sorted.StronglySorted_inv in Hs as [Hs Hall].
    destruct (String.compare k k1) eqn:Hc; simpl.
    + apply String.compare_eq_iff in Hc. subst k1. rewrite String.eqb_refl.
      by destruct (String.eqb k k').
    + apply compare_Lt_slt in Hc. destruct (slt_neq _ _ Hc) as [_ ->].
      rewrite (bucket_above k m).
      2:{ eapply Forall_impl; [exact Hall|]. intros x Hx.
          by eapply OrderedTypeEx.String_as_OT.lt_trans. }
      by destruct (String.eqb k k').
    + apply compare_Gt_slt in Hc. destruct (slt_neq _ _ Hc) as [Hne _].
      rewrite Hne, IH by done.
      destruct (String.eqb k k') eqn:Hkk; [|done].
      apply String.eqb_eq in Hkk. subst k'. by rewrite Hne.
Qed.

Lemma registered_at_app key cs1 cs2 :
  registered_at key (cs1 ++ cs2) = registered_at key cs1 ++ registered_at key cs2.
Proof.
  induction cs1 as [|[fs path|fs|k [|id]] cs1 IH]; simpl; try done.
  destruct (String.eqb k key); simpl; by rewrite IH.
Qed.

Lemma listeners_history cs :
  Sorted.StronglySorted slt (listeners (exec_all parse create cs)).*1
  ∧ ∀ key, invoke_all (bucket (listeners (exec_all parse create cs)) key)
           = registered_at key cs.
Proof.
  induction cs as [|c cs IH] using rev_ind.
  - split; [constructor | done].
  - destruct IH as [Hs Hb]. unfold exec_all in *. rewrite fold_left_app. simpl.
    destruct c as [fs path|fs|k [|id]]; simpl.
    + rewrite listeners_load. split; [done|]. intros key.
      by rewrite registered_at_app, Hb, app_nil_r.
    + rewrite listeners_reload. split; [done|]. intros key.
      by rewrite registered_at_app, Hb, app_nil_r.
    + split; [done|]. intros key. by rewrite registered_at_app, Hb, app_nil_r.
    + split; [by apply map_push_back_sorted|]. intros key.
      rewrite map_push_back_bucket, registered_at_app by done. simpl.
      destruct (String.eqb k key) eqn:Hk.
      * apply String.eqb_eq in Hk. subst key.
        by rewrite invoke_all_app, Hb.
      * by rewrite Hb, app_nil_r.
Qed.

Lemma flat_map_ext_elem {A B} (f g : A → list B) (l : list A) :
  (∀ x, x ∈ l → f x = g x) → flat_map f l = flat_map g l.
Proof.
  induction l as [|x l IH]; intros Hfg; simpl; [done|].
  rewrite Hfg by left. rewrite IH; [done|]. intros y Hy. apply Hfg. by right.
Qed.

Lemma snapshot_by_bucket m :
  Sorted.StronglySorted slt m.*1 →
  invoke_all (snapshot m) = flat_map (λ k, invoke_all (bucket m k)) m.*1.
Proof.
  unfold snapshot. induction m as [|[k1 cbs] m IH]; simpl; [done|].
  intros Hs. apply Sorted.StronglySorted_inv in Hs as [Hs Hall].
  rewrite invoke_all_app, String.eqb_refl, IH by done. f_equal.
  apply flat_map_ext_elem. intros k Hk. rewrite Forall_forall in Hall.
  destruct (slt_neq _ _ (Hall k Hk)) as [-> _]. done.
Qed.

Lemma map_push_back_has_keys k cb m x :
  x = k ∨ x ∈ m.*1 → x ∈ (map_push_back k cb m).*1.
Proof.
  induction m as [|[k1 cbs] m IH]; simpl.
  - intros [->|Hx]; [by left | by apply elem_of_nil in Hx].
  - destruct (String.compare k k1) eqn:Hc; simpl.
    + apply String.compare_eq_iff in Hc. subst k1.
      intros [->|Hx]; [by left | done].
    + intros [->|Hx]; [by left | by right].
    + intros [->|Hx]; [right; apply IH; by left|].
      apply elem_of_cons in Hx as [->|Hx]; [by left|]. right. apply IH. by right.
Qed.

Lemma listener_keys_history cs k :
  k ∈ (listeners (exec_all parse create cs)).*1 ↔ registered_at k cs ≠ [].
Proof.
  induction cs as [|c cs IH] using rev_ind.
  - simpl. split; [by intros ?%elem_of_nil | done].
  - unfold exec_all in *. rewrite fold_left_app, registered_at_app. simpl.
    destruct c as [fs path|fs|k0 [|id]]; simpl.
    + by rewrite listeners_load, app_nil_r.
    + by rewrite listeners_reload, app_nil_r.
    + by rewrite app_nil_r.
    + split.
      * intros Hk. apply map_push_back_keys in Hk as [->|Hk].
        -- rewrite String.eqb_refl. by destruct (registered_at k0 cs).
        -- apply IH in Hk. by destruct (registered_at k cs).
      * intros Hne. apply map_push_back_has_keys.
        destruct (String.eqb k0 k) eqn:Hk.
        -- apply String.eqb_eq in Hk. by left.
        -- right. apply IH. by rewrite app_nil_r in Hne.
Qed.

(** X11. After any history of calls on a new store, [reload] calls the
    listeners bucket by bucket.  The key paths it goes through are
    exactly those under which the history registered a callback, each
    once and in strictly increasing order of their bytes, and under one
    key path the callbacks are called in the order they were registered.
    This is the list called whenever the recorded file can be read and
    parsed, and [reload] returns success with no other list. *)
Theorem reload_call_order (cs : list call) (fs : filesystem) :
  let st := exec_all parse create cs in
  ∃ keys,
    Sorted.StronglySorted slt keys
    ∧ (∀ k, k ∈ keys ↔ registered_at k cs ≠ [])
    ∧ (∀ text new_root,
         config_path st ≠ EmptyString →
         fs (config_path st) = Some text → parse text = Some new_root →
         (reload parse fs st).1.1 = ok
         ∧ (reload parse fs st).2 = flat_map (λ k, registered_at k cs) keys)
    ∧ (∀ st' called,
         reload parse fs st = (ok, st', called) →
         called = flat_map (λ k, registered_at k cs) keys).
Proof.
  cbv zeta. destruct (listeners_history cs) as [Hs Hb].
  exists (listeners (exec_all parse create cs)).*1.
  assert (Hcalled : invoke_all (snapshot (listeners (exec_all parse create cs)))
                    = flat_map (λ k, registered_at k cs)
                        (listeners (exec_all parse create cs)).*1).
  { rewrite snapshot_by_bucket by done. apply flat_map_ext. intros k. apply Hb. }
  split_and!.
  - done.
  - intros k. apply listener_keys_history.
  - intros text new_root Hne Hread Hparse. unfold reload.
    destruct (config_path (exec_all parse create cs)) as [|a p] eqn:Hp; [done|].
    unfold ReadFileToString, ParseJsonNoExcept. rewrite Hread, Hparse.
    split; [done|]. exact Hcalled.
  - intros st' called Hr. unfold reload in Hr. destruct (config_path _); [done|].
    destruct (ReadFileToString fs _) as [text|]; [|done].
    destruct (ParseJsonNoExcept parse text); [|done].
    injection Hr as _ <-. exact Hcalled.
Qed.
End ListenerOrderFacts.

Lemma reload_call_order_witness :
  ∃ keys,
    Sorted.StronglySorted OrderedTypeEx.String_as_OT.lt keys
    ∧ (∀ k, k ∈ keys ↔
            registered_at k
              [Config.Load toy_fs "a.json";
               Config.RegisterListener "x" (Config.Fn 7);
               Config.RegisterListener "a" (Config.Fn 3);
               Config.RegisterListener "x" (Config.Fn 4);
               Config.RegisterListener "a" (Config.Fn 5)] ≠ [])
    ∧ (Config.reload toy_parse toy_fs
         (Config.exec_all toy_parse Config.create
            [Config.Load toy_fs "a.json";
             Config.RegisterListener "x" (Config.Fn 7);
             Config.RegisterListener "a" (Config.Fn 3);
             Config.RegisterListener "x" (Config.Fn 4);
             Config.RegisterListener "a" (Config.Fn 5)])).2
      = flat_map (λ k, registered_at k
                         [Config.Load toy_fs "a.json";
                          Config.RegisterListener "x" (Config.Fn 7);
                          Config.RegisterListener "a" (Config.Fn 3);
                          Config.RegisterListener "x" (Config.Fn 4);
                          Config.RegisterListener "a" (Config.Fn 5)]) keys
    ∧ (Config.reload toy_parse toy_fs
         (Config.exec_all toy_parse Config.create
            [Config.Load toy_fs "a.json";
             Config.RegisterListener "x" (Config.Fn 7);
             Config.RegisterListener "a" (Config.Fn 3);
             Config.RegisterListener "x" (Config.Fn 4);
             Config.RegisterListener "a" (Config.Fn 5)])).2
      = [3%nat; 5%nat; 7%nat; 4%nat].
Proof.
  destruct (reload_call_order toy_parse
              [Config.Load toy_fs "a.json";
               Config.RegisterListener "x" (Config.Fn 7);
               Config.RegisterListener "a" (Config.Fn 3);
               Config.RegisterListener "x" (Config.Fn 4);
               Config.RegisterListener "a" (Config.Fn 5)] toy_fs)
    as (keys & Hs & Hk & Hpos & _).
  exists keys. split; [exact Hs|]. split; [exact Hk|]. split.
  - apply (Hpos "1"%string (Config.Jnumber_unsigned 1)).
    + discriminate.
    + reflexivity.
    + reflexivity.
  - reflexivity.
Defined.

(** ** Unified bus: teardown *)

Section TeardownFacts.
Import Bus BusTeardown.

Lemma close_all_lookup handles (socks : gmap nat zmq_socket_t) h :
  close_all handles socks !! h = if decide (h ∈ handles) then None else socks !! h.
Proof.
  unfold close_all. induction handles as [|h' handles IH]; [done|].
  cbn [foldr]. destruct (decide (h' = h)) as [->|Hne].
  - rewrite lookup_delete_eq.
    destruct (decide (h ∈ h :: handles)) as [|Hn]; [done|]. exfalso. apply Hn. by left.
  - rewrite lookup_delete_ne, IH by done.
    destruct (decide (h ∈ handles)) as [Hin|Hnin],
             (decide (h ∈ h' :: handles)) as [Hin'|Hnin']; try done.
    + exfalso. apply Hnin'. by right.
    + apply elem_of_cons in Hin' as [->|?]; done.
Qed.

Lemma join_all_lookup (workers : list SubWorker) (ths : list worker_thread) i :
  foldr (λ w ths, alter join (thread w) ths) ths workers !! i
  = (if decide (i ∈ thread <$> workers) then join else id) <$> ths !! i.
Proof.
  induction workers as [|w workers IH]; [simpl; by destruct (ths !! i)|].
  cbn [foldr fmap list_fmap]. destruct (decide (thread w = i)) as [<-|Hne].
  - rewrite list_lookup_alter_eq, IH.
    destruct (decide (thread w ∈ thread w :: (thread <$> workers))) as [|Hn];
      [|exfalso; apply Hn; by left].
    destruct (ths !! thread w) as [t|]; simpl; [|done].
    by destruct (decide _).
  - rewrite list_lookup_alter_ne, IH by done.
    destruct (decide (i ∈ thread <$> workers)) as [Hin|Hnin],
             (decide (i ∈ thread w :: (thread <$> workers))) as [Hin'|Hnin']; try done.
    + exfalso. apply Hnin'. by right.
    + apply elem_of_cons in Hin' as [->|?]; done.
Qed.

(** X12. On a bus reached by any publish, subscribe and data-plane calls
    from a new one, [shutdown] leaves no socket open that the bus ever
    opened and no thread unjoined that it ever started; the context is
    gone and all five tables are empty, so a [publish_stream] on any
    topic finds no record, while the queue objects consumers hold are
    left as they are. *)
Theorem shutdown_releases_everything (cs : list call) :
  let st := exec_all create cs in
  let st' := shutdown st in
  zmq_sockets st' = ∅
  ∧ length (threads st') = length (threads st)
  ∧ (∀ i t, threads st' !! i = Some t → thr_joined t = true)
  ∧ zmq_context_ st' = None
  ∧ pub_sockets_ st' = ∅ ∧ sub_workers_ st' = ∅
  ∧ control_topics_ st' = ∅ ∧ stream_topics_ st' = ∅
  ∧ queue_objects st' = queue_objects st
  ∧ ∀ topic data, publish_stream st' topic data = st'.
Proof.
  cbv zeta. pose proof (exec_all_control_inv cs create create_control_inv) as Hinv.
  remember (exec_all create cs) as st eqn:Hst. clear Hst.
  destruct Hinv as [I1 I2 I3 I4 I5 I6]. split_and!; try done.
  - apply map_eq. intros h. rewrite lookup_empty. simpl.
    rewrite !close_all_lookup.
    destruct (decide (h ∈ omap socket _)); [done|].
    destruct (decide (h ∈ omap id _)) as [|Hnpub]; [done|].
    destruct (zmq_sockets st !! h) as [s|] eqn:Hl; [|done]. exfalso.
    destruct (sock_type s) eqn:Hty.
    + destruct (I2 _ _ Hl Hty) as (e & _ & Hp). apply Hnpub.
      apply list_elem_of_omap. exists (Some h). split; [|done].
      apply list_elem_of_fmap. exists (e, Some h). split; [done|].
      by apply elem_of_map_to_list.
    + destruct (I3 _ _ Hl Hty) as (e & w & _ & Hw & Hs). apply n.
      apply list_elem_of_omap. exists (set_stop w). split; [|done].
      apply list_elem_of_fmap. exists w. split; [done|].
      apply list_elem_of_fmap. exists (e, w). split; [done|].
      by apply elem_of_map_to_list.
  - simpl. generalize (set_stop <$> (map_to_list (sub_workers_ st)).*2).
    intros workers. induction workers as [|w workers IH]; simpl; [done|].
    by rewrite length_alter.
  - intros i t. simpl. rewrite join_all_lookup.
    destruct (threads st !! i) as [t0|] eqn:Hi; [|done]. simpl.
    destruct (decide _) as [|Hnin]; [by intros [= <-]|]. exfalso.
    destruct (I4 _ _ Hi) as (_ & w & Hw & Hthr). apply Hnin.
    apply list_elem_of_fmap. exists (set_stop w). split; [done|].
    apply list_elem_of_fmap. exists w. split; [done|].
    apply list_elem_of_fmap. exists (thr_endpoint t0, w). split; [done|].
    by apply elem_of_map_to_list.
Qed.

(** X13. A second [shutdown] changes nothing, on any bus. *)
Theorem shutdown_idempotent (st : Impl) : shutdown (shutdown st) = shutdown st.
Proof.
  unfold shutdown, shutdown_zmq. simpl. rewrite !map_to_list_empty. done.
Qed.
End TeardownFacts.

(** ** Unified bus: the receive loop *)

Section WorkerFacts.
Import Bus BusWorker.

Lemma publish_control_topics a st endpoint message :
  control_topics_ (publish_control a st endpoint message).2 = control_topics_ st.
Proof.
  unfold publish_control, ensure_zmq_context_locked.
  destruct (zmq_context_ st), (ctx_new_ok a); simpl;
    repeat match goal with
           | |- context [match ?x with _ => _ end] => destruct x; simpl
           end; done.
Qed.

Lemma subscribe_control_topics a st e' cb e :
  default [] (control_topics_ (subscribe_control a st e' cb).2 !! e)
  = default [] (control_topics_ st !! e)
    ++ (if decide (e' = e) then
          match (subscribe_control a st e' cb).1 with
          | ok => [cb]
          | zmq_error _ => []
          end
        else []).
Proof.
  destruct (subscribe_control_cases a st e' cb)
    as [[_ ->]|[(w & _ & -> & _ & _ & _ & _ & _ & ->)
               |[(_ & _ & -> & _ & _ & _ & _ & _ & ->)
                |(sock & _ & _ & _ & _ & -> & _ & _ & _ & _ & ->)]]]; simpl.
  - destruct (decide _); by rewrite app_nil_r.
  - destruct (decide (e' = e)) as [->|Hne].
    + by rewrite lookup_insert_eq.
    + by rewrite lookup_insert_ne, app_nil_r.
  - destruct (decide _); by rewrite app_nil_r.
  - destruct (decide (e' = e)) as [->|Hne].
    + by rewrite lookup_insert_eq.
    + by rewrite lookup_insert_ne, app_nil_r.
Qed.

Lemma stream_calls_topics st c :
  match c with PublishStream _ _ | SubscribeStream _ _ => True | _ => False end →
  control_topics_ (exec st c) = control_topics_ st.
Proof.
  destruct c as [| |topic data|topic mode]; simpl; try done; intros _.
  - unfold publish_stream. by destruct (stream_topics_ st !! topic).
  - by destruct (subscribe_stream_cases st topic mode)
      as [(new_queue & _ & ->)|(_ & _ & ->)].
Qed.

Lemma control_topics_history cs st e :
  default [] (control_topics_ (exec_all st cs) !! e)
  = default [] (control_topics_ st !! e) ++ subscribed_ok st cs e.
Proof.
  revert st. induction cs as [|c cs IH]; intros st.
  - simpl. by rewrite app_nil_r.
  - unfold exec_all in *. cbn [fold_left subscribed_ok]. rewrite IH, app_assoc. f_equal.
    destruct c as [a e' message|a e' cb|topic data|topic mode].
    + cbn [exec]. by rewrite publish_control_topics, app_nil_r.
    + cbn [exec]. by rewrite subscribe_control_topics.
    + rewrite stream_calls_topics by done. by rewrite app_nil_r.
    + rewrite stream_calls_topics by done. by rewrite app_nil_r.
Qed.

(** X14. On a bus reached by any calls from a new one, when the worker
    of an endpoint receives a message it calls, each with that message,
    exactly the callbacks of the [subscribe] calls on that endpoint that
    returned success, in the order of those calls; a callback whose
    [subscribe] returned an error, or one of another endpoint, is not
    called, and a failed receive calls nothing. *)
Theorem worker_calls_in_subscription_order (cs : list call) (e : string)
    (w : SubWorker) (recv_msg : string) :
  sub_workers_ (exec_all create cs) !! e = Some w →
  sub_worker_iteration (exec_all create cs) w (recv_message recv_msg)
  = map (λ cb, (cb, recv_msg)) (subscribed_ok create cs e)
  ∧ ∀ errno, sub_worker_iteration (exec_all create cs) w (recv_failed errno) = [].
Proof.
  intros Hw. split; [|done].
  pose proof (exec_all_control_inv cs create create_control_inv) as Hinv.
  destruct (inv_sub_entry _ Hinv _ _ Hw) as (Hend & _).
  unfold sub_worker_iteration. by rewrite Hend, control_topics_history.
Qed.
End WorkerFacts.

Lemma worker_calls_in_subscription_order_witness :
  BusWorker.sub_worker_iteration
    (Bus.exec_all Bus.create
       [Bus.Publish zmq_all_ok "inproc://e" "warmup";
        Bus.Subscribe zmq_no_connect "inproc://e" 9;
        Bus.Subscribe zmq_all_ok "inproc://e" 1;
        Bus.Subscribe zmq_all_ok "inproc://f" 5;
        Bus.Subscribe zmq_all_ok "inproc://e" 2])
    {| Bus.socket := Some 4%nat; Bus.thread := 0; Bus.stop := false;
       Bus.endpoint := "inproc://e" |}
    (BusWorker.recv_message "ping")
  = [(1%nat, "ping"%string); (2%nat, "ping"%string)].
Proof.
  apply (proj1 (worker_calls_in_subscription_order
                  [Bus.Publish zmq_all_ok "inproc://e" "warmup";
                   Bus.Subscribe zmq_no_connect "inproc://e" 9;
                   Bus.Subscribe zmq_all_ok "inproc://e" 1;
                   Bus.Subscribe zmq_all_ok "inproc://f" 5;
                   Bus.Subscribe zmq_all_ok "inproc://e" 2]
                  "inproc://e"
                  {| Bus.socket := Some 4%nat; Bus.thread := 0; Bus.stop := false;
                     Bus.endpoint := "inproc://e" |} "ping" eq_refl)).
Defined.

(** ** Unified bus: the typed handle and publish order *)

Section HandleFacts.
Import Bus.

(** X15. The handle [subscribe_stream<T>] returns for a mode byte that
    is neither [kReliableFifo] nor [kRealTimeLatest] wraps the null
    pointer: on every bus, [push], both [try_pop]s and [empty] through
    it dereference null. *)
Theorem unknown_mode_handle_unusable st topic mode :
  mode ≠ kReliableFifo → mode ≠ kRealTimeLatest →
  let a := (TypedQueueAdapter.subscribe_stream st topic mode).2 in
  TypedQueueAdapter.impl_ a = None
  ∧ ∀ st2 item,
      TypedQueueAdapter.push st2 a item = NullDeref
      ∧ TypedQueueAdapter.try_pop st2 a item = NullDeref
      ∧ TypedQueueAdapter.try_pop_ptr st2 a = NullDeref
      ∧ TypedQueueAdapter.empty st2 a = NullDeref.
Proof.
  intros Hne1 Hne2. unfold TypedQueueAdapter.subscribe_stream.
  destruct (subscribe_stream_cases st topic mode)
    as [(new_queue & [[-> _]|[-> _]] & _)|(_ & _ & ->)]; done.
Qed.

Lemma exec_stream_owned st c :
  stream_wf st → stream_owned st → stream_owned (exec st c).
Proof.
  intros Hwf Hown.
  destruct c as [a endpoint message|a endpoint callback|topic data|topic mode]; simpl.
  - unfold stream_owned. by rewrite (proj1 (publish_control_stream a st endpoint message)).
  - unfold stream_owned.
    by rewrite (proj1 (subscribe_control_stream a st endpoint callback)).
  - unfold publish_stream. by destruct (stream_topics_ st !! topic).
  - destruct (subscribe_stream_cases st topic mode)
      as [(new_queue & _ & ->)|(_ & _ & ->)]; simpl.
    + intros t1 t2 tp1 tp2 h. simpl.
      assert (∀ t tp, t ≠ topic → stream_topics_ st !! t = Some tp →
                h ∈ queues (default {| queues := [] |} (stream_topics_ st !! topic))
                  ++ [length (queue_objects st)] →
                h ∈ queues tp → False) as Hother.
      { intros t tp Hne Hl Hh1 Hh2. apply elem_of_app in Hh1 as [Hh1|Hh1].
        - destruct (stream_topics_ st !! topic) as [tp0|] eqn:Hl0; simpl in Hh1.
          + apply Hne. by apply (Hown t topic tp tp0 h).
          + by apply elem_of_nil in Hh1.
        - apply list_elem_of_singleton in Hh1. subst h.
          destruct (Hwf _ _ Hl) as [_ Hlt]. apply Hlt in Hh2. lia. }
      destruct (decide (topic = t1)) as [<-|Hne1], (decide (topic = t2)) as [<-|Hne2];
        rewrite ?lookup_insert_eq, ?lookup_insert_ne by done.
      * done.
      * intros [= <-] Hl2 Hh1 Hh2. exfalso. by apply (Hother t2 tp2).
      * intros Hl1 [= <-] Hh1 Hh2. exfalso. by apply (Hother t1 tp1).
      * apply Hown.
    + intros t1 t2 tp1 tp2 h. simpl.
      destruct (stream_topics_ st !! topic) as [tp0|] eqn:Hl0; simpl.
      * rewrite insert_id by done. apply Hown.
      * destruct (decide (topic = t1)) as [<-|Hne1], (decide (topic = t2)) as [<-|Hne2];
          rewrite ?lookup_insert_eq, ?lookup_insert_ne by done.
        -- done.
        -- intros [= <-] _ Hh. by apply elem_of_nil in Hh.
        -- intros _ [= <-] _ Hh. by apply elem_of_nil in Hh.
        -- apply Hown.
Qed.

Lemma exec_keeps_queue st c topic h q :
  stream_wf st → stream_owned st →
  (∃ tp, stream_topics_ st !! topic = Some tp ∧ h ∈ queues tp) →
  queue_objects st !! h = Some q →
  (∃ tp, stream_topics_ (exec st c) !! topic = Some tp ∧ h ∈ queues tp)
  ∧ queue_objects (exec st c) !! h
    = Some (fold_left IQueue_push (published_to topic [c]) q).
Proof.
  intros Hwf Hown (tp & Hl & Hh) Hq.
  destruct c as [a endpoint message|a endpoint callback|t data|t mode]; simpl.
  - destruct (publish_control_stream a st endpoint message) as [-> ->]. eauto.
  - destruct (subscribe_control_stream a st endpoint callback) as [-> ->]. eauto.
  - unfold publish_stream. destruct (decide (t = topic)) as [->|Hne].
    + rewrite Hl. simpl. split; [eauto|].
      destruct (Hwf _ _ Hl) as [Hnd _]. by rewrite fan_out_in, Hq.
    + destruct (stream_topics_ st !! t) as [tp'|] eqn:Hl'; simpl; [|eauto].
      split; [eauto|]. rewrite fan_out_notin; [done|].
      intros Hh'. apply Hne. by apply (Hown t topic tp' tp h).
  - destruct (subscribe_stream_cases st t mode)
      as [(new_queue & _ & ->)|(_ & _ & ->)]; simpl.
    + split; [|by apply lookup_app_l_Some].
      destruct (decide (t = topic)) as [->|Hne].
      * rewrite lookup_insert_eq, Hl. simpl. eexists. split; [done|].
        apply elem_of_app. by left.
      * rewrite lookup_insert_ne by done. eauto.
    + split; [|done]. destruct (decide (t = topic)) as [->|Hne].
      * rewrite lookup_insert_eq, Hl. simpl. eauto.
      * rewrite lookup_insert_ne by done. eauto.
Qed.

Lemma published_to_cons topic c cs :
  published_to topic (c :: cs) = published_to topic [c] ++ published_to topic cs.
Proof.
  destruct c as [| |t data|]; simpl; try done. by destruct (decide (t = topic)).
Qed.

Lemma exec_all_keeps_queue cs st topic h q :
  stream_wf st → stream_owned st →
  (∃ tp, stream_topics_ st !! topic = Some tp ∧ h ∈ queues tp) →
  queue_objects st !! h = Some q →
  queue_objects (exec_all st cs) !! h
  = Some (fold_left IQueue_push (published_to topic cs) q).
Proof.
  revert st q. induction cs as [|c cs IH]; intros st q Hwf Hown Hin Hq; [done|].
  destruct (exec_keeps_queue st c topic h q Hwf Hown Hin Hq) as [Hin' Hq'].
  unfold exec_all in *. cbn [fold_left].
  rewrite (IH _ _ (exec_stream_wf st c Hwf) (exec_stream_owned st c Hwf Hown) Hin' Hq').
  by rewrite (published_to_cons topic c cs), fold_left_app.
Qed.

Lemma exec_all_stream_owned cs st :
  stream_wf st → stream_owned st → stream_owned (exec_all st cs).
Proof.
  revert st. induction cs as [|c cs IH]; intros st Hwf Hown; [done|].
  apply IH; [by apply exec_stream_wf | by apply exec_stream_owned].
Qed.

Lemma fold_push_reliable ds l :
  fold_left IQueue_push ds (Reliable (@MPMCQueue.Build shared_ptr_void l))
  = Reliable (@MPMCQueue.Build shared_ptr_void (l ++ ds)).
Proof.
  revert l. induction ds as [|d ds IH]; intros l; simpl.
  - by rewrite app_nil_r.
  - unfold MPMCQueue.push. simpl. rewrite IH. by rewrite <- app_assoc.
Qed.

Lemma fold_push_latest ds (q : OverwriteQueue.t shared_ptr_void) :
  IQueue_contents (fold_left IQueue_push ds (Latest q))
  = match last ds with
    | Some d => [d]
    | None => IQueue_contents (Latest q)
    end.
Proof.
  revert q. induction ds as [|d ds IH]; intros q; [done|].
  cbn [fold_left IQueue_push]. rewrite IH.
  destruct ds as [|d' ds]; simpl; [done|].
  destruct (last (d' :: ds)) eqn:Hl; [done|]. by apply last_None in Hl.
Qed.

(** X16. Take a bus reached by any calls from a new one, subscribe to a
    topic with a valid mode, and let any publish, subscribe and
    data-plane calls follow.  The queue object behind the handle is then
    the new queue with exactly the payloads published on that topic
    since, pushed in publish order: publishes made before the
    subscription and publishes on other topics never reach it.  A
    Reliable subscriber will be handed all of them in publish order, a
    Latest-overwrite subscriber the last one only. *)
Theorem subscriber_sees_publishes_since (cs0 cs : list call) (topic : string)
    (mode : StreamMode) :
  mode = kReliableFifo ∨ mode = kRealTimeLatest →
  let r := subscribe_stream (exec_all create cs0) topic mode in
  let new_queue := if (mode =? kReliableFifo)%N then Reliable MPMCQueue.create
                   else Latest (OverwriteQueue.create 1) in
  ∃ h q, r.2 = Some h
         ∧ queue_objects (exec_all r.1 cs) !! h = Some q
         ∧ q = fold_left IQueue_push (published_to topic cs) new_queue
         ∧ IQueue_contents q
           = (if (mode =? kReliableFifo)%N then published_to topic cs
              else option_list (last (published_to topic cs))).
Proof.
  intros Hmode. cbv zeta.
  pose proof (exec_all_stream_wf cs0 create create_stream_wf) as Hwf.
  assert (stream_owned (exec_all create cs0)) as Hown.
  { apply exec_all_stream_owned; [apply create_stream_wf|].
    intros t1 t2 tp1 tp2 h Hl. simpl in Hl. by rewrite lookup_empty in Hl. }
  pose proof (exec_stream_wf _ (SubscribeStream topic mode) Hwf) as Hwf1.
  pose proof (exec_stream_owned _ (SubscribeStream topic mode) Hwf Hown) as Hown1.
  remember (exec_all create cs0) as st eqn:Hst. clear Hst. simpl in Hwf1, Hown1.
  destruct (subscribe_stream_cases st topic mode)
    as [(new_queue & Hnew & Heq)|(Hne1 & Hne2 & _)]; [|by destruct Hmode].
  rewrite Heq in *. simpl in *. exists (length (queue_objects st)).
  eexists. split; [done|].
  rewrite (exec_all_keeps_queue cs _ topic (length (queue_objects st)) new_queue Hwf1 Hown1).
  - split; [done|].
    destruct Hnew as [[-> ->]|[-> ->]].
    + split; [done|]. unfold MPMCQueue.create. by rewrite fold_push_reliable.
    + split; [done|]. rewrite fold_push_latest. by destruct (last _).
  - simpl. rewrite lookup_insert_eq. eexists. split; [done|].
    apply elem_of_app. right. by apply list_elem_of_singleton.
  - simpl. by apply list_lookup_middle.
Qed.
End HandleFacts.

Lemma unknown_mode_handle_unusable_witness :
  TypedQueueAdapter.impl_ (TypedQueueAdapter.subscribe_stream Bus.create "t" 7%N).2 = None
  ∧ TypedQueueAdapter.empty Bus.create
      (TypedQueueAdapter.subscribe_stream Bus.create "t" 7%N).2 = NullDeref.
Proof.
  destruct (unknown_mode_handle_unusable Bus.create "t" 7%N) as [H1 H2];
    [discriminate | discriminate |].
  split; [exact H1 | exact (proj2 (proj2 (proj2 (H2 Bus.create 0%N))))].
Defined.

Lemma subscriber_sees_publishes_since_witness :
  ∃ h q,
    (Bus.subscribe_stream
       (Bus.exec_all Bus.create [Bus.SubscribeStream "T" 0%N; Bus.PublishStream "T" 100%N])
       "T" Bus.kRealTimeLatest).2 = Some h
    ∧ Bus.queue_objects
        (Bus.exec_all
           (Bus.subscribe_stream
              (Bus.exec_all Bus.create
                 [Bus.SubscribeStream "T" 0%N; Bus.PublishStream "T" 100%N])
              "T" Bus.kRealTimeLatest).1
           [Bus.PublishStream "T" 101%N; Bus.PublishStream "U" 7%N; Bus.PublishStream "T" 102%N])
        !! h = Some q
    ∧ Bus.IQueue_contents q = [102%N].
Proof.
  destruct (subscriber_sees_publishes_since
              [Bus.SubscribeStream "T" 0%N; Bus.PublishStream "T" 100%N]
              [Bus.PublishStream "T" 101%N; Bus.PublishStream "U" 7%N; Bus.PublishStream "T" 102%N]
              "T" Bus.kRealTimeLatest) as (h & q & H1 & H2 & _ & H4).
  - right. reflexivity.
  - exists h, q. split_and!; [exact H1 | exact H2 | exact H4].
Defined.

(** ** Unified bus: control-plane calls that fail *)

Section ControlFailureFacts.
Import Bus.

Lemma publish_error_not_sent a st e message :
  (publish_control a st e message).1 ≠ ok →
  zmq_sent (publish_control a st e message).2 = zmq_sent st.
Proof.
  unfold publish_control, ensure_zmq_context_locked.
  destruct (zmq_context_ st), (ctx_new_ok a); simpl;
    repeat match goal with
           | |- context [match ?x with _ => _ end] => destruct x; simpl
           end; intros; congruence.
Qed.

(** X17. On any bus, a [subscribe] that returns an error has registered
    no callback, made no worker, started no thread and left no socket
    open that was not open before; a [publish] that returns an error
    though the send itself would have worked has sent nothing and left
    no socket open that was not open before. *)
Theorem failed_control_call_leaves_nothing (a : zmq_answers) (st : Impl)
    (e message : string) (callback : nat) :
  ((subscribe_control a st e callback).1 ≠ ok →
   let st' := (subscribe_control a st e callback).2 in
   control_topics_ st' = control_topics_ st ∧ sub_workers_ st' = sub_workers_ st
   ∧ threads st' = threads st ∧ zmq_sockets st' = zmq_sockets st
   ∧ pub_sockets_ st' = pub_sockets_ st)
  ∧ ((publish_control a st e message).1 ≠ ok → send_ok a = true →
     let st' := (publish_control a st e message).2 in
     zmq_sent st' = zmq_sent st ∧ zmq_sockets st' = zmq_sockets st
     ∧ sub_workers_ st' = sub_workers_ st ∧ threads st' = threads st
     ∧ ∀ e' h, pub_sockets_ st' !! e' = Some (Some h)
               ↔ pub_sockets_ st !! e' = Some (Some h)).
Proof.
  split.
  - intros Herr. cbv zeta.
    destruct (subscribe_control_cases a st e callback)
      as [[_ Heq]|[(w & _ & Hok & _)
                 |[(_ & _ & _ & Hp & Hw & Hs & Ht & _ & Hc)
                  |(sock & _ & _ & _ & _ & Hok & _)]]].
    + by rewrite Heq.
    + congruence.
    + by rewrite Hp, Hw, Hs, Ht, Hc.
    + congruence.
  - intros Herr Hsend. cbv zeta.
    destruct (publish_control_cases a st e message)
      as [[_ Heq]|[(pub & _ & Hr & Hp & Hw & Hs & Ht & _ & Hsent)
                 |[(_ & _ & _ & Hp & Hw & Hs & Ht & _)
                  |(pub & _ & _ & _ & _ & Hr & _)]]].
    + by rewrite Heq.
    + rewrite Hsend in Hr. congruence.
    + split_and!; try done. by apply publish_error_not_sent.
    + rewrite Hsend in Hr. congruence.
Qed.
End ControlFailureFacts.

Lemma failed_control_call_leaves_nothing_witness :
  Bus.threads (Bus.subscribe_control zmq_no_connect Bus.create "inproc://e" 1).2 = []
  ∧ Bus.zmq_sockets (Bus.subscribe_control zmq_no_connect Bus.create "inproc://e" 1).2 = ∅
  ∧ Bus.zmq_sockets (Bus.publish_control zmq_no_bind Bus.create "inproc://e" "m").2 = ∅.
Proof.
  destruct (failed_control_call_leaves_nothing zmq_no_connect Bus.create
              "inproc://e" "m" 1) as [Hsub _].
  destruct (failed_control_call_leaves_nothing zmq_no_bind Bus.create
              "inproc://e" "m" 1) as [_ Hpub].
  destruct Hsub as (_ & _ & Ht & Hs & _); [discriminate|].
  destruct Hpub as (_ & Hs' & _); [discriminate | reflexivity |].
  split_and!; [exact Ht | exact Hs | exact Hs'].
Defined.

(** ** Asynchronous runtime: calls between init and stop *)

Section RuntimeCallFacts.
Import Runtime.
Variable hardware_concurrency : nat.

Local Abbreviation init := (init hardware_concurrency).
Local Abbreviation exec := (Runtime.exec hardware_concurrency).
Local Abbreviation exec_all := (Runtime.exec_all hardware_concurrency).

Lemma exec_started_threads st c :
  started_ st = true → is_init c = false → is_stop c = false →
  started_ (exec st c) = true
  ∧ io_threads_ (exec st c) = io_threads_ st
  ∧ cpu_threads_ (exec st c) = cpu_threads_ st
  ∧ critical_threads_ (exec st c) = critical_threads_ st ++ spawned [c].
Proof.
  intros Hs Hi Hst. destruct c as [scheduler io_n cpu_n| |f|f|policy f]; try done; simpl.
  - unfold post_io_impl. rewrite Hs. simpl. by rewrite app_nil_r.
  - unfold post_cpu_impl. rewrite Hs. simpl. by rewrite app_nil_r.
  - unfold spawn_critical_loop_impl. by rewrite Hs.
Qed.

Lemma spawned_cons c cs : spawned (c :: cs) = spawned [c] ++ spawned cs.
Proof. by destruct c. Qed.

Lemma exec_all_started_threads cs st :
  started_ st = true →
  forallb (λ c, negb (is_init c) && negb (is_stop c)) cs = true →
  started_ (exec_all st cs) = true
  ∧ io_threads_ (exec_all st cs) = io_threads_ st
  ∧ cpu_threads_ (exec_all st cs) = cpu_threads_ st
  ∧ critical_threads_ (exec_all st cs) = critical_threads_ st ++ spawned cs.
Proof.
  revert st. induction cs as [|c cs IH]; intros st Hs Hcs.
  - simpl. by rewrite app_nil_r.
  - simpl in Hcs. apply andb_prop in Hcs as [Hc Hcs]. apply andb_prop in Hc as [Hi Hst].
    apply negb_true_iff in Hi, Hst.
    destruct (exec_started_threads st c Hs Hi Hst) as (Hs' & Hio & Hcpu & Hcrit).
    destruct (IH _ Hs' Hcs) as (Hs'' & Hio' & Hcpu' & Hcrit').
    unfold Runtime.exec_all in *. cbn [fold_left].
    rewrite Hs'', Hio', Hcpu', Hcrit', Hio, Hcpu, Hcrit, (spawned_cons c cs).
    by rewrite <- app_assoc.
Qed.

(** X18. Start a runtime that is not started (never initialised, or
    stopped), then post work and spawn critical loops in any order.  The
    next [stop] joins exactly the I/O workers [0 … n-1], the CPU workers
    [0 … m-1] and the critical loops spawned since that [init], each
    once, in that order. *)
Theorem stop_joins_workers_and_spawned (cs0 cs : list call) (scheduler : option nat)
    (io_n cpu_n : nat) :
  started_ (exec_all create cs0) = false →
  forallb (λ c, negb (is_init c) && negb (is_stop c)) cs = true →
  (stop (exec_all (init (exec_all create cs0) scheduler io_n cpu_n) cs)).2
  = workers kIo (io_count io_n)
    ++ workers kCpu (cpu_count hardware_concurrency cpu_n)
    ++ spawned cs.
Proof.
  intros Hs Hcs.
  pose proof (exec_all_idle_inv hardware_concurrency cs0 create create_idle_inv)
    as (_ & _ & Hidle).
  destruct (Hidle Hs) as (Hio0 & Hcpu0 & Hcrit0 & _).
  pose proof (init_not_started hardware_concurrency _ scheduler io_n cpu_n Hs) as Hinit.
  rewrite Hio0, Hcpu0, Hcrit0 in Hinit. simpl in Hinit.
  destruct (exec_all_started_threads cs (init (exec_all create cs0) scheduler io_n cpu_n))
    as (Hs' & Hio & Hcpu & Hcrit); [by rewrite Hinit | done |].
  unfold stop. rewrite Hs'. simpl. rewrite Hio, Hcpu, Hcrit, Hinit. done.
Qed.
End RuntimeCallFacts.

Lemma stop_joins_workers_and_spawned_witness :
  (Runtime.stop
     (Runtime.exec_all 0
        (Runtime.init 0 (Runtime.exec_all 0 Runtime.create [Runtime.Init None 3 3; Runtime.Stop])
           None 2 0)
        [Runtime.SpawnCriticalLoop toy_policy (Some 9%nat); Runtime.PostIo 4;
         Runtime.SpawnCriticalLoop toy_policy None])).2
  = [Runtime.PoolWorker Runtime.kIo 0; Runtime.PoolWorker Runtime.kIo 1;
     Runtime.PoolWorker Runtime.kCpu 0;
     Runtime.CriticalLoop toy_policy (Some 9%nat); Runtime.CriticalLoop toy_policy None].
Proof.
  apply (stop_joins_workers_and_spawned 0 [Runtime.Init None 3 3; Runtime.Stop]
           [Runtime.SpawnCriticalLoop toy_policy (Some 9%nat); Runtime.PostIo 4;
            Runtime.SpawnCriticalLoop toy_policy None] None 2 0); reflexivity.
Defined.

Section RuntimeIdleFacts.
Import Runtime.
Variable hardware_concurrency : nat.

Local Abbreviation init := (init hardware_concurrency).
Local Abbreviation exec := (Runtime.exec hardware_concurrency).
Local Abbreviation exec_all := (Runtime.exec_all hardware_concurrency).

(** X19. On any runtime, a second [init] right after an [init] changes
    nothing, whatever its arguments, and a second [stop] right after a
    [stop] changes nothing and joins nothing. *)
Theorem init_and_stop_idempotent (st : Impl) (s1 s2 : option nat) (io1 cpu1 io2 cpu2 : nat) :
  init (init st s1 io1 cpu1) s2 io2 cpu2 = init st s1 io1 cpu1
  ∧ stop (stop st).1 = ((stop st).1, []).
Proof.
  split.
  - unfold Runtime.init. by destruct (started_ st) eqn:Hs; simpl; rewrite ?Hs.
  - unfold stop. by destruct (started_ st) eqn:Hs; simpl; rewrite ?Hs.
Qed.

(** X20. On a runtime that is not started, work posted to either pool,
    critical loops asked for and [stop] calls are all dropped: after any
    number of them the runtime is as it was, no handler is queued and
    no thread exists that did not before. *)
Theorem calls_before_init_are_dropped (st : Impl) (cs : list call) :
  started_ st = false →
  forallb (λ c, negb (is_init c)) cs = true →
  exec_all st cs = st.
Proof.
  intros Hs. induction cs as [|c cs IH]; [done|]. simpl.
  intros Hcs. apply andb_prop in Hcs as [Hc Hcs]. unfold Runtime.exec_all in *.
  assert (exec st c = st) as ->; [|by apply IH].
  destruct c as [scheduler io_n cpu_n| |f|f|policy f]; try done; simpl.
  - unfold stop. by rewrite Hs.
  - unfold post_io_impl. by rewrite Hs.
  - unfold post_cpu_impl. by rewrite Hs.
  - unfold spawn_critical_loop_impl. by rewrite Hs.
Qed.

Lemma exec_running_flags st c :
  (started_ st = true →
   stop_ st = false ∧ io_work_ st = Some tt ∧ cpu_work_ st = Some tt) →
  started_ (exec st c) = true →
  stop_ (exec st c) = false ∧ io_work_ (exec st c) = Some tt
  ∧ cpu_work_ (exec st c) = Some tt.
Proof.
  intros Hinv. destruct c as [scheduler io_n cpu_n| |f|f|policy f]; simpl;
    [unfold Runtime.init | unfold stop | unfold post_io_impl
     | unfold post_cpu_impl | unfold spawn_critical_loop_impl];
    destruct (started_ st) eqn:Hs; simpl; try done; intros Hstarted;
    first [exact (Hinv eq_refl) | congruence].
Qed.

(** X21. On a runtime reached by any calls from a new one, as long as it
    is started the stop flag handed to every critical loop is clear and
    both pools hold their work guard. *)
Theorem running_runtime_flags (cs : list call) :
  started_ (exec_all create cs) = true →
  stop_ (exec_all create cs) = false
  ∧ io_work_ (exec_all create cs) = Some tt
  ∧ cpu_work_ (exec_all create cs) = Some tt.
Proof.
  induction cs as [|c cs IH] using rev_ind; [done|].
  unfold Runtime.exec_all in *. rewrite fold_left_app. simpl.
  by apply exec_running_flags.
Qed.
End RuntimeIdleFacts.

Lemma calls_before_init_are_dropped_witness :
  Runtime.exec_all 4 Runtime.create
    [Runtime.PostIo 1; Runtime.SpawnCriticalLoop toy_policy (Some 2%nat); Runtime.Stop;
     Runtime.PostCpu 3]
  = Runtime.create.
Proof.
  apply (calls_before_init_are_dropped 4 Runtime.create
           [Runtime.PostIo 1; Runtime.SpawnCriticalLoop toy_policy (Some 2%nat);
            Runtime.Stop; Runtime.PostCpu 3]); reflexivity.
Defined.

Lemma running_runtime_flags_witness :
  Runtime.stop_ (Runtime.exec_all 4 Runtime.create
                   [Runtime.Init None 1 1; Runtime.Stop; Runtime.Init (Some 3%nat) 0 0])
  = false
  ∧ Runtime.io_work_ (Runtime.exec_all 4 Runtime.create
                        [Runtime.Init None 1 1; Runtime.Stop; Runtime.Init (Some 3%nat) 0 0])
    = Some tt
  ∧ Runtime.cpu_work_ (Runtime.exec_all 4 Runtime.create
                         [Runtime.Init None 1 1; Runtime.Stop; Runtime.Init (Some 3%nat) 0 0])
    = Some tt.
Proof.
  apply (running_runtime_flags 4
           [Runtime.Init None 1 1; Runtime.Stop; Runtime.Init (Some 3%nat) 0 0]).
  reflexivity.
Defined.

(** ** Logging *)

Lemma logging_set_mutex_id (st : Logging.Impl) :
  Logging.mutex_owned st = false →
  Logging.set_mutex (Logging.set_mutex st true) false = st.
Proof. destruct st; simpl; intros ->; done. Qed.

Lemma logging_create_wf : Logging.wf Logging.create.
Proof.
  split; simpl; try done.
Qed.

Lemma logging_exec_wf (st st' : Logging.Impl) (c : Logging.call) :
  Logging.wf st → Logging.exec st c = Logging.Done st' → Logging.wf st'.
Proof.
  intros [Hm Hl Hd Hu Hs] He.
  destruct c as [env c|env name|name lvl|lvl| |h lvl msg]; simpl in He.
  - unfold Logging.init, Logging.lock_guard in He. rewrite Hm in He. simpl in He.
    destruct (Logging.inited st) eqn:Hi.
    + inversion He; subst; clear He. split; simpl; rewrite ?Hi; auto.
    + destruct (Logging.create_directories_error env);
        [|destruct (Logging.sink_throws env)];
        inversion He; subst; clear He; split; simpl; rewrite ?Hi; auto; try congruence.
      intros _. eexists; split; [done|]. rewrite lookup_app_r by lia.
      rewrite Nat.sub_diag. by eexists.
  - unfold Logging.get_logger, Logging.lock_guard in He. rewrite Hm in He. simpl in He.
    destruct (Logging.inited st) eqn:Hi; simpl in He; [|done].
    unfold Logging.get_or_create_logger_locked in He. simpl in He.
    destruct (Logging.loggers st !! name) as [h|] eqn:Hn; simpl in He;
      inversion He; subst; clear He; split; simpl; rewrite ?Hi; auto; try congruence.
    + intros n h. destruct (decide (n = name)) as [->|Hne].
      * rewrite lookup_insert_eq. intros [= <-]. eexists. split.
        -- rewrite lookup_app_r by lia. by rewrite Nat.sub_diag.
        -- done.
      * rewrite lookup_insert_ne by congruence. intros Hh.
        destruct (Hl _ _ Hh) as (lg & Hlg & Hnm). exists lg. split; [|done].
        by apply lookup_app_l_Some.
    + intros n1 n2 h.
      destruct (decide (n1 = name)) as [->|H1]; destruct (decide (n2 = name)) as [->|H2];
        try done.
      * rewrite lookup_insert_eq, lookup_insert_ne by congruence.
        intros [= <-] Hh. destruct (Hl _ _ Hh) as (lg & Hlg & _).
        apply lookup_lt_Some in Hlg. lia.
      * rewrite lookup_insert_eq, lookup_insert_ne by congruence.
        intros Hh [= <-]. destruct (Hl _ _ Hh) as (lg & Hlg & _).
        apply lookup_lt_Some in Hlg. lia.
      * rewrite !lookup_insert_ne by congruence. apply Hd.
  - unfold Logging.set_level, Logging.lock_guard in He. rewrite Hm in He. simpl in He.
    inversion He; subst; clear He; split; simpl; auto.
    intros n h Hh. destruct (Hl _ _ Hh) as (lg & Hlg & Hnm).
    destruct (Logging.loggers st !! name) as [h0|] eqn:Hn; [|by eauto].
    destruct (decide (h0 = h)) as [->|Hne].
    + exists (Logging.set_logger_level (Logging.ToSpdLevel lvl) lg).
      rewrite list_lookup_alter_eq, Hlg. split; [done|]. by destruct lg.
    + exists lg. by rewrite list_lookup_alter_ne.
  - unfold Logging.set_default_level, Logging.lock_guard in He. rewrite Hm in He.
    simpl in He. inversion He; subst; clear He; split; simpl; auto.
  - unfold Logging.shutdown, Logging.lock_guard in He. rewrite Hm in He. simpl in He.
    destruct (Logging.inited st) eqn:Hi; simpl in He;
      inversion He; subst; clear He; split; simpl; rewrite ?Hi; auto; try done.
  - inversion He; subst; clear He. unfold Logging.log.
    destruct h as [h|]; [|by split].
    destruct (Logging.logger_objects st !! h); [|by split].
    destruct (_ <=? _)%nat; by split.
Qed.

Lemma logging_exec_all_wf (cs : list Logging.call) (st st' : Logging.Impl) :
  Logging.wf st → Logging.exec_all st cs = Logging.Done st' → Logging.wf st'.
Proof.
  revert st. induction cs as [|c cs IH]; intros st Hwf; simpl.
  - by intros [= <-].
  - destruct (Logging.exec st c) as [st1|] eqn:He; [|done].
    apply IH. by eapply logging_exec_wf.
Qed.

Lemma logging_init_again (env : Logging.init_answers) (st : Logging.Impl)
    (c : Logging.LoggingConfig) :
  Logging.mutex_owned st = false → Logging.inited st = true →
  Logging.init env st c = Logging.Done (Logging.ok, st).
Proof.
  intros Hm Hi. unfold Logging.init, Logging.lock_guard. rewrite Hm. simpl.
  rewrite Hi. by rewrite logging_set_mutex_id.
Qed.

Lemma logging_init_first (env : Logging.init_answers) (st : Logging.Impl)
    (c : Logging.LoggingConfig) :
  Logging.mutex_owned st = false → Logging.inited st = false →
  Logging.create_directories_error env = None → Logging.sink_throws env = false →
  Logging.init env st c =
    Logging.Done (Logging.ok,
      {| Logging.mutex_owned := false; Logging.inited := true; Logging.cfg := c;
         Logging.sink := Some (length (Logging.sink_objects st));
         Logging.loggers := Logging.loggers st; Logging.levels := Logging.levels st;
         Logging.sink_objects := Logging.sink_objects st ++ [Logging.sink_of c];
         Logging.logger_objects := Logging.logger_objects st;
         Logging.written := Logging.written st |}).
Proof.
  intros Hm Hi Hd Ht. unfold Logging.init, Logging.lock_guard. rewrite Hm. simpl.
  by rewrite Hi, Hd, Ht.
Qed.

Lemma logging_init_failed (env : Logging.init_answers) (st st' : Logging.Impl)
    (c : Logging.LoggingConfig) (e : Logging.error_code) :
  Logging.inited st = false →
  Logging.init env st c = Logging.Done (e, st') → e ≠ Logging.ok →
  Logging.inited st' = false.
Proof.
  intros Hi. unfold Logging.init, Logging.lock_guard.
  destruct (Logging.mutex_owned st); [done|]. simpl. rewrite Hi.
  destruct (Logging.create_directories_error env);
    [|destruct (Logging.sink_throws env)]; intros [= <- <-]; done.
Qed.

Lemma logging_get_logger_new (env : Logging.init_answers) (st : Logging.Impl)
    (name : string) :
  Logging.mutex_owned st = false → Logging.inited st = true →
  Logging.loggers st !! name = None →
  Logging.get_logger env st name =
    Logging.Done (length (Logging.logger_objects st),
      {| Logging.mutex_owned := false; Logging.inited := true;
         Logging.cfg := Logging.cfg st; Logging.sink := Logging.sink st;
         Logging.loggers := <[name := length (Logging.logger_objects st)]> (Logging.loggers st);
         Logging.levels := Logging.levels st;
         Logging.sink_objects := Logging.sink_objects st;
         Logging.logger_objects :=
           Logging.logger_objects st ++
             [{| Logging.lg_name := name; Logging.lg_sink := Logging.sink st;
                 Logging.lg_level := Logging.start_level st name;
                 Logging.lg_flush_level := Logging.err;
                 Logging.lg_pattern :=
                   match Logging.pattern (Logging.cfg st) with
                   | EmptyString => None
                   | p => Some p
                   end |}];
         Logging.written := Logging.written st |}).
Proof.
  intros Hm Hi Hn. unfold Logging.get_logger, Logging.lock_guard. rewrite Hm. simpl.
  rewrite Hi. simpl. unfold Logging.get_or_create_logger_locked. simpl. rewrite Hn.
  simpl. rewrite Hi. unfold Logging.new_logger, Logging.start_level. simpl.
  by destruct (Logging.levels st !! name).
Qed.

Lemma logging_get_logger_cached (env : Logging.init_answers) (st : Logging.Impl)
    (name : string) (h : nat) :
  Logging.mutex_owned st = false → Logging.inited st = true →
  Logging.loggers st !! name = Some h →
  Logging.get_logger env st name = Logging.Done (h, st).
Proof.
  intros Hm Hi Hn. unfold Logging.get_logger, Logging.lock_guard. rewrite Hm. simpl.
  rewrite Hi. simpl. unfold Logging.get_or_create_logger_locked. simpl. rewrite Hn.
  by rewrite logging_set_mutex_id.
Qed.

Lemma logging_set_level_spec (st : Logging.Impl) (name : string)
    (lvl : Logging.LogLevel) :
  Logging.mutex_owned st = false →
  Logging.set_level st name lvl =
    Logging.Done (tt,
      {| Logging.mutex_owned := false; Logging.inited := Logging.inited st;
         Logging.cfg := Logging.cfg st; Logging.sink := Logging.sink st;
         Logging.loggers := Logging.loggers st;
         Logging.levels := <[name := lvl]> (Logging.levels st);
         Logging.sink_objects := Logging.sink_objects st;
         Logging.logger_objects :=
           match Logging.loggers st !! name with
           | Some lg =>
               alter (Logging.set_logger_level (Logging.ToSpdLevel lvl)) lg
                 (Logging.logger_objects st)
           | None => Logging.logger_objects st
           end;
         Logging.written := Logging.written st |}).
Proof.
  intros Hm. unfold Logging.set_level, Logging.lock_guard. by rewrite Hm.
Qed.

Lemma logging_shutdown_spec (st : Logging.Impl) :
  Logging.mutex_owned st = false →
  Logging.shutdown st =
    Logging.Done (tt,
      if Logging.inited st then
        {| Logging.mutex_owned := false; Logging.inited := false;
           Logging.cfg := Logging.cfg st; Logging.sink := None;
           Logging.loggers := ∅; Logging.levels := ∅;
           Logging.sink_objects := Logging.sink_objects st;
           Logging.logger_objects := Logging.logger_objects st;
           Logging.written := Logging.written st |}
      else st).
Proof.
  intros Hm. unfold Logging.shutdown, Logging.lock_guard. rewrite Hm. simpl.
  destruct (Logging.inited st); simpl; [done|]. by rewrite logging_set_mutex_id.
Qed.

(** X22. [get_logger] on a manager that is not initialised never hands
    out a logger: it calls [init] while it holds the manager's mutex, and
    [init] locks that mutex again.  This is so for a manager that was
    never initialised, for one that was shut down, and for one whose
    [init] failed. *)
Theorem get_logger_uninitialised_relocks (env : Logging.init_answers)
    (st : Logging.Impl) (name : string) :
  Logging.mutex_owned st = false →
  (Logging.inited st = false → Logging.get_logger env st name = Logging.Relock) ∧
  (∃ st', Logging.shutdown st = Logging.Done (tt, st') ∧
          Logging.get_logger env st' name = Logging.Relock) ∧
  (∀ env0 c e st',
     Logging.inited st = false →
     Logging.init env0 st c = Logging.Done (e, st') → e ≠ Logging.ok →
     Logging.get_logger env st' name = Logging.Relock).
Proof.
  assert (Hrelock : ∀ s, Logging.inited s = false →
                         Logging.get_logger env s name = Logging.Relock).
  { intros s Hi. unfold Logging.get_logger, Logging.lock_guard.
    destruct (Logging.mutex_owned s); [done|]. simpl. rewrite Hi. simpl.
    done. }
  intros Hm. split_and!.
  - apply Hrelock.
  - eexists. split; [by apply logging_shutdown_spec|].
    apply Hrelock. by destruct (Logging.inited st) eqn:Hi.
  - intros env0 c e st' Hi He Hne. apply Hrelock.
    by eapply logging_init_failed.
Qed.

Lemma get_logger_uninitialised_relocks_witness :
  Logging.get_logger Logging.init_ok Logging.create "net" = Logging.Relock.
Proof.
  apply (get_logger_uninitialised_relocks Logging.init_ok Logging.create "net");
    reflexivity.
Defined.

(** X23. On an initialised manager, a name asked for the first time gets a
    new logger on the manager's sink; its level is the override recorded
    for the name if there is one and the configured default otherwise.
    Asking again returns the same logger and changes nothing. *)
Theorem get_logger_creates_once (env env' : Logging.init_answers)
    (st : Logging.Impl) (name : string) :
  Logging.wf st → Logging.inited st = true → Logging.loggers st !! name = None →
  ∃ st' lg,
    let h := length (Logging.logger_objects st) in
    Logging.get_logger env st name = Logging.Done (h, st') ∧
    Logging.logger_objects st' !! h = Some lg ∧
    Logging.lg_name lg = name ∧
    Logging.lg_sink lg = Logging.sink st ∧
    Logging.lg_level lg =
      Logging.ToSpdLevel
        (default (Logging.default_level (Logging.cfg st)) (Logging.levels st !! name)) ∧
    (∀ h', (h' < h)%nat → Logging.logger_objects st' !! h' = Logging.logger_objects st !! h') ∧
    Logging.get_logger env' st' name = Logging.Done (h, st').
Proof.
  intros Hwf Hi Hn. destruct Hwf as [Hm _ _ _ _].
  eexists _, _. cbn zeta. split_and!.
  - by apply logging_get_logger_new.
  - cbn [Logging.logger_objects]. rewrite lookup_app_r by lia.
    by rewrite Nat.sub_diag.
  - done.
  - done.
  - done.
  - intros h' Hh'. cbn [Logging.logger_objects]. by rewrite lookup_app_l by lia.
  - apply logging_get_logger_cached; try done. cbn [Logging.loggers].
    by rewrite lookup_insert_eq.
Qed.

Lemma get_logger_creates_once_witness :
  ∃ st0 st' lg,
    Logging.init Logging.init_ok Logging.create Logging.defaults
      = Logging.Done (Logging.ok, st0) ∧
    Logging.get_logger Logging.init_ok st0 "net" = Logging.Done (0%nat, st') ∧
    Logging.logger_objects st' !! 0%nat = Some lg ∧
    Logging.lg_level lg = Logging.info.
Proof.
  eexists _.
  destruct (get_logger_creates_once Logging.init_ok Logging.init_ok
              {| Logging.mutex_owned := false; Logging.inited := true;
                 Logging.cfg := Logging.defaults; Logging.sink := Some 0%nat;
                 Logging.loggers := ∅; Logging.levels := ∅;
                 Logging.sink_objects := [Logging.sink_of Logging.defaults];
                 Logging.logger_objects := []; Logging.written := [] |} "net")
    as (st' & lg & Hg & Hl & _ & _ & Hlvl & _).
  - split; simpl; try done. intros _. exists 0%nat. split; [done|]. by eexists.
  - reflexivity.
  - reflexivity.
  - exists st', lg. split; [reflexivity|]. split; [exact Hg|]. split; [exact Hl|].
    exact Hlvl.
Defined.

(** X24. [set_level] reaches the handles already given out: the cached
    logger of the name is the object the handles share, so what a handle
    writes afterwards is decided by the new level; every other logger is
    left as it was, and so is everything written so far. *)
Theorem set_level_reaches_handles (st : Logging.Impl) (name : string) (h : nat)
    (lvl : Logging.LogLevel) :
  Logging.wf st → Logging.loggers st !! name = Some h →
  ∃ st' lg,
    Logging.set_level st name lvl = Logging.Done (tt, st') ∧
    Logging.logger_objects st !! h = Some lg ∧
    Logging.logger_objects st' !! h
      = Some (Logging.set_logger_level (Logging.ToSpdLevel lvl) lg) ∧
    (∀ h', h' ≠ h → Logging.logger_objects st' !! h' = Logging.logger_objects st !! h') ∧
    (∀ level msg,
       Logging.written (Logging.log st' (Some h) level msg) =
         Logging.written st ++
           if Logging.passes (Logging.ToSpdLevel lvl) level
           then [{| Logging.line_sink := Logging.lg_sink lg;
                    Logging.line_logger := name;
                    Logging.line_level := Logging.ToSpdLevel level;
                    Logging.line_msg := msg |}]
           else []).
Proof.
  intros Hwf Hn. destruct (Logging.wf_loggers _ Hwf _ _ Hn) as (lg & Hlg & Hnm).
  eexists _, lg. split_and!.
  - apply logging_set_level_spec, Hwf.
  - done.
  - cbn [Logging.logger_objects]. rewrite Hn. by rewrite list_lookup_alter_eq, Hlg.
  - intros h' Hne. cbn [Logging.logger_objects]. rewrite Hn.
    by rewrite list_lookup_alter_ne.
  - intros level msg. unfold Logging.log. cbn [Logging.logger_objects]. rewrite Hn.
    rewrite list_lookup_alter_eq, Hlg. cbn [fmap option_fmap option_map].
    unfold Logging.passes. cbn [Logging.set_logger_level Logging.lg_level
      Logging.lg_sink Logging.lg_name].
    destruct (_ <=? _)%nat; cbn [Logging.written]; [by rewrite Hnm|].
    by rewrite app_nil_r.
Qed.

Lemma set_level_reaches_handles_witness :
  ∃ st' lg,
    Logging.set_level
      {| Logging.mutex_owned := false; Logging.inited := true;
         Logging.cfg := Logging.defaults; Logging.sink := Some 0%nat;
         Logging.loggers := {["net" := 0%nat]}; Logging.levels := ∅;
         Logging.sink_objects := [Logging.sink_of Logging.defaults];
         Logging.logger_objects :=
           [{| Logging.lg_name := "net"; Logging.lg_sink := Some 0%nat;
               Logging.lg_level := Logging.info; Logging.lg_flush_level := Logging.err;
               Logging.lg_pattern := None |}];
         Logging.written := [] |} "net" Logging.kOff = Logging.Done (tt, st') ∧
    Logging.logger_objects st' !! 0%nat
      = Some (Logging.set_logger_level (Logging.ToSpdLevel Logging.kOff) lg).
Proof.
  destruct (set_level_reaches_handles
      {| Logging.mutex_owned := false; Logging.inited := true;
         Logging.cfg := Logging.defaults; Logging.sink := Some 0%nat;
         Logging.loggers := {["net" := 0%nat]}; Logging.levels := ∅;
         Logging.sink_objects := [Logging.sink_of Logging.defaults];
         Logging.logger_objects :=
           [{| Logging.lg_name := "net"; Logging.lg_sink := Some 0%nat;
               Logging.lg_level := Logging.info; Logging.lg_flush_level := Logging.err;
               Logging.lg_pattern := None |}];
         Logging.written := [] |} "net" 0%nat Logging.kOff)
    as (st' & lg & Hs & _ & Ho & _).
  - split; cbn [Logging.mutex_owned Logging.loggers Logging.inited
                Logging.logger_objects Logging.sink Logging.sink_objects].
    + reflexivity.
    + intros n h Hh. apply lookup_singleton_Some in Hh as [<- <-].
      eexists. split; reflexivity.
    + intros n1 n2 h H1 H2. apply lookup_singleton_Some in H1 as [<- _].
      apply lookup_singleton_Some in H2 as [<- _]. reflexivity.
    + intros Hf. discriminate Hf.
    + intros _. exists 0%nat. split; [reflexivity|]. eexists. reflexivity.
  - apply lookup_singleton_eq.
  - exists st', lg. split; [exact Hs | exact Ho].
Defined.

Lemma logging_set_default_level_spec (st : Logging.Impl) (lvl : Logging.LogLevel) :
  Logging.mutex_owned st = false →
  Logging.set_default_level st lvl =
    Logging.Done (tt,
      {| Logging.mutex_owned := false; Logging.inited := Logging.inited st;
         Logging.cfg :=
           {| Logging.log_dir := Logging.log_dir (Logging.cfg st);
              Logging.file_name := Logging.file_name (Logging.cfg st);
              Logging.max_size_bytes := Logging.max_size_bytes (Logging.cfg st);
              Logging.max_files := Logging.max_files (Logging.cfg st);
              Logging.default_level := lvl;
              Logging.pattern := Logging.pattern (Logging.cfg st) |};
         Logging.sink := Logging.sink st; Logging.loggers := Logging.loggers st;
         Logging.levels := Logging.levels st;
         Logging.sink_objects := Logging.sink_objects st;
         Logging.logger_objects := Logging.logger_objects st;
         Logging.written := Logging.written st |}).
Proof.
  intros Hm. unfold Logging.set_default_level, Logging.lock_guard. by rewrite Hm.
Qed.

(** X25. [set_default_level] changes no logger that exists: it only
    decides the level of loggers made later, and only of those whose name
    has no override. *)
Theorem set_default_level_only_later_loggers (env : Logging.init_answers)
    (st : Logging.Impl) (lvl : Logging.LogLevel) (name : string) :
  Logging.wf st → Logging.inited st = true → Logging.loggers st !! name = None →
  ∃ st1 st2 h lg,
    Logging.set_default_level st lvl = Logging.Done (tt, st1) ∧
    Logging.logger_objects st1 = Logging.logger_objects st ∧
    Logging.loggers st1 = Logging.loggers st ∧
    Logging.get_logger env st1 name = Logging.Done (h, st2) ∧
    Logging.logger_objects st2 !! h = Some lg ∧
    Logging.lg_level lg = Logging.ToSpdLevel (default lvl (Logging.levels st !! name)) ∧
    (∀ h', (h' < h)%nat → Logging.logger_objects st2 !! h' = Logging.logger_objects st !! h').
Proof.
  intros Hwf Hi Hn. destruct Hwf as [Hm _ _ _ _].
  eexists _, _, _, _. split_and!.
  - by apply logging_set_default_level_spec.
  - done.
  - done.
  - by apply logging_get_logger_new.
  - cbn [Logging.logger_objects]. rewrite lookup_app_r by lia.
    by rewrite Nat.sub_diag.
  - done.
  - intros h' Hh'. cbn [Logging.logger_objects] in *. by rewrite lookup_app_l by lia.
Qed.

Lemma set_default_level_only_later_loggers_witness :
  ∃ st1 st2 h lg,
    Logging.set_default_level
      {| Logging.mutex_owned := false; Logging.inited := true;
         Logging.cfg := Logging.defaults; Logging.sink := Some 0%nat;
         Logging.loggers := ∅; Logging.levels := ∅;
         Logging.sink_objects := [Logging.sink_of Logging.defaults];
         Logging.logger_objects := []; Logging.written := [] |} Logging.kWarn
      = Logging.Done (tt, st1) ∧
    Logging.get_logger Logging.init_ok st1 "net" = Logging.Done (h, st2) ∧
    Logging.logger_objects st2 !! h = Some lg ∧
    Logging.lg_level lg = Logging.warn.
Proof.
  destruct (set_default_level_only_later_loggers Logging.init_ok
      {| Logging.mutex_owned := false; Logging.inited := true;
         Logging.cfg := Logging.defaults; Logging.sink := Some 0%nat;
         Logging.loggers := ∅; Logging.levels := ∅;
         Logging.sink_objects := [Logging.sink_of Logging.defaults];
         Logging.logger_objects := []; Logging.written := [] |} Logging.kWarn "net")
    as (st1 & st2 & h & lg & Hs & _ & _ & Hg & Hl & Hlvl & _).
  - split; simpl; try done. intros _. exists 0%nat. split; [done|]. by eexists.
  - reflexivity.
  - reflexivity.
  - exists st1, st2, h, lg. split; [exact Hs|]. split; [exact Hg|].
    split; [exact Hl | exact Hlvl].
Defined.

(** X26. The first successful [init] decides: a second [init] returns
    success without reading its configuration, so a logger made afterwards
    sits on the sink of the first configuration and starts from the first
    configuration's default level. *)
Theorem init_keeps_first_config (env1 env2 env3 : Logging.init_answers)
    (c1 c2 : Logging.LoggingConfig) (st : Logging.Impl) (name : string) :
  Logging.wf st → Logging.inited st = false →
  Logging.create_directories_error env1 = None → Logging.sink_throws env1 = false →
  ∃ st' h lg s,
    Logging.exec_all st
      [Logging.Init env1 c1; Logging.Init env2 c2; Logging.GetLogger env3 name]
      = Logging.Done st' ∧
    Logging.cfg st' = c1 ∧
    Logging.loggers st' !! name = Some h ∧
    Logging.logger_objects st' !! h = Some lg ∧
    Logging.lg_sink lg = Some s ∧
    Logging.sink_objects st' !! s = Some (Logging.sink_of c1) ∧
    Logging.lg_level lg =
      Logging.ToSpdLevel (default (Logging.default_level c1) (Logging.levels st !! name)).
Proof.
  intros Hwf Hi Hd Ht. pose proof (Logging.wf_uninit _ Hwf Hi) as Hl.
  destruct Hwf as [Hm _ _ _ _].
  eexists _, _, _, _. split_and!.
  - cbn [Logging.exec_all Logging.exec].
    rewrite (logging_init_first env1 st c1) by done.
    rewrite logging_init_again by done.
    rewrite logging_get_logger_new; [done..|].
    cbn [Logging.loggers]. by rewrite Hl.
  - done.
  - cbn [Logging.loggers]. by rewrite lookup_insert_eq.
  - cbn [Logging.logger_objects]. rewrite lookup_app_r by lia.
    by rewrite Nat.sub_diag.
  - done.
  - cbn [Logging.sink_objects]. rewrite lookup_app_r by lia.
    by rewrite Nat.sub_diag.
  - done.
Qed.

Lemma init_keeps_first_config_witness :
  ∃ st' h lg,
    Logging.exec_all Logging.create
      [Logging.Init Logging.init_ok Logging.defaults;
       Logging.Init Logging.init_ok
         {| Logging.log_dir := "/var/log"; Logging.file_name := "b.log";
            Logging.max_size_bytes := 1; Logging.max_files := 1;
            Logging.default_level := Logging.kOff; Logging.pattern := "" |};
       Logging.GetLogger Logging.init_ok "net"] = Logging.Done st' ∧
    Logging.loggers st' !! "net" = Some h ∧
    Logging.logger_objects st' !! h = Some lg ∧
    Logging.lg_level lg = Logging.info.
Proof.
  destruct (init_keeps_first_config Logging.init_ok Logging.init_ok Logging.init_ok
              Logging.defaults
              {| Logging.log_dir := "/var/log"; Logging.file_name := "b.log";
                 Logging.max_size_bytes := 1; Logging.max_files := 1;
                 Logging.default_level := Logging.kOff; Logging.pattern := "" |}
              Logging.create "net")
    as (st' & h & lg & s & He & _ & Hn & Hl & _ & _ & Hlvl).
  - split; simpl; done.
  - reflexivity.
  - reflexivity.
  - reflexivity.
  - exists st', h, lg. split; [exact He|]. split; [exact Hn|]. split; [exact Hl|].
    exact Hlvl.
Defined.

(** X27. [shutdown] of an initialised manager forgets the overrides
    together with the loggers, while on a manager that is not initialised
    it returns at once and keeps them.  So after an override, a shutdown
    and an [init], the logger of the name is a new object on the new sink,
    whose level is the new default if the manager was initialised when the
    override was set, and the override if it was not. *)
Theorem shutdown_forgets_overrides (env env' : Logging.init_answers)
    (c : Logging.LoggingConfig) (st : Logging.Impl) (name : string)
    (lvl : Logging.LogLevel) :
  Logging.wf st →
  Logging.create_directories_error env = None → Logging.sink_throws env = false →
  ∃ st' h lg,
    Logging.exec_all st
      [Logging.SetLevel name lvl; Logging.Shutdown; Logging.Init env c;
       Logging.GetLogger env' name] = Logging.Done st' ∧
    Logging.loggers st' !! name = Some h ∧
    (length (Logging.logger_objects st) ≤ h)%nat ∧
    Logging.logger_objects st' !! h = Some lg ∧
    Logging.lg_sink lg = Some (length (Logging.sink_objects st)) ∧
    Logging.sink_objects st' !! length (Logging.sink_objects st)
      = Some (Logging.sink_of c) ∧
    Logging.lg_level lg =
      Logging.ToSpdLevel (if Logging.inited st then Logging.default_level c else lvl).
Proof.
  intros Hwf Hd Ht. destruct (Logging.inited st) eqn:Hi.
  - destruct Hwf as [Hm _ _ _ _].
    eexists _, _, _. split_and!.
    + cbn [Logging.exec_all Logging.exec].
      rewrite logging_set_level_spec by done.
      rewrite logging_shutdown_spec by done. cbn [Logging.inited]. rewrite Hi.
      rewrite logging_init_first by done.
      rewrite logging_get_logger_new by done. done.
    + cbn [Logging.loggers]. by rewrite lookup_insert_eq.
    + cbn [Logging.logger_objects]. destruct (Logging.loggers st !! name).
      * by rewrite length_alter.
      * done.
    + cbn [Logging.logger_objects]. rewrite lookup_app_r by lia.
      by rewrite Nat.sub_diag.
    + done.
    + cbn [Logging.sink_objects]. rewrite lookup_app_r by lia.
      by rewrite Nat.sub_diag.
    + done.
  - pose proof (Logging.wf_uninit _ Hwf Hi) as Hl. destruct Hwf as [Hm _ _ _ _].
    eexists _, _, _. split_and!.
    + cbn [Logging.exec_all Logging.exec].
      rewrite logging_set_level_spec by done.
      rewrite logging_shutdown_spec by done. cbn [Logging.inited]. rewrite Hi.
      rewrite logging_init_first by done.
      rewrite logging_get_logger_new; [done..|].
      cbn [Logging.loggers]. by rewrite Hl.
    + cbn [Logging.loggers]. by rewrite lookup_insert_eq.
    + cbn [Logging.logger_objects]. rewrite Hl, lookup_empty. done.
    + cbn [Logging.logger_objects]. rewrite lookup_app_r by lia.
      by rewrite Nat.sub_diag.
    + done.
    + cbn [Logging.sink_objects]. rewrite lookup_app_r by lia.
      by rewrite Nat.sub_diag.
    + cbn [Logging.lg_level]. unfold Logging.start_level. cbn [Logging.levels].
      by rewrite lookup_insert_eq.
Qed.

Lemma shutdown_forgets_overrides_witness :
  ∃ st' h lg,
    Logging.exec_all Logging.create
      [Logging.SetLevel "net" Logging.kDebug; Logging.Shutdown;
       Logging.Init Logging.init_ok Logging.defaults;
       Logging.GetLogger Logging.init_ok "net"] = Logging.Done st' ∧
    Logging.loggers st' !! "net" = Some h ∧
    Logging.logger_objects st' !! h = Some lg ∧
    Logging.lg_level lg = Logging.debug.
Proof.
  destruct (shutdown_forgets_overrides Logging.init_ok Logging.init_ok
              Logging.defaults Logging.create "net" Logging.kDebug)
    as (st' & h & lg & He & Hn & _ & Hl & _ & _ & Hlvl).
  - split; simpl; done.
  - reflexivity.
  - reflexivity.
  - exists st', h, lg. split; [exact He|]. split; [exact Hn|]. split; [exact Hl|].
    exact Hlvl.
Defined.

(** ** InfraManager *)

Section InfraFacts.
Import InfraManager.

Lemma runtime_init_started hc st scheduler io_n cpu_n :
  Runtime.started_ (Runtime.init hc st scheduler io_n cpu_n) = true.
Proof. unfold Runtime.init. by destruct (Runtime.started_ st) eqn:Hs. Qed.

Lemma runtime_init_again hc st scheduler io_n cpu_n :
  Runtime.started_ st = true → Runtime.init hc st scheduler io_n cpu_n = st.
Proof. intros Hs. unfold Runtime.init. by rewrite Hs. Qed.

Lemma init_all_runtime_kept env w cfg e w' :
  Runtime.started_ (AsyncRuntime_instance w) = true →
  init_all env w cfg = Logging.Done (e, w') →
  AsyncRuntime_instance w' = AsyncRuntime_instance w.
Proof.
  intros Hs. unfold init_all. destruct (InfraStarted w); [by intros [= <- <-]|].
  destruct (if enable_logging cfg then _ else _) as [[el lm]|]; [|done].
  rewrite runtime_init_again by done.
  destruct el; try by intros [= <- <-].
  destruct (match config_path cfg with EmptyString => _ | _ => _ end) as [ec cm].
  destruct ec; by intros [= <- <-].
Qed.

(** X28. When the logging step of [init_all] fails, [init_all] returns
    that error before it touches anything else: no runtime thread is
    started, the configuration store and the bus are as before, and the
    infrastructure does not count as started. *)
Theorem init_all_logging_failure_starts_nothing (env : platform) (w : process)
    (cfg : InfraConfig) :
  InfraStarted w = false → enable_logging cfg = true →
  Logging.mutex_owned (LogManager_instance w) = false →
  Logging.inited (LogManager_instance w) = false →
  (is_Some (Logging.create_directories_error (log_answers env))
   ∨ Logging.sink_throws (log_answers env) = true) →
  ∃ e w',
    init_all env w cfg = Logging.Done (logging_error e, w') ∧
    e ≠ Logging.ok ∧
    InfraStarted w' = false ∧
    Logging.inited (LogManager_instance w') = false ∧
    AsyncRuntime_instance w' = AsyncRuntime_instance w ∧
    ConfigManager_instance w' = ConfigManager_instance w ∧
    UnifiedBus_instance w' = UnifiedBus_instance w ∧
    shutdown_all w' = Logging.Done w'.
Proof.
  intros Hst Hen Hm Hi Hfail. unfold init_all. rewrite Hst, Hen.
  unfold Logging.init, Logging.lock_guard. rewrite Hm. cbn -[Runtime.init Config.load].
  rewrite Hi.
  destruct (Logging.create_directories_error (log_answers env)) as [errno|] eqn:Hd.
  - eexists _, _. by split_and!.
  - destruct Hfail as [[? Hx]|Ht]; [done|]. rewrite Ht.
    eexists _, _. by split_and!.
Qed.

Lemma init_all_logging_failure_starts_nothing_witness :
  ∃ e w',
    init_all {| hardware_concurrency := 4; parse := toy_parse; files := toy_fs;
                log_answers := {| Logging.create_directories_error := Some 13;
                                  Logging.sink_throws := false |} |}
      fresh
      {| enable_logging := true; logging := Logging.defaults; config_path := "";
         io_threads := 2; cpu_threads := 0; scheduler := None |}
      = Logging.Done (logging_error e, w') ∧
    AsyncRuntime_instance w' = Runtime.create.
Proof.
  destruct (init_all_logging_failure_starts_nothing
              {| hardware_concurrency := 4; parse := toy_parse; files := toy_fs;
                 log_answers := {| Logging.create_directories_error := Some 13;
                                   Logging.sink_throws := false |} |}
              fresh
              {| enable_logging := true; logging := Logging.defaults; config_path := "";
                 io_threads := 2; cpu_threads := 0; scheduler := None |})
    as (e & w' & He & _ & _ & _ & Hr & _).
  - reflexivity.
  - reflexivity.
  - reflexivity.
  - reflexivity.
  - left. eexists. reflexivity.
  - exists e, w'. split; [exact He | exact Hr].
Defined.

(** X29. On an infrastructure that is not started, when the logging
    step of [init_all] is switched off or has succeeded and the
    configuration file cannot be loaded, [init_all] returns the error of
    [load] with the runtime already running: the runtime has been through
    [init], so on one that was not started the worker threads now exist;
    the log manager is as the logging step left it, the infrastructure
    does not count as started, and therefore [shutdown_all] returns
    without stopping anything.  Whatever a later [init_all] is given, the
    runtime keeps the threads of the first. *)
Theorem init_all_config_failure_leaves_runtime_running (env : platform)
    (w : process) (cfg : InfraConfig) (lm : Logging.Impl) (e : Config.error_code)
    (cm : Config.Impl) :
  InfraStarted w = false →
  (if enable_logging cfg
   then Logging.init (log_answers env) (LogManager_instance w) (logging cfg)
        = Logging.Done (Logging.ok, lm)
   else lm = LogManager_instance w) →
  config_path cfg ≠ EmptyString →
  Config.load (parse env) (files env) (ConfigManager_instance w) (config_path cfg)
    = (e, cm) →
  e ≠ Config.ok →
  ∃ w',
    init_all env w cfg = Logging.Done (config_error e, w') ∧
    InfraStarted w' = false ∧
    LogManager_instance w' = lm ∧
    AsyncRuntime_instance w' =
      Runtime.init (hardware_concurrency env) (AsyncRuntime_instance w)
        (scheduler cfg) (io_threads cfg) (cpu_threads cfg) ∧
    Runtime.started_ (AsyncRuntime_instance w') = true ∧
    (Runtime.started_ (AsyncRuntime_instance w) = false →
     Runtime.io_threads_ (AsyncRuntime_instance w') =
       Runtime.io_threads_ (AsyncRuntime_instance w)
       ++ Runtime.workers Runtime.kIo (Runtime.io_count (io_threads cfg))
     ∧ Runtime.cpu_threads_ (AsyncRuntime_instance w') =
         Runtime.cpu_threads_ (AsyncRuntime_instance w)
         ++ Runtime.workers Runtime.kCpu
              (Runtime.cpu_count (hardware_concurrency env) (cpu_threads cfg))) ∧
    ConfigManager_instance w' = ConfigManager_instance w ∧
    UnifiedBus_instance w' = UnifiedBus_instance w ∧
    shutdown_all w' = Logging.Done w' ∧
    (∀ env2 cfg2 e2 w2,
       init_all env2 w' cfg2 = Logging.Done (e2, w2) →
       AsyncRuntime_instance w2 = AsyncRuntime_instance w').
Proof.
  intros Hst Hlog Hpath Hload Hne.
  assert (Hcm : cm = ConfigManager_instance w).
  { revert Hload. unfold Config.load.
    destruct (Config.ReadFileToString _ _); [|by intros [= _ <-]].
    destruct (Config.ParseJsonNoExcept _ _); [|by intros [= _ <-]].
    intros [= <- _]. done. }
  assert (Hinit : init_all env w cfg =
    Logging.Done (config_error e,
      {| InfraStarted := false; LogManager_instance := lm;
         AsyncRuntime_instance :=
           Runtime.init (hardware_concurrency env) (AsyncRuntime_instance w)
             (scheduler cfg) (io_threads cfg) (cpu_threads cfg);
         ConfigManager_instance := cm;
         UnifiedBus_instance := UnifiedBus_instance w |})).
  { unfold init_all. rewrite Hst.
    destruct (enable_logging cfg); [rewrite Hlog | rewrite <- Hlog];
      (destruct (config_path cfg) as [|a s] eqn:Hp; [done|]);
      rewrite Hload; by destruct e. }
  eexists. split; [exact Hinit|]. split_and!.
  - done.
  - done.
  - done.
  - apply runtime_init_started.
  - intros Hrs. cbn [AsyncRuntime_instance]. by rewrite init_not_started.
  - done.
  - done.
  - done.
  - intros env2 cfg2 e2 w2. apply init_all_runtime_kept.
    apply runtime_init_started.
Qed.

Lemma init_all_config_failure_leaves_runtime_running_witness :
  ∃ w',
    init_all {| hardware_concurrency := 4; parse := λ _, None; files := λ _, None;
                log_answers := Logging.init_ok |}
      fresh
      {| enable_logging := true; logging := Logging.defaults;
         config_path := "missing.json";
         io_threads := 1; cpu_threads := 1; scheduler := None |}
      = Logging.Done (config_error Config.no_such_file_or_directory, w') ∧
    Logging.inited (LogManager_instance w') = true ∧
    Runtime.started_ (AsyncRuntime_instance w') = true ∧
    shutdown_all w' = Logging.Done w'.
Proof.
  pose (lm := match Logging.init Logging.init_ok Logging.create Logging.defaults with
              | Logging.Done (_, l) => l
              | Logging.Relock => Logging.create
              end).
  destruct (init_all_config_failure_leaves_runtime_running
              {| hardware_concurrency := 4; parse := λ _, None; files := λ _, None;
                 log_answers := Logging.init_ok |}
              fresh
              {| enable_logging := true; logging := Logging.defaults;
                 config_path := "missing.json";
                 io_threads := 1; cpu_threads := 1; scheduler := None |}
              lm Config.no_such_file_or_directory Config.create)
    as (w' & He & _ & Hl & _ & Hs & _ & _ & _ & Hsd & _).
  - reflexivity.
  - reflexivity.
  - discriminate.
  - reflexivity.
  - discriminate.
  - exists w'. split; [exact He|]. split; [by rewrite Hl|].
    split; [exact Hs | exact Hsd].
Defined.

(** X30. After a successful [init_all], a further [init_all] changes
    nothing whatever its configuration; [shutdown_all] then joins every
    thread of the runtime and shuts the log manager down, but leaves the
    loaded configuration and the bus in place, and a further
    [shutdown_all] changes nothing. *)
Theorem init_all_shutdown_all_round_trip (env env2 : platform) (w w1 : process)
    (cfg cfg2 : InfraConfig) :
  Logging.mutex_owned (LogManager_instance w) = false →
  InfraStarted w = false →
  init_all env w cfg = Logging.Done (ok, w1) →
  init_all env2 w1 cfg2 = Logging.Done (ok, w1) ∧
  Runtime.started_ (AsyncRuntime_instance w1) = true ∧
  is_Some (UnifiedBus_instance w1) ∧
  ∃ w2,
    shutdown_all w1 = Logging.Done w2 ∧
    InfraStarted w2 = false ∧
    Runtime.started_ (AsyncRuntime_instance w2) = false ∧
    runtime_threads w2 = [] ∧
    Logging.inited (LogManager_instance w2) = false ∧
    ConfigManager_instance w2 = ConfigManager_instance w1 ∧
    UnifiedBus_instance w2 = UnifiedBus_instance w1 ∧
    shutdown_all w2 = Logging.Done w2.
Proof.
  intros Hm Hst Hinit.
  assert (Hw1 : InfraStarted w1 = true
                ∧ Runtime.started_ (AsyncRuntime_instance w1) = true
                ∧ is_Some (UnifiedBus_instance w1)
                ∧ Logging.mutex_owned (LogManager_instance w1) = false).
  { revert Hinit. unfold init_all. rewrite Hst.
    destruct (enable_logging cfg).
    - unfold Logging.init, Logging.lock_guard. rewrite Hm.
      cbn -[Runtime.init Config.load].
      destruct (Logging.inited (LogManager_instance w)).
      + destruct (match config_path cfg with EmptyString => _ | _ => _ end) as [ec cm'].
        destruct ec; intros [= <-]; cbn [InfraStarted AsyncRuntime_instance
          UnifiedBus_instance LogManager_instance]; split_and!; try done.
        * apply runtime_init_started.
        * unfold get_instance. by destruct (UnifiedBus_instance w).
      + destruct (Logging.create_directories_error (log_answers env)); [done|].
        destruct (Logging.sink_throws (log_answers env)); [done|].
        destruct (match config_path cfg with EmptyString => _ | _ => _ end) as [ec cm'].
        destruct ec; intros [= <-]; cbn [InfraStarted AsyncRuntime_instance
          UnifiedBus_instance LogManager_instance]; split_and!; try done.
        * apply runtime_init_started.
        * unfold get_instance. by destruct (UnifiedBus_instance w).
    - destruct (match config_path cfg with EmptyString => _ | _ => _ end) as [ec cm'].
      destruct ec; intros [= <-]; cbn [InfraStarted AsyncRuntime_instance
        UnifiedBus_instance LogManager_instance]; split_and!; try done.
      + apply runtime_init_started.
      + unfold get_instance. by destruct (UnifiedBus_instance w). }
  destruct Hw1 as (Hs1 & Hr1 & Hb1 & Hm1). split_and!; try done.
  - unfold init_all. by rewrite Hs1.
  - unfold shutdown_all. rewrite Hs1. cbn [negb].
    rewrite logging_shutdown_spec by done.
    eexists. split; [done|].
    unfold Runtime.stop. rewrite Hr1. cbn [negb].
    unfold runtime_threads. cbn. split_and!; try done.
    by destruct (Logging.inited (LogManager_instance w1)) eqn:Hi.
Qed.

Lemma init_all_shutdown_all_round_trip_witness :
  ∃ w1 w2,
    init_all {| hardware_concurrency := 4; parse := toy_parse; files := toy_fs;
                log_answers := Logging.init_ok |}
      fresh
      {| enable_logging := true; logging := Logging.defaults; config_path := "";
         io_threads := 1; cpu_threads := 1; scheduler := None |}
      = Logging.Done (ok, w1) ∧
    shutdown_all w1 = Logging.Done w2 ∧
    runtime_threads w2 = [].
Proof.
  pose (env := {| hardware_concurrency := 4; parse := toy_parse; files := toy_fs;
                  log_answers := Logging.init_ok |}).
  pose (cfg := {| enable_logging := true; logging := Logging.defaults;
                  config_path := ""; io_threads := 1; cpu_threads := 1;
                  scheduler := None |}).
  pose (w1 := match init_all env fresh cfg with
              | Logging.Done (_, w) => w
              | Logging.Relock => fresh
              end).
  destruct (init_all_shutdown_all_round_trip env env fresh w1 cfg default_config)
    as (_ & _ & _ & w2 & Hsd & _ & _ & Hth & _).
  - reflexivity.
  - reflexivity.
  - reflexivity.
  - exists w1, w2. split; [reflexivity|]. split; [exact Hsd | exact Hth].
Defined.

End InfraFacts.
